(** * USPS: a user-space round-robin process scheduler and its ready queue

    A shallow embedding of

    - [src/adts/arrayqueue.c]: the array-based generic FIFO queue that the
      scheduler uses as its ready queue, and
    - [src/project1/uspsv3.c] and [src/project1/uspsv4.c]: quantum
      resolution, timer set-up, process launch and the dispatch loop,

    together with the properties of the scheduling engine.

    Conventions.  C integers are [Z] with the wrap-around of their width
    written out ([to_int] for [int], [to_long] for [long], LP64).  C's [/]
    and [%] truncate towards zero: [Z.quot] and [Z.rem].  A [void **] buffer
    is a [list] indexed from 0; a slot that was allocated and never written
    holds [junk].  An access outside the buffer is undefined in C; the model
    reads [junk] there and ignores the write, and the well-formedness
    invariant [wf] rules such accesses out. *)

From stdpp Require Import base list.
From Stdlib Require Import ZArith Lia Bool.
From Stdlib Require String.

Local Open Scope Z_scope.

(** ** Machine integers *)

Module CInt.

Definition INT_MAX : Z := 2 ^ 31 - 1.
Definition LONG_MAX : Z := 2 ^ 63 - 1.

(** Conversion to a 32-bit [int]. *)
Definition to_int (x : Z) : Z := (x + 2 ^ 31) mod 2 ^ 32 - 2 ^ 31.

(** Conversion to a 64-bit [long]. *)
Definition to_long (x : Z) : Z := (x + 2 ^ 63) mod 2 ^ 64 - 2 ^ 63.

(** Conversion to a 64-bit [size_t]. *)
Definition to_size_t (x : Z) : Z := x mod 2 ^ 64.

(** [sizeof(void * )] on LP64. *)
Definition sizeof_ptr : Z := 8.

End CInt.

(** ** The array queue of [arrayqueue.c] *)

Module ArrayQueue.
Import CInt.

Section Queue.

(** The element type ([void *]) and the content of an unwritten slot. *)
Variable A : Type.
Variable junk : A.

(** [struct q_data].  The [freeValue] callback is only used by [purge]
    (on destroy and clear) and is left out. *)
Record QData : Type := mkQ {
  count : Z;          (* long *)
  size : Z;           (* long *)
  q_in : Z;           (* int in *)
  q_out : Z;          (* int out *)
  buffer : list A     (* void **buffer *)
}.

(** [buf[i]] *)
Definition rd (buf : list A) (i : Z) : A :=
  if i <? 0 then junk else default junk (buf !! Z.to_nat i).

(** [buf[i] = x] *)
Definition wr (buf : list A) (i : Z) (x : A) : list A :=
  if i <? 0 then buf else <[Z.to_nat i := x]> buf.

(** [(i + 1) % size] with [long i]. *)
Definition next_long (sz i : Z) : Z := to_long (Z.rem (to_long (i + 1)) sz).

(** [(i + 1) % size] with [int i], stored back into an [int]. *)
Definition next_int (sz i : Z) : Z := to_int (Z.rem (to_int (i + 1)) sz).

(** The copy loop of [q_enqueue]:
    [for (i = out, j = 0; n > 0; i = (i + 1) % size, j++) { tmp[j] = buffer[i]; n--; }] *)
Fixpoint copy_loop (n : nat) (buf : list A) (sz i j : Z) (tmp : list A) : list A :=
  match n with
  | O => tmp
  | S n' => copy_loop n' buf sz (next_long sz i) (to_long (j + 1)) (wr tmp j (rd buf i))
  end.

(** [malloc(nbytes)] seen as a number of pointer slots. *)
Definition slots_of_bytes (nbytes : Z) : nat := Z.to_nat (nbytes / sizeof_ptr).

(** [q_enqueue].  [malloc_ok] is the answer of [malloc] should the buffer
    have to grow ([tmp != NULL]). *)
Definition q_enqueue (malloc_ok : bool) (qd : QData) (element : A) : bool * QData :=
  let status := count qd <? size qd in
  let '(status, qd) :=
    if negb status then
      let nbytes := to_size_t (to_size_t (to_long (2 * size qd)) * sizeof_ptr) in
      if malloc_ok then
        let n := count qd in
        let tmp := replicate (slots_of_bytes nbytes) junk in
        let tmp := copy_loop (Z.to_nat n) (buffer qd) (size qd) (q_out qd) 0 tmp in
        (true, {| count := count qd;
                  size := to_long (size qd * 2);
                  q_in := to_int (count qd);
                  q_out := to_int 0;
                  buffer := tmp |})
      else (status, qd)
    else (status, qd) in
  if status then
    let i := q_in qd in
    (true, {| count := to_long (count qd + 1);
              size := size qd;
              q_in := next_int (size qd) i;
              q_out := q_out qd;
              buffer := wr (buffer qd) i element |})
  else (false, qd).

(** [q_front].  The out-parameter [*element] is passed in and returned. *)
Definition q_front (qd : QData) (element : A) : bool * A :=
  let status := 0 <? count qd in
  if status then (status, rd (buffer qd) (q_out qd)) else (status, element).

(** [q_dequeue], same convention for [*element]. *)
Definition q_dequeue (qd : QData) (element : A) : bool * A * QData :=
  let status := 0 <? count qd in
  if status then
    let i := q_out qd in
    (status, rd (buffer qd) i,
     {| count := to_long (count qd - 1);
        size := size qd;
        q_in := q_in qd;
        q_out := next_int (size qd) i;
        buffer := buffer qd |})
  else (status, element, qd).

Definition q_size (qd : QData) : Z := count qd.

Definition q_isEmpty (qd : QData) : bool := count qd =? 0.

(** The loop of [genArray], with its [int] counters:
    [for (i = out, j = 0; n > 0; i = (i+1) % size, j++, n--) tmp[j] = buffer[i];] *)
Fixpoint gen_loop (n : nat) (buf : list A) (sz i : Z) : list A :=
  match n with
  | O => []
  | S n' => rd buf i :: gen_loop n' buf sz (next_int sz i)
  end.

(** [newQueue], when its three allocations succeed.
    [DEFAULT_QUEUE_CAPACITY] comes from the header [ADTs/arrayqueue.h]. *)
Definition newQueue (DEFAULT_QUEUE_CAPACITY capacity : Z) : QData :=
  let cap := if capacity <=? 0 then DEFAULT_QUEUE_CAPACITY else capacity in
  {| count := 0; size := cap; q_in := 0; q_out := 0;
     buffer := replicate (slots_of_bytes (to_size_t (cap * sizeof_ptr))) junk |}.

(** The elements held by the queue, front first: the [count] slots from
    [out] on around the ring, in the order in which [genArray] copies them. *)
Definition contents (qd : QData) : list A :=
  gen_loop (Z.to_nat (count qd)) (buffer qd) (size qd) (q_out qd).

(** The reallocation of [q_enqueue] on a full queue, before the new
    element is stored. *)
Definition grown (qd : QData) : QData :=
  {| count := count qd;
     size := size qd * 2;
     q_in := count qd;
     q_out := 0;
     buffer := contents qd ++ replicate (Z.to_nat (size qd)) junk |}.

(** Representation invariant of [struct q_data]: the indices are inside the
    buffer, [in] is [count] slots after [out] around the ring, and the
    capacity fits the [int] indices. *)
Record wf (qd : QData) : Prop := mkWf {
  wf_size : 0 < size qd <= INT_MAX;
  wf_count : 0 <= count qd <= size qd;
  wf_out : 0 <= q_out qd < size qd;
  wf_in : q_in qd = (q_out qd + count qd) mod size qd;
  wf_buffer : Z.of_nat (length (buffer qd)) = size qd
}.

(** A client's operation on the queue.  An enqueue carries the answer that
    [malloc] gives if the buffer has to grow. *)
Inductive op : Type :=
  | Enqueue (element : A) (malloc_ok : bool)
  | Dequeue.

(** What the client sees of one operation. *)
Inductive answer : Type :=
  | Enqueued (status : bool)
  | Dequeued (status : bool) (element : A).

(** A client running a sequence of operations; every dequeue starts from an
    out-parameter holding [junk]. *)
Fixpoint run_ops (ops : list op) (qd : QData) : list answer * QData :=
  match ops with
  | [] => ([], qd)
  | Enqueue x ok :: ops' =>
      let '(status, qd') := q_enqueue ok qd x in
      let '(answers, qd'') := run_ops ops' qd' in
      (Enqueued status :: answers, qd'')
  | Dequeue :: ops' =>
      let '(status, x, qd') := q_dequeue qd junk in
      let '(answers, qd'') := run_ops ops' qd' in
      (Dequeued status x :: answers, qd'')
  end.

(** The same client on an unbounded FIFO sequence: enqueue appends at the
    back and succeeds, dequeue removes the earliest element still present. *)
Fixpoint fifo_ops (ops : list op) (l : list A) : list answer * list A :=
  match ops with
  | [] => ([], l)
  | Enqueue x _ :: ops' =>
      let '(answers, l') := fifo_ops ops' (l ++ [x]) in
      (Enqueued true :: answers, l')
  | Dequeue :: ops' =>
      match l with
      | [] =>
          let '(answers, l') := fifo_ops ops' [] in
          (Dequeued false junk :: answers, l')
      | x :: l0 =>
          let '(answers, l') := fifo_ops ops' l0 in
          (Dequeued true x :: answers, l')
      end
  end.

Definition malloc_succeeds (o : op) : bool :=
  match o with
  | Enqueue _ ok => ok
  | Dequeue => true
  end.

End Queue.

Arguments count {A} _.
Arguments size {A} _.
Arguments q_in {A} _.
Arguments q_out {A} _.
Arguments buffer {A} _.
Arguments mkQ {A} _ _ _ _ _.
Arguments rd {A} junk buf i.
Arguments wr {A} buf i x.
Arguments copy_loop {A} junk n buf sz i j tmp.
Arguments q_enqueue {A} junk malloc_ok qd element.
Arguments q_front {A} junk qd element.
Arguments q_dequeue {A} junk qd element.
Arguments q_size {A} qd.
Arguments q_isEmpty {A} qd.
Arguments gen_loop {A} junk n buf sz i.
Arguments newQueue {A} junk DEFAULT_QUEUE_CAPACITY capacity.
Arguments contents {A} junk qd.
Arguments grown {A} junk qd.
Arguments wf {A} qd.
Arguments Enqueue {A} element malloc_ok.
Arguments Dequeue {A}.
Arguments Enqueued {A} status.
Arguments Dequeued {A} status element.
Arguments run_ops {A} junk ops qd.
Arguments fifo_ops {A} junk ops l.
Arguments malloc_succeeds {A} o.

(** A queue of capacity 2 taken beyond its capacity and drained. *)
Definition sample_ops : list (op Z) :=
  [Enqueue 1 true; Enqueue 2 true; Enqueue 3 true; Dequeue; Enqueue 4 true;
   Dequeue; Dequeue; Dequeue; Dequeue].

(** The queue of capacity 2 once it is full. *)
Definition full_queue : QData Z :=
  snd (run_ops 0 [Enqueue 1 true; Enqueue 2 true] (newQueue 0 50 2)).

End ArrayQueue.

(** ** Single-precision values that are whole numbers

    [totalCPUTime] and [timeRuning] are C [float]s.  The program only ever
    stores sums of [int]s in them, so every value they take is a whole
    number; such a value is represented by that number.  [f32_round] is
    IEEE 754 binary32 rounding (24-bit significand, nearest, ties to even)
    of a whole number; overflow to infinity lies beyond any sum the program
    can form and is not represented. *)

Module Float32.

Definition f32_round (x : Z) : Z :=
  let a := Z.abs x in
  let e := Z.log2 a in
  if e <? 24 then x
  else
    let ulp := 2 ^ (e - 23) in
    let q := a / ulp in
    let r := a mod ulp in
    let q' := if 2 * r <? ulp then q
              else if ulp <? 2 * r then q + 1
              else if Z.even q then q else q + 1 in
    Z.sgn x * (q' * ulp).

(** [(float) n] *)
Definition f32_of_int (n : Z) : Z := f32_round n.

(** [a + b] on [float]s *)
Definition f32_add (a b : Z) : Z := f32_round (a + b).

End Float32.

(** ** The scheduler of [uspsv3.c] and [uspsv4.c] *)

Module Usps.
Import CInt ArrayQueue Float32.
Import String.StringSyntax.

Local Open Scope string_scope.

Definition EXIT_FAILURE : Z := 1.
Definition MAX_PROCESSES : Z := 128.

(** [struct ChildProcess] *)
Record ChildProcess : Type := mkChild {
  pid : Z;             (* pid_t *)
  totalCPUTime : Z;    (* float, a whole number *)
  running : bool;
  finished : bool
}.

(** A [ChildProcess *]; [None] is [NULL].  Every PCB has one owner at a
    time (the queue or the local [child]), so the cell is carried by value. *)
Abbreviation ptr := (option ChildProcess).

(** Signals sent with [kill]. *)
Inductive signal : Type := SIGCONT | SIGSTOP.

(** The status word filled in by [waitpid]. *)
Inductive wstatus : Type :=
  | WExited (code : Z)
  | WSignaled (signo : Z)
  | WStopped (signo : Z)
  | WContinued.

Definition WIFEXITED (ws : wstatus) : bool :=
  match ws with WExited _ => true | _ => false end.

Definition WIFSIGNALED (ws : wstatus) : bool :=
  match ws with WSignaled _ => true | _ => false end.

(** A signal delivered to the scheduler.  [SIGCHLD] carries what the
    successive calls [waitpid(-1, &status, WNOHANG)] of its handler return;
    a record that ends stands for a last call that returned 0 or -1. *)
Inductive async_signal : Type :=
  | SIGALRM
  | SIGCHLD (answers : list (Z * wstatus)).

(** What the scheduler does to the outside world, in order. *)
Inductive event : Type :=
  | EPutstr (fd : Z) (msg : String.string)
  | EOpen (res : Z)
  | EFork (res : Z)
  | EKill (p : Z) (s : signal)
  | ESetitimer (tv_sec tv_usec : Z)
  | ESleep (seconds : Z)
  | EWaitpid (arg res : Z)
  | EEnqueue (c : ChildProcess) (status : bool)
  | EDequeue (c : ptr)
  | EFree (p : Z)
  | EClose.

(** The globals and the queue. *)
Record state : Type := mkState {
  queue : QData ptr;
  childRunning : bool;
  timeLeft : bool;
  timeRuning : Z;          (* float in v3, a whole number *)
  trace : list event
}.

Definition log (e : event) (st : state) : state :=
  mkState (queue st) (childRunning st) (timeLeft st) (timeRuning st) (trace st ++ [e]).

Definition set_queue (q : QData ptr) (st : state) : state :=
  mkState q (childRunning st) (timeLeft st) (timeRuning st) (trace st).

Definition set_childRunning (b : bool) (st : state) : state :=
  mkState (queue st) b (timeLeft st) (timeRuning st) (trace st).

Definition set_timeLeft (b : bool) (st : state) : state :=
  mkState (queue st) (childRunning st) b (timeRuning st) (trace st).

Definition set_timeRuning (t : Z) (st : state) : state :=
  mkState (queue st) (childRunning st) (timeLeft st) t (trace st).

(** *** Quantum resolution (v3 and v4, lines 49-74, the same text) *)

(** What one call of [getopt(argc, argv, "q:")] returns before -1: the
    option [-q] with the value [p1atoi(optarg)], or anything else.
    [p1atoi] belongs to the course library [p1fxns]; the model takes the
    number it returned. *)
Inductive getopt_result : Type :=
  | OptQ (value : Z)
  | OptOther.

(** [while ((opt = getopt(...)) != -1) switch (opt) { case 'q': ... }] *)
Definition getopt_loop (opts : list getopt_result) (QUANT_SECONDS : Z) : Z :=
  fold_left (fun Q o => match o with OptQ v => v | OptOther => Q end) opts QUANT_SECONDS.

(** The resolution of [QUANT_SECONDS], starting from its initial -1.
    [QUANT_ENV] is [p1atoi] of [getenv("USPS_QUANTUM_MSEC")], if set. *)
Definition resolve_quantum (opts : list getopt_result) (QUANT_ENV : option Z)
  : String.string + Z :=
  let QUANT_SECONDS := getopt_loop opts (-1) in
  let after_env :=
    match QUANT_ENV with
    | Some v => inr (if QUANT_SECONDS <? 0 then v else QUANT_SECONDS)
    | None =>
        if QUANT_SECONDS <? 0
        then inl "Error: No environment variable set or passed"
        else inr QUANT_SECONDS
    end in
  match after_env with
  | inl msg => inl msg
  | inr QUANT_SECONDS =>
      if QUANT_SECONDS <? 0 then inl "Error: No quantum given" else inr QUANT_SECONDS
  end.

(** *** The timer (v3 lines 120-123, v4 lines 124-127)

    [tv_sec = QUANT_SECONDS / 1000; tv_usec = QUANT_SECONDS * 1000;] *)
Definition set_up_timer (QUANT_SECONDS : Z) : Z * Z :=
  (Z.quot QUANT_SECONDS 1000, to_int (QUANT_SECONDS * 1000)).

(** *** Signal handlers *)

(** [alarm_handler] of v3; v4 adds [QUANT_SECONDS] to an [int] instead. *)
Definition alarm_handler (QUANT_SECONDS : Z) (st : state) : state :=
  set_timeLeft false
    (set_timeRuning (f32_add (timeRuning st) (f32_of_int (Z.quot QUANT_SECONDS 1000))) st).

(** [sigchld_handler]:
    [while ((pid = waitpid(-1, &status, WNOHANG)) > 0) ...] *)
Fixpoint sigchld_handler (answers : list (Z * wstatus)) (st : state) : state :=
  match answers with
  | [] => st
  | (p, status) :: rest =>
      let st := log (EWaitpid (-1) p) st in
      if 0 <? p then
        if WIFEXITED status || WIFSIGNALED status
        then sigchld_handler rest (set_childRunning false st)
        else sigchld_handler rest (log (EPutstr 2 "Child exited with error") st)
      else st
  end.

Definition handle (QUANT_SECONDS : Z) (s : async_signal) (st : state) : state :=
  match s with
  | SIGALRM => alarm_handler QUANT_SECONDS st
  | SIGCHLD answers => sigchld_handler answers st
  end.

Definition deliver (QUANT_SECONDS : Z) (sigs : list async_signal) (st : state) : state :=
  fold_left (fun st s => handle QUANT_SECONDS s st) sigs st.

(** *** The dispatch loop of v3 (lines 170-196) *)

(** What the environment does during one dispatch: for each evaluation of
    the condition [childRunning && timeLeft], the signals handled since the
    previous one (for the first, since the flags were set); the value
    [waitpid(child->pid, &status, WNOHANG)] returns; and the answer of
    [malloc] should the queue have to grow.  A signal handled at another
    point of [main] runs the same handlers; what they write to the flags is
    overwritten at the next dispatch, and it is not recorded. *)
Record dispatch_env : Type := mkDispatch {
  polls : list (list async_signal);
  wait_res : Z;
  grow_ok : bool
}.

(** [while (childRunning && timeLeft) { sleep(1); }].  [None]: the record
    of the environment ends while the scheduler is still in the loop. *)
Fixpoint wait_loop (QUANT_SECONDS : Z) (polls : list (list async_signal)) (st : state)
  : option state :=
  match polls with
  | [] => None
  | sigs :: rest =>
      let st := deliver QUANT_SECONDS sigs st in
      if childRunning st && timeLeft st
      then wait_loop QUANT_SECONDS rest (log (ESleep 1) st)
      else Some st
  end.

(** Lines 172-177: resume the child, reset the flags, arm the timer. *)
Definition dispatch (timer : Z * Z) (c : ChildProcess) (st : state) : state :=
  let st := log (EKill (pid c) SIGCONT) st in
  let st := set_childRunning true st in
  let st := set_timeLeft true st in
  log (ESetitimer (fst timer) (snd timer)) st.

(** [child->totalCPUTime += QUANT_SECONDS/1000;] *)
Definition add_quantum (QUANT_SECONDS : Z) (c : ChildProcess) : ChildProcess :=
  mkChild (pid c)
          (f32_add (totalCPUTime c) (f32_of_int (Z.quot QUANT_SECONDS 1000)))
          (running c) (finished c).

(** Lines 184-195: the non-blocking check and its two branches. *)
Definition reap_or_requeue (QUANT_SECONDS : Z) (e : dispatch_env) (c : ChildProcess)
    (st : state) : state :=
  let st := log (EWaitpid (pid c) (wait_res e)) st in
  if wait_res e =? 0 then
    let st := log (EKill (pid c) SIGSTOP) st in
    let c := add_quantum QUANT_SECONDS c in
    let '(status, q) := q_enqueue None (grow_ok e) (queue st) (Some c) in
    log (EEnqueue c status) (set_queue q st)
  else
    log (EFree (pid c)) st.

(** How far a run got. *)
Inductive status : Type :=
  | Exited (code : Z)      (* main returned *)
  | InChild                (* fork returned 0: this copy goes on to execvp *)
  | Running                (* the record of the environment ended first *)
  | Crashed.               (* a NULL PCB was dereferenced *)

(** [while (!queue->isEmpty(queue)) { ... }] followed by the clean-up. *)
Fixpoint sched_loop (QUANT_SECONDS : Z) (timer : Z * Z) (env : list dispatch_env)
    (st : state) : status * state :=
  if q_isEmpty (queue st) then (Exited 0, st)
  else
    match env with
    | [] => (Running, st)
    | e :: env' =>
        let '(_, child, q) := q_dequeue None (queue st) None in
        let st := log (EDequeue child) (set_queue q st) in
        match child with
        | None => (Crashed, st)
        | Some c =>
            let st := dispatch timer c st in
            match wait_loop QUANT_SECONDS (polls e) st with
            | None => (Running, st)
            | Some st =>
                sched_loop QUANT_SECONDS timer env' (reap_or_requeue QUANT_SECONDS e c st)
            end
        end
    end.

(** *** Launch (v3 lines 130-166) *)

(** One command line: what [fork] returned, and the answer of [malloc]
    should the queue have to grow.  The result of
    [malloc(sizeof(ChildProcess))] is used unchecked; the allocation is
    taken to succeed.  Neither version looks at what [enqueue] returns. *)
Record launch_env : Type := mkLaunch {
  fork_res : Z;
  launch_grow_ok : bool
}.

Fixpoint launch_loop (lines : list launch_env) (st : state) : option status * state :=
  match lines with
  | [] => (None, st)
  | l :: rest =>
      let p := fork_res l in
      let st := log (EFork p) st in
      if p =? -1 then
        (Some (Exited EXIT_FAILURE), log (EPutstr 2 "Error creating child process") st)
      else if p =? 0 then (Some InChild, st)
      else
        let child := mkChild p 0 false false in
        let '(status, q) := q_enqueue None (launch_grow_ok l) (queue st) (Some child) in
        launch_loop rest (log (EEnqueue child status) (set_queue q st))
  end.

(** The state after [queue = ArrayQueue(MAX_PROCESSES, free)], with the
    globals at their initial values.  The result of [ArrayQueue] is used
    unchecked; its allocations are taken to succeed. *)
Definition initial_state (DEFAULT_QUEUE_CAPACITY : Z) (tr : list event) : state :=
  mkState (newQueue None DEFAULT_QUEUE_CAPACITY MAX_PROCESSES) false true 0 tr.

(** Launch, then schedule. *)
Definition run_v3 (DEFAULT_QUEUE_CAPACITY QUANT_SECONDS : Z) (lines : list launch_env)
    (env : list dispatch_env) (tr : list event) : status * state :=
  let st := initial_state DEFAULT_QUEUE_CAPACITY tr in
  match launch_loop lines st with
  | (Some s, st) => (s, st)
  | (None, st) =>
      sched_loop QUANT_SECONDS (set_up_timer QUANT_SECONDS) env (log EClose st)
  end.

(** *** [main] of v3 *)

Record main_env : Type := mkEnv {
  opts : list getopt_result;          (* the successive results of getopt *)
  quant_env : option Z;               (* p1atoi of USPS_QUANTUM_MSEC, if set *)
  file_open : option Z;               (* what open() returned, if a file is named *)
  arguments_ok : bool;                (* the allocations of the argument vector *)
  line_ok : bool;                     (* the allocation of the line buffer *)
  lines : list launch_env;
  dispatches : list dispatch_env
}.

Definition main_v3 (DEFAULT_QUEUE_CAPACITY : Z) (env : main_env) : status * list event :=
  match resolve_quantum (opts env) (quant_env env) with
  | inl msg => (Exited EXIT_FAILURE, [EPutstr 2 msg])
  | inr QUANT_SECONDS =>
      let fd := match file_open env with Some r => r | None => 0 end in
      let tr := match file_open env with Some r => [EOpen r] | None => [] end in
      if fd =? -1 then
        (Exited EXIT_FAILURE, tr ++ [EPutstr 2 "Error: opening commands file"])
      else if negb (arguments_ok env) then
        (Exited EXIT_FAILURE, tr ++ [EPutstr 2 "Error allocating space for arguments"])
      else if negb (line_ok env) then
        (Exited EXIT_FAILURE, tr ++ [EPutstr 2 "Error allocating space for line"])
      else
        let '(s, st) :=
          run_v3 DEFAULT_QUEUE_CAPACITY QUANT_SECONDS (lines env) (dispatches env) tr in
        (s, trace st)
  end.

(** [main] of v3 from line 76 on, [QUANT_SECONDS] being settled. *)
Definition main_v3_with_quantum (DEFAULT_QUEUE_CAPACITY QUANT_SECONDS : Z) (env : main_env)
  : status * list event :=
  let fd := match file_open env with Some r => r | None => 0 end in
  let tr := match file_open env with Some r => [EOpen r] | None => [] end in
  if fd =? -1 then
    (Exited EXIT_FAILURE, tr ++ [EPutstr 2 "Error: opening commands file"])
  else if negb (arguments_ok env) then
    (Exited EXIT_FAILURE, tr ++ [EPutstr 2 "Error allocating space for arguments"])
  else if negb (line_ok env) then
    (Exited EXIT_FAILURE, tr ++ [EPutstr 2 "Error allocating space for line"])
  else
    let '(s, st) :=
      run_v3 DEFAULT_QUEUE_CAPACITY QUANT_SECONDS (lines env) (dispatches env) tr in
    (s, trace st).

(** *** The reaping step of v4 (lines 270-287)

    v4 keeps the pids in [pid_list] and their number in [numProcesses];
    it has no statement that touches [totalCPUTime]. *)

(** [for (i = 0; i < numProcesses; i++) if (pid_list[i] == child->pid) { pid_list[i] = -1; break; }] *)
Fixpoint clear_pid (n : nat) (p : Z) (pid_list : list Z) : list Z :=
  match n, pid_list with
  | S n', x :: rest => if x =? p then -1 :: rest else x :: clear_pid n' p rest
  | _, _ => pid_list
  end.

Definition reap_or_requeue_v4 (e : dispatch_env) (c : ChildProcess)
    (pid_list : list Z) (numProcesses : Z) (st : state) : state * list Z * Z :=
  let st := log (EWaitpid (pid c) (wait_res e)) st in
  if wait_res e =? 0 then
    let st := log (EKill (pid c) SIGSTOP) st in
    let '(status, q) := q_enqueue None (grow_ok e) (queue st) (Some c) in
    (log (EEnqueue c status) (set_queue q st), pid_list, numProcesses)
  else
    (log (EFree (pid c)) st,
     clear_pid (Z.to_nat numProcesses) (pid c) pid_list,
     to_long (numProcesses - 1)).

(** *** Vocabulary of the properties *)

(** The override the command line supplies: the value of its last [-q]. *)
Definition supplied_override (opts : list getopt_result) : option Z :=
  fold_left (fun acc o => match o with OptQ v => Some v | OptOther => acc end) opts None.

(** The value held by [QUANT_SECONDS] once the override and the fallback
    have been consulted (line 70 of v3 and v4). *)
Definition candidate_quantum (opts : list getopt_result) (QUANT_ENV : option Z) : Z :=
  let QUANT_SECONDS := getopt_loop opts (-1) in
  match QUANT_ENV with
  | Some v => if QUANT_SECONDS <? 0 then v else QUANT_SECONDS
  | None => QUANT_SECONDS
  end.

(** The processes sent [SIGCONT], in order. *)
Definition dispatched (tr : list event) : list Z :=
  flat_map (fun e => match e with EKill p SIGCONT => [p] | _ => [] end) tr.

(** The PCBs released, in order. *)
Definition freed (tr : list event) : list Z :=
  flat_map (fun e => match e with EFree p => [p] | _ => [] end) tr.

(** The processes created, in order. *)
Definition launched (tr : list event) : list Z :=
  flat_map (fun e => match e with
                     | EFork p => if (p =? -1) || (p =? 0) then [] else [p]
                     | _ => []
                     end) tr.

(** The PCBs that [enqueue] turned down: neither version looks at what
    [enqueue] returns (v3 line 164, v4 line 170). *)
Definition lost (tr : list event) : list Z :=
  flat_map (fun e => match e with EEnqueue c false => [pid c] | _ => [] end) tr.

(** The processes whose status a call of [waitpid] has obtained, in
    order: the pids that [waitpid] returned. *)
Definition reaped (tr : list event) : list Z :=
  flat_map (fun e => match e with
                     | EWaitpid _ r => if 0 <? r then [r] else []
                     | _ => []
                     end) tr.

(** The contract of [waitpid] as far as the scheduler relies on it:
    the status of a process is handed out once only, and a call with
    [WNOHANG] that names a child returns its pid, or 0 while it has not
    terminated, or -1 once its status has been handed out.  [seen] are the
    pids returned so far. *)
Fixpoint waitpid_contract_from (seen : list Z) (tr : list event) : bool :=
  match tr with
  | [] => true
  | EWaitpid a r :: tr' =>
      (if 0 <? r then negb (existsb (Z.eqb r) seen) else true)
      && ((a =? -1) || (r =? a) || (r =? 0) || ((r =? -1) && existsb (Z.eqb a) seen))
      && waitpid_contract_from (if 0 <? r then seen ++ [r] else seen) tr'
  | _ :: tr' => waitpid_contract_from seen tr'
  end.

Definition waitpid_contract (tr : list event) : bool := waitpid_contract_from [] tr.

(** The number of calls of [sleep]. *)
Definition sleeps (tr : list event) : nat :=
  length (flat_map (fun e => match e with ESleep _ => [e] | _ => [] end) tr).

Definition remove_pid (p : Z) (r : list Z) : list Z :=
  List.filter (fun x => negb (x =? p)) r.

(** The processes resumed ([SIGCONT]) and not yet suspended ([SIGSTOP])
    or finalized: the PCBs in state RUNNING. *)
Definition resumed_step (r : list Z) (e : event) : list Z :=
  match e with
  | EKill p SIGCONT => r ++ [p]
  | EKill p SIGSTOP => remove_pid p r
  | EFree p => remove_pid p r
  | _ => r
  end.

Definition resumed (tr : list event) : list Z := fold_left resumed_step tr [].

(** The pids of the PCBs in the ready queue, front first. *)
Definition pcb_pid (q : ptr) : list Z :=
  match q with Some c => [pid c] | None => [] end.

Definition ready_pids (st : state) : list Z :=
  flat_map pcb_pid (contents None (queue st)).

(** Whether some call of [waitpid] returned the pid of a process other
    than the one resumed at that moment. *)
Fixpoint steals_from (r : list Z) (tr : list event) : bool :=
  match tr with
  | [] => false
  | e :: tr' =>
      match e with
      | EWaitpid _ p => (0 <? p) && negb (existsb (Z.eqb p) r)
      | _ => false
      end || steals_from (resumed_step r e) tr'
  end.

Definition steals (tr : list event) : bool := steals_from [] tr.

(** Whether a delivered signal clears one of the two flags. *)
Fixpoint reaps_terminated (answers : list (Z * wstatus)) : bool :=
  match answers with
  | [] => false
  | (p, status) :: rest =>
      (0 <? p) && ((WIFEXITED status || WIFSIGNALED status) || reaps_terminated rest)
  end.

Definition drops (s : async_signal) : bool :=
  match s with
  | SIGALRM => true
  | SIGCHLD answers => reaps_terminated answers
  end.

(** Whether the environment lets the wait of a dispatch end. *)
Definition wait_ends (e : dispatch_env) : bool :=
  existsb (existsb drops) (polls e).

(** Round robin as the specification words it.  One round grants every
    ready process one quantum, in order; the processes whose exit check
    returned 0 are ready again for the next round, in the same order.
    [rr_round] returns the processes dispatched in the round, those ready
    for the next one, and the exit checks not yet used. *)
Fixpoint rr_round (ready : list Z) (checks : list Z) : list Z * list Z * list Z :=
  match ready, checks with
  | p :: ready', r :: checks' =>
      let '(d, s, rest) := rr_round ready' checks' in
      (p :: d, if r =? 0 then p :: s else s, rest)
  | _, _ => ([], [], checks)
  end.

Fixpoint rr_rounds (rounds : nat) (ready : list Z) (checks : list Z) : list Z :=
  match rounds with
  | O => []
  | S rounds' =>
      let '(d, s, rest) := rr_round ready checks in
      d ++ rr_rounds rounds' s rest
  end.

Definition round_robin (ready : list Z) (checks : list Z) : list Z :=
  rr_rounds (length checks) ready checks.

(** The ready queue as a plain sequence: the front is dispatched and, if
    its exit check returned 0, goes to the back. *)
Fixpoint fifo_dispatch (ready : list Z) (checks : list Z) : list Z :=
  match checks, ready with
  | r :: checks', p :: ready' =>
      p :: fifo_dispatch (if r =? 0 then ready' ++ [p] else ready') checks'
  | _, _ => []
  end.

(** The events of the signal handlers, and those of the whole wait. *)
Definition handler_event (e : event) : bool :=
  match e with
  | EWaitpid a _ => a =? -1
  | EPutstr _ _ => true
  | _ => false
  end.

Definition wait_event (e : event) : bool :=
  handler_event e || match e with ESleep _ => true | _ => false end.

(** The discipline of a trace: at most one process is resumed at any
    point; a [waitpid] that names a process names the one resumed; a PCB
    is freed once, right after a [waitpid] on its pid that did not return
    0, and is not enqueued afterwards. *)
Definition step_ok (tr : list event) (e : event) : Prop :=
  (length (resumed (tr ++ [e])) <= 1)%nat /\
  match e with
  | EWaitpid a _ => a <> -1 -> resumed tr = [a]
  | EEnqueue c _ => pid c ∉ freed tr
  | EFree p => (p ∉ freed tr) /\ exists tr0 res, tr = tr0 ++ [EWaitpid p res] /\ res <> 0
  | _ => True
  end.

Inductive disciplined : list event -> Prop :=
  | disciplined_nil : disciplined []
  | disciplined_snoc tr e :
      disciplined tr -> step_ok tr e -> disciplined (tr ++ [e]).

(** Events that change none of the views [resumed], [freed], [launched]
    and bear no obligation. *)
Definition neutral (e : event) : bool :=
  match e with
  | EPutstr _ _ | EOpen _ | ESetitimer _ _ | ESleep _ | EDequeue _ | EClose => true
  | EWaitpid a _ => a =? -1
  | _ => false
  end.

(** A disciplined trace together with its views. *)
Record view (tr : list event) (r f l : list Z) : Prop := mkView {
  v_disciplined : disciplined tr;
  v_resumed : resumed tr = r;
  v_freed : freed tr = f;
  v_launched : launched tr = l
}.

(** What a signal handler, or the whole wait, may do to the state: extend
    the trace by events of the given kind and clear flags. *)
Record extends (kind : event -> bool) (st st' : state) : Prop := mkExt {
  ext_queue : queue st' = queue st;
  ext_trace : exists evs, trace st' = trace st ++ evs /\ forallb kind evs = true;
  ext_childRunning : childRunning st' = true -> childRunning st = true;
  ext_timeLeft : timeLeft st' = true -> timeLeft st = true
}.

(** Line 173: [queue->dequeue(queue, (void ** )&child)] with [child] NULL. *)
Definition after_dequeue (st : state) : state :=
  let '(_, child, q) := q_dequeue None (queue st) None in
  log (EDequeue child) (set_queue q st).

(** The events of one turn of the dispatch loop for the PCB [c], [wevs]
    being those of the wait. *)
Definition turn_events (QUANT_SECONDS : Z) (timer : Z * Z) (e : dispatch_env)
    (c : ChildProcess) (wevs : list event) : list event :=
  [EDequeue (Some c); EKill (pid c) SIGCONT; ESetitimer (fst timer) (snd timer)]
  ++ wevs
  ++ EWaitpid (pid c) (wait_res e)
     :: (if wait_res e =? 0
         then [EKill (pid c) SIGSTOP; EEnqueue (add_quantum QUANT_SECONDS c) true]
         else [EFree (pid c)]).

(** The ready queue after that turn. *)
Definition turn_ready (QUANT_SECONDS : Z) (e : dispatch_env) (c : ChildProcess)
    (cs : list ChildProcess) : list ChildProcess :=
  if wait_res e =? 0 then cs ++ [add_quantum QUANT_SECONDS c] else cs.

(** The same for either version, [c'] being the PCB put back: v3 puts
    back [add_quantum QUANT_SECONDS c], v4 puts back [c]. *)
Definition turn_events_of (timer : Z * Z) (e : dispatch_env) (c c' : ChildProcess)
    (wevs : list event) : list event :=
  [EDequeue (Some c); EKill (pid c) SIGCONT; ESetitimer (fst timer) (snd timer)]
  ++ wevs
  ++ EWaitpid (pid c) (wait_res e)
     :: (if wait_res e =? 0
         then [EKill (pid c) SIGSTOP; EEnqueue c' true]
         else [EFree (pid c)]).

Definition turn_ready_of (e : dispatch_env) (c' : ChildProcess) (cs : list ChildProcess)
  : list ChildProcess :=
  if wait_res e =? 0 then cs ++ [c'] else cs.

(** The ready queue holds the PCBs [cs], front first. *)
Definition holds (st : state) (cs : list ChildProcess) : Prop :=
  wf (queue st) /\ contents None (queue st) = (Some <$> cs).

(** The invariant of a run, [cs] being the PCBs in the ready queue: they
    are distinct, none of them is resumed or freed, no resumed process is
    freed, and every process launched is in the queue, resumed, freed, or
    was turned down by [enqueue]. *)
Record run_inv (st : state) (cs : list ChildProcess) : Prop := mkInv {
  inv_holds : holds st cs;
  inv_nodup : NoDup (pid <$> cs);
  inv_trace : disciplined (trace st);
  inv_ready : forall p, p ∈ (pid <$> cs) ->
                        (p ∉ resumed (trace st)) /\ (p ∉ freed (trace st));
  inv_resumed : forall p, p ∈ resumed (trace st) -> p ∉ freed (trace st);
  inv_cover : forall p, p ∈ launched (trace st) ->
                p ∈ (pid <$> cs) \/ p ∈ resumed (trace st) \/ p ∈ freed (trace st) \/
                p ∈ lost (trace st);
  inv_known : forall p, p ∈ (pid <$> cs) \/ p ∈ resumed (trace st) \/ p ∈ freed (trace st) ->
                p ∈ launched (trace st)
}.

(** *** Sample environments *)

(** A quantum that expires with the child still running. *)
Definition expires : dispatch_env := mkDispatch [[SIGALRM]] 0 true.

(** A quantum in which child [p] exits and is reaped by the handler. *)
Definition exits (p : Z) : dispatch_env :=
  mkDispatch [[SIGCHLD [(p, WExited 0)]]] (-1) true.

(** Two command lines. *)
Definition two_commands : list launch_env :=
  [mkLaunch 101 true; mkLaunch 102 true].

(** The two PCBs they create. *)
Definition two_pcbs : list ChildProcess :=
  [mkChild 101 0 false false; mkChild 102 0 false false].

(** The state at the head of the dispatch loop once they are launched. *)
Definition two_launched : state :=
  log EClose (snd (launch_loop two_commands (initial_state 50 []))).

(** Override 500 and fallback 200; two commands that need three quanta. *)
Definition env_two_by_three : main_env :=
  mkEnv [OptQ 500] (Some 200) None true true
        [mkLaunch 101 true; mkLaunch 102 true]
        [expires; expires; expires; expires; exits 101; exits 102].

(** Neither an override nor a fallback. *)
Definition env_neither : main_env :=
  mkEnv [] None None true true [mkLaunch 101 true] [exits 101].

(** No override and a fallback of 200. *)
Definition env_fallback : main_env :=
  mkEnv [] (Some 200) None true true [mkLaunch 101 true] [exits 101].

(** No override and a fallback that [p1atoi] reads as -7. *)
Definition env_negative_fallback : main_env :=
  mkEnv [] (Some (-7)) None true true [mkLaunch 101 true] [exits 101].

(** An override of 0 and one command. *)
Definition env_zero : main_env :=
  mkEnv [OptQ 0] None None true true [mkLaunch 101 true] [exits 101].

(** The child is continued, which raises a [SIGCHLD] that reaps nothing,
    and the quantum expires afterwards. *)
Definition polls_twice : dispatch_env :=
  mkDispatch [[]; [SIGCHLD [(0, WContinued)]]; [SIGALRM]] 0 true.

Definition env_polls_twice : main_env :=
  mkEnv [OptQ 500] None None true true [mkLaunch 101 true] [polls_twice].

(** 101 dies after its first quantum while it sits in the ready queue; the
    handler reaps it during the quantum of 102. *)
Definition env_reaped_elsewhere : list dispatch_env :=
  [expires;
   mkDispatch [[SIGCHLD [(101, WSignaled 9)]]] 0 true;
   mkDispatch [[SIGALRM]] (-1) true;
   exits 102].

(** 129 command lines, on a system where no reallocation of the queue
    succeeds; each process ends within its first quantum. *)
Definition many_commands : list launch_env :=
  (fun i => mkLaunch (1000 + Z.of_nat i) false) <$> seq 0 129.

Definition all_exit : list dispatch_env :=
  (fun i => exits (1000 + Z.of_nat i)) <$> seq 0 129.

End Usps.

(** ** The rest of [arrayqueue.c] *)

Module ArrayQueueRest.
Import CInt ArrayQueue.

Section Rest.

Variable A : Type.
Variable junk : A.

(** [purge]: the arguments of the successive calls of [freeValue],
    [for (i = qd->out, n = qd->count; n > 0; i = (i + 1) % qd->size, n--)]
    with [int i, n]. *)
Definition purge (qd : QData A) : list A :=
  gen_loop junk (Z.to_nat (to_int (count qd))) (buffer qd) (size qd) (q_out qd).

(** [q_destroy]: the queue is gone; what is left to see is what [purge]
    handed to [freeValue]. *)
Definition q_destroy (qd : QData A) : list A := purge qd.

(** [q_clear]: the values handed to [freeValue], and the queue afterwards. *)
Definition q_clear (qd : QData A) : list A * QData A :=
  (purge qd,
   {| count := 0; size := size qd; q_in := 0; q_out := 0; buffer := buffer qd |}).

(** The loop of [genArray], writing into [tmp], with [int i, j, n]. *)
Fixpoint array_loop (n : nat) (buf : list A) (sz i j : Z) (tmp : list A) : list A :=
  match n with
  | O => tmp
  | S n' => array_loop n' buf sz (next_int sz i) (to_int (j + 1)) (wr tmp j (rd junk buf i))
  end.

(** [genArray]; [None] is [NULL], [malloc_ok] the answer of its [malloc]. *)
Definition genArray (malloc_ok : bool) (qd : QData A) : option (list A) :=
  if 0 <? count qd then
    if malloc_ok then
      let tmp := replicate (slots_of_bytes (to_size_t (to_size_t (count qd) * sizeof_ptr))) junk in
      Some (array_loop (Z.to_nat (to_int (count qd))) (buffer qd) (size qd) (q_out qd) 0 tmp)
    else None
  else None.

(** [q_toArray]; the out-parameter [*len] is passed in and returned. *)
Definition q_toArray (malloc_ok : bool) (qd : QData A) (len : Z) : option (list A) * Z :=
  match genArray malloc_ok qd with
  | Some tmp => (Some tmp, count qd)
  | None => (None, len)
  end.

(** [newQueue] with the answers of its three calls of [malloc] (the
    dispatch table, the [q_data], the buffer); [None] is [NULL]. *)
Definition newQueue_alloc (q_ok qd_ok tmp_ok : bool) (DEFAULT_QUEUE_CAPACITY capacity : Z)
  : option (QData A) :=
  if q_ok then
    if qd_ok then
      if tmp_ok then Some (newQueue junk DEFAULT_QUEUE_CAPACITY capacity) else None
    else None
  else None.

(** [ArrayQueue], [Queue_create] and [q_create]. *)
Definition ArrayQueue (q_ok qd_ok tmp_ok : bool) (DEFAULT_QUEUE_CAPACITY capacity : Z)
  : option (QData A) :=
  newQueue_alloc q_ok qd_ok tmp_ok DEFAULT_QUEUE_CAPACITY capacity.

Definition Queue_create (q_ok qd_ok tmp_ok : bool) (DEFAULT_QUEUE_CAPACITY : Z)
  : option (QData A) :=
  newQueue_alloc q_ok qd_ok tmp_ok DEFAULT_QUEUE_CAPACITY DEFAULT_QUEUE_CAPACITY.

Definition q_create (q_ok qd_ok tmp_ok : bool) (DEFAULT_QUEUE_CAPACITY : Z)
  : option (QData A) :=
  newQueue_alloc q_ok qd_ok tmp_ok DEFAULT_QUEUE_CAPACITY DEFAULT_QUEUE_CAPACITY.

(** A client on a FIFO sequence of capacity [cap]: an enqueue needs no
    allocation while there is room; without room it doubles the capacity if
    the allocation succeeds and fails, changing nothing, if not. *)
Fixpoint fifo_cap_ops (ops : list (op A)) (l : list A) (cap : Z)
  : list (answer A) * list A * Z :=
  match ops with
  | [] => ([], l, cap)
  | Enqueue x ok :: ops' =>
      if Z.of_nat (length l) <? cap then
        let '(answers, l', cap') := fifo_cap_ops ops' (l ++ [x]) cap in
        (Enqueued true :: answers, l', cap')
      else if ok then
        let '(answers, l', cap') := fifo_cap_ops ops' (l ++ [x]) (cap * 2) in
        (Enqueued true :: answers, l', cap')
      else
        let '(answers, l', cap') := fifo_cap_ops ops' l cap in
        (Enqueued false :: answers, l', cap')
  | Dequeue :: ops' =>
      match l with
      | [] =>
          let '(answers, l', cap') := fifo_cap_ops ops' [] cap in
          (Dequeued false junk :: answers, l', cap')
      | x :: l0 =>
          let '(answers, l', cap') := fifo_cap_ops ops' l0 cap in
          (Dequeued true x :: answers, l', cap')
      end
  end.

(** Enqueues that may not allocate. *)
Definition enqueue_all (xs : list A) : list (op A) :=
  (fun x => Enqueue x false) <$> xs.

End Rest.

Arguments purge {A} junk qd.
Arguments q_destroy {A} junk qd.
Arguments q_clear {A} junk qd.
Arguments array_loop {A} junk n buf sz i j tmp.
Arguments genArray {A} junk malloc_ok qd.
Arguments q_toArray {A} junk malloc_ok qd len.
Arguments newQueue_alloc {A} junk q_ok qd_ok tmp_ok DEFAULT_QUEUE_CAPACITY capacity.
Arguments ArrayQueue {A} junk q_ok qd_ok tmp_ok DEFAULT_QUEUE_CAPACITY capacity.
Arguments Queue_create {A} junk q_ok qd_ok tmp_ok DEFAULT_QUEUE_CAPACITY.
Arguments q_create {A} junk q_ok qd_ok tmp_ok DEFAULT_QUEUE_CAPACITY.
Arguments fifo_cap_ops {A} junk ops l cap.
Arguments enqueue_all {A} xs.

(** A queue of capacity 3 whose ring has wrapped: it holds 3, 4, 5 with
    [out] at slot 2. *)
Definition wrapped_queue : QData Z :=
  snd (run_ops 0 [Enqueue 1 true; Enqueue 2 true; Enqueue 3 true; Dequeue; Dequeue;
                  Enqueue 4 true; Enqueue 5 true] (newQueue 0 50 3)).

(** Operations on it with an allocation that fails and one that succeeds. *)
Definition mixed_ops : list (op Z) :=
  [Enqueue 6 false; Dequeue; Enqueue 7 false; Enqueue 8 true; Dequeue].

End ArrayQueueRest.

(** ** Vocabulary for the rest of the scheduler *)

Module UspsRest.
Import CInt ArrayQueue Float32 Usps.
Import String.StringSyntax.

Local Open Scope string_scope.

(** Whether a signal is the timer's. *)
Definition is_alarm (s : async_signal) : bool :=
  match s with SIGALRM => true | SIGCHLD _ => false end.

(** Whether a signal is a [SIGCHLD] whose handler reaps a terminated
    child before [waitpid] stops returning pids. *)
Definition chld_reaps (s : async_signal) : bool :=
  match s with SIGALRM => false | SIGCHLD answers => reaps_terminated answers end.

(** A [fork] that returned a pid to the parent. *)
Definition valid_fork (l : launch_env) : bool :=
  negb ((fork_res l =? -1) || (fork_res l =? 0)).

(** The PCB that the launch loop builds for the pid [p]. *)
Definition pcb_of (p : Z) : ChildProcess := mkChild p 0 false false.

(** A dispatch whose wait ends and whose exit check finds the child gone. *)
Definition exits_at_once (e : dispatch_env) : bool :=
  wait_ends e && negb (wait_res e =? 0).

(** A dispatch whose wait ends and whose exit check finds the child
    still running. *)
Definition still_running (e : dispatch_env) : bool :=
  wait_ends e && (wait_res e =? 0).

(** The number of exit checks of the loop that found the child gone. *)
Definition exits_seen (env : list dispatch_env) : nat :=
  length (List.filter (fun e => negb (wait_res e =? 0)) env).

(** The same dispatch with an allocator that always fails. *)
Definition no_alloc (e : dispatch_env) : dispatch_env :=
  mkDispatch (polls e) (wait_res e) false.

(** Three commands that each end within their first quantum. *)
Definition three_commands : list launch_env :=
  [mkLaunch 101 true; mkLaunch 102 true; mkLaunch 103 true].

Definition three_exits : list dispatch_env := [exits 101; exits 102; exits 103].

(** The second [fork] fails. *)
Definition second_fork_fails : list launch_env :=
  [mkLaunch 101 true; mkLaunch (-1) true; mkLaunch 103 true].

(** The commands file cannot be opened. *)
Definition env_no_file : main_env :=
  mkEnv [OptQ 500] None (Some (-1)) true true two_commands [expires].

(** Launch with the answers of the two allocations whose results [main]
    uses unchecked: [queue_ok] for [queue = ArrayQueue(MAX_PROCESSES, free)]
    (line 94) and, with each command line, the answer of
    [malloc(sizeof(ChildProcess))] (line 159).  A NULL [child] is
    dereferenced by [child->pid = pid] (line 160), a NULL [queue] by
    [queue->enqueue(queue, child)] (line 164). *)
Fixpoint launch_loop_unchecked (queue_ok : bool) (lines : list (launch_env * bool))
    (st : state) : option status * state :=
  match lines with
  | [] => (None, st)
  | (l, child_ok) :: rest =>
      let p := fork_res l in
      let st := log (EFork p) st in
      if p =? -1 then
        (Some (Exited EXIT_FAILURE), log (EPutstr 2 "Error creating child process") st)
      else if p =? 0 then (Some InChild, st)
      else if negb child_ok then (Some Crashed, st)
      else if negb queue_ok then (Some Crashed, st)
      else
        let child := mkChild p 0 false false in
        let '(status, q) := q_enqueue None (launch_grow_ok l) (queue st) (Some child) in
        launch_loop_unchecked queue_ok rest (log (EEnqueue child status) (set_queue q st))
  end.

(** Launch, then schedule.  A NULL [queue] that launch has not touched is
    dereferenced by [queue->isEmpty(queue)] (line 170); while [queue] is
    NULL the field [queue] of the state stands for nothing. *)
Definition run_v3_unchecked (DEFAULT_QUEUE_CAPACITY QUANT_SECONDS : Z) (queue_ok : bool)
    (lines : list (launch_env * bool)) (env : list dispatch_env) (tr : list event)
  : status * state :=
  let st := initial_state DEFAULT_QUEUE_CAPACITY tr in
  match launch_loop_unchecked queue_ok lines st with
  | (Some s, st) => (s, st)
  | (None, st) =>
      if queue_ok
      then sched_loop QUANT_SECONDS (set_up_timer QUANT_SECONDS) env (log EClose st)
      else (Crashed, log EClose st)
  end.

(** Two command lines, the PCB of the second one not allocated. *)
Definition second_pcb_null : list (launch_env * bool) :=
  [(mkLaunch 101 true, true); (mkLaunch 102 true, false)].

(** The state at the head of the dispatch loop with one PCB launched. *)
Definition one_launched : state :=
  log EClose (snd (launch_loop [mkLaunch 101 true] (initial_state 50 []))).

End UspsRest.

(** ** The scheduler of [uspsv4.c] as a whole

    v4 is v3 with a table of the processes printed while a quantum runs.
    Quantum resolution, the opening of the commands file, the allocations
    and the timer are those of v3, line for line; launch also records the
    pids in [pid_list] and counts them in [numProcesses]; the dispatch
    loop waits in a monitoring loop instead of sleeping, and its reaping
    step is [reap_or_requeue_v4].

    The body of the monitoring loop (lines 200-266) hands string literals
    to [p1strcat] as destinations and reads [table[0..11]] out of a block
    of 8 pointers, and the set-up of the table writes [numProcesses]
    pointers into that block.  Where a run gets to such a point the model
    stops and says so, with [Beyond]; what it states about a run is stated
    of the run up to there.  As in v3, the allocations whose results [main]
    uses unchecked are taken to succeed. *)

Module UspsV4.
Import CInt ArrayQueue Float32 Usps.
Import String.StringSyntax.

Local Open Scope string_scope.

(** How far a run of v4 got. *)
Inductive outcome : Type :=
  | Returned (code : Z)    (* main returned *)
  | Forked                 (* fork returned 0: this copy goes on to execvp *)
  | Unfinished             (* the record of the environment ended first *)
  | Beyond (line : Z).     (* the run is at this line and is not followed further:
                              171 a write past [pid_list], 181 a write past [table],
                              193 a NULL PCB, 200 the body of the monitoring loop *)

(** The globals and the queue, with [pid_list] and [numProcesses]. *)
Record state_v4 : Type := mkV4 {
  v4_state : state;
  v4_pid_list : list Z;        (* pid_t pid_list[MAX_PROCESSES] *)
  v4_numProcesses : Z          (* long *)
}.

(** [alarm_handler] of v4 (lines 300-303): [timeRuning] is an [int]. *)
Definition alarm_handler_v4 (QUANT_SECONDS : Z) (st : state) : state :=
  set_timeLeft false (set_timeRuning (to_int (timeRuning st + QUANT_SECONDS)) st).

(** [sigchld_handler] of v4 (lines 305-316) has the text of v3's. *)
Definition handle_v4 (QUANT_SECONDS : Z) (s : async_signal) (st : state) : state :=
  match s with
  | SIGALRM => alarm_handler_v4 QUANT_SECONDS st
  | SIGCHLD answers => sigchld_handler answers st
  end.

Definition deliver_v4 (QUANT_SECONDS : Z) (sigs : list async_signal) (st : state) : state :=
  fold_left (fun st s => handle_v4 QUANT_SECONDS s st) sigs st.

(** The head of [while (childRunning && timeLeft) { ... }] (line 199),
    [sigs] being the signals handled since the flags were set.  [true]: the
    condition holds and the body is entered. *)
Definition wait_v4 (QUANT_SECONDS : Z) (sigs : list async_signal) (st : state)
  : bool * state :=
  let st := deliver_v4 QUANT_SECONDS sigs st in
  (childRunning st && timeLeft st, st).

(** The dispatch loop (lines 189-287).  Of [polls e] the first entry is
    used: the signals handled before the condition of the monitoring loop
    is first evaluated. *)
Fixpoint sched_loop_v4 (QUANT_SECONDS : Z) (timer : Z * Z) (env : list dispatch_env)
    (st : state) (pid_list : list Z) (numProcesses : Z) : outcome * state_v4 :=
  if q_isEmpty (queue st) then (Returned 0, mkV4 st pid_list numProcesses)
  else
    match env with
    | [] => (Unfinished, mkV4 st pid_list numProcesses)
    | e :: env' =>
        let '(_, child, q) := q_dequeue None (queue st) None in
        let st := log (EDequeue child) (set_queue q st) in
        match child with
        | None => (Beyond 193, mkV4 st pid_list numProcesses)
        | Some c =>
            let st := dispatch timer c st in
            match polls e with
            | [] => (Unfinished, mkV4 st pid_list numProcesses)
            | sigs :: _ =>
                let '(entered, st) := wait_v4 QUANT_SECONDS sigs st in
                if entered then (Beyond 200, mkV4 st pid_list numProcesses)
                else
                  let '(st, pid_list, numProcesses) :=
                    reap_or_requeue_v4 e c pid_list numProcesses st in
                  sched_loop_v4 QUANT_SECONDS timer env' st pid_list numProcesses
            end
        end
    end.

(** Launch (lines 135-174): as in v3, then
    [pid_list[numProcesses] = pid; numProcesses++;]. *)
Fixpoint launch_loop_v4 (lines : list launch_env) (st : state) (pid_list : list Z)
    (numProcesses : Z) : option outcome * state_v4 :=
  match lines with
  | [] => (None, mkV4 st pid_list numProcesses)
  | l :: rest =>
      let p := fork_res l in
      let st := log (EFork p) st in
      if p =? -1 then
        (Some (Returned EXIT_FAILURE),
         mkV4 (log (EPutstr 2 "Error creating child process") st) pid_list numProcesses)
      else if p =? 0 then (Some Forked, mkV4 st pid_list numProcesses)
      else
        let child := mkChild p 0 false false in
        let '(status, q) := q_enqueue None (launch_grow_ok l) (queue st) (Some child) in
        let st := log (EEnqueue child status) (set_queue q st) in
        if (0 <=? numProcesses) && (numProcesses <? MAX_PROCESSES) then
          launch_loop_v4 rest st (<[Z.to_nat numProcesses := p]> pid_list)
                         (to_long (numProcesses + 1))
        else (Some (Beyond 171), mkV4 st pid_list numProcesses)
  end.

(** Launch, the set-up of the table (lines 179-188:
    [table = malloc(8 * sizeof(char * ))] and one [table[i] = malloc(...)]
    for each [i < numProcesses]), then the dispatch loop.  [pid_list] is
    [pid_list0] at first, whatever the uninitialised array holds. *)
Definition run_v4 (DEFAULT_QUEUE_CAPACITY QUANT_SECONDS : Z) (lines : list launch_env)
    (env : list dispatch_env) (pid_list0 : list Z) (tr : list event)
  : outcome * state_v4 :=
  let st := initial_state DEFAULT_QUEUE_CAPACITY tr in
  match launch_loop_v4 lines st pid_list0 0 with
  | (Some o, s) => (o, s)
  | (None, s) =>
      let st := log EClose (v4_state s) in
      if 8 <? v4_numProcesses s
      then (Beyond 181, mkV4 st (v4_pid_list s) (v4_numProcesses s))
      else sched_loop_v4 QUANT_SECONDS (set_up_timer QUANT_SECONDS) env st
                         (v4_pid_list s) (v4_numProcesses s)
  end.

(** [main] of v4 from line 77 on, [QUANT_SECONDS] being settled. *)
Definition main_v4_with_quantum (DEFAULT_QUEUE_CAPACITY QUANT_SECONDS : Z) (env : main_env)
    (pid_list0 : list Z) : outcome * list event :=
  let fd := match file_open env with Some r => r | None => 0 end in
  let tr := match file_open env with Some r => [EOpen r] | None => [] end in
  if fd =? -1 then
    (Returned EXIT_FAILURE, tr ++ [EPutstr 2 "Error: opening commands file"])
  else if negb (arguments_ok env) then
    (Returned EXIT_FAILURE, tr ++ [EPutstr 2 "Error allocating space for arguments"])
  else if negb (line_ok env) then
    (Returned EXIT_FAILURE, tr ++ [EPutstr 2 "Error allocating space for line"])
  else
    let '(o, s) :=
      run_v4 DEFAULT_QUEUE_CAPACITY QUANT_SECONDS (lines env) (dispatches env) pid_list0 tr in
    (o, trace (v4_state s)).

(** [main] of v4. *)
Definition main_v4 (DEFAULT_QUEUE_CAPACITY : Z) (env : main_env) (pid_list0 : list Z)
  : outcome * list event :=
  match resolve_quantum (opts env) (quant_env env) with
  | inl msg => (Returned EXIT_FAILURE, [EPutstr 2 msg])
  | inr QUANT_SECONDS =>
      main_v4_with_quantum DEFAULT_QUEUE_CAPACITY QUANT_SECONDS env pid_list0
  end.

(** *** Sample environments *)

(** An uninitialised [pid_list] that happens to hold zeros. *)
Definition zeros : list Z := replicate 128 0.

(** Two command lines, the [fork] of the second failing. *)
Definition fork_fails_at_second : list launch_env :=
  [mkLaunch 101 true; mkLaunch (-1) true].

End UspsV4.

(** * Proofs *)

(** ** Machine integers inside their range *)

Module CIntFacts.
Import CInt.

Lemma to_int_small x : - 2 ^ 31 <= x <= INT_MAX -> to_int x = x.
Proof.
  unfold to_int, INT_MAX. intros H.
  rewrite Z.mod_small by lia. lia.
Qed.

Lemma to_long_small x : - 2 ^ 63 <= x <= LONG_MAX -> to_long x = x.
Proof.
  unfold to_long, LONG_MAX. intros H.
  rewrite Z.mod_small by lia. lia.
Qed.

Lemma to_size_t_small x : 0 <= x < 2 ^ 64 -> to_size_t x = x.
Proof. unfold to_size_t. intros H. apply Z.mod_small. lia. Qed.

Lemma INT_MAX_val : INT_MAX = 2147483647.
Proof. reflexivity. Qed.

Lemma LONG_MAX_val : LONG_MAX = 9223372036854775807.
Proof. reflexivity. Qed.

End CIntFacts.

(** ** The array queue is a FIFO sequence *)

Module ArrayQueueFacts.
Import CInt CIntFacts ArrayQueue.

Section Facts.

Context {A : Type} (junk : A).

Implicit Types (qd : QData A) (buf tmp : list A) (x : A).

Lemma next_int_mod sz i :
  0 < sz <= INT_MAX -> 0 <= i < sz -> next_int sz i = (i + 1) mod sz.
Proof.
  intros Hsz Hi. unfold next_int.
  rewrite (to_int_small (i + 1)) by (rewrite INT_MAX_val in *; lia).
  rewrite Z.rem_mod_nonneg by lia.
  pose proof (Z.mod_pos_bound (i + 1) sz ltac:(lia)).
  apply to_int_small. rewrite INT_MAX_val in *. lia.
Qed.

Lemma next_long_mod sz i :
  0 < sz <= INT_MAX -> 0 <= i < sz -> next_long sz i = (i + 1) mod sz.
Proof.
  intros Hsz Hi. unfold next_long.
  rewrite (to_long_small (i + 1)) by (rewrite INT_MAX_val, LONG_MAX_val in *; lia).
  rewrite Z.rem_mod_nonneg by lia.
  pose proof (Z.mod_pos_bound (i + 1) sz ltac:(lia)).
  apply to_long_small. rewrite INT_MAX_val, LONG_MAX_val in *. lia.
Qed.

Lemma mod_succ_bound sz i : 0 < sz -> 0 <= (i + 1) mod sz < sz.
Proof. intros. apply Z.mod_pos_bound. lia. Qed.

Lemma mod_shift_ne sz i d :
  0 <= i < sz -> 0 < d < sz -> (i + d) mod sz <> i.
Proof.
  intros Hi Hd.
  destruct (Z_lt_ge_dec (i + d) sz) as [Hlt | Hge].
  - rewrite Z.mod_small by lia. lia.
  - replace (i + d) with ((i + d - sz) + 1 * sz) by lia.
    rewrite Z.mod_add by lia. rewrite Z.mod_small by lia. lia.
Qed.

Lemma rd_wr_same buf i x :
  0 <= i < Z.of_nat (length buf) -> rd junk (wr buf i x) i = x.
Proof.
  intros Hi. unfold rd, wr.
  destruct (i <? 0) eqn:E; [lia |].
  rewrite list_lookup_insert_eq by lia. reflexivity.
Qed.

Lemma rd_wr_other buf i j x :
  0 <= i -> 0 <= j -> i <> j -> rd junk (wr buf j x) i = rd junk buf i.
Proof.
  intros Hi Hj Hne. unfold rd, wr.
  destruct (i <? 0) eqn:Ei; [lia |].
  destruct (j <? 0) eqn:Ej; [lia |].
  rewrite list_lookup_insert_ne by lia. reflexivity.
Qed.

Lemma length_wr buf i x : length (wr buf i x) = length buf.
Proof. unfold wr. destruct (i <? 0); [reflexivity | apply length_insert]. Qed.

Lemma length_gen_loop n buf sz i : length (gen_loop junk n buf sz i) = n.
Proof. revert i. induction n as [| n IH]; intros i; simpl; [| rewrite IH]; reflexivity. Qed.

Lemma gen_loop_snoc n buf sz i :
  0 < sz <= INT_MAX -> 0 <= i < sz ->
  gen_loop junk (S n) buf sz i =
  gen_loop junk n buf sz i ++ [rd junk buf ((i + Z.of_nat n) mod sz)].
Proof.
  intros Hsz. revert i. induction n as [| n IH]; intros i Hi.
  - simpl. rewrite Z.add_0_r, Z.mod_small by lia. reflexivity.
  - change (gen_loop junk (S (S n)) buf sz i)
      with (rd junk buf i :: gen_loop junk (S n) buf sz (next_int sz i)).
    rewrite next_int_mod by lia.
    rewrite IH by (apply mod_succ_bound; lia).
    simpl. rewrite next_int_mod by lia.
    rewrite Zplus_mod_idemp_l.
    replace (i + 1 + Z.of_nat n) with (i + Z.of_nat (S n)) by lia.
    reflexivity.
Qed.

Lemma gen_loop_wr_frame n buf sz i x :
  0 < sz <= INT_MAX -> 0 <= i < sz -> Z.of_nat n < sz ->
  gen_loop junk n (wr buf ((i + Z.of_nat n) mod sz) x) sz i = gen_loop junk n buf sz i.
Proof.
  intros Hsz. revert i. induction n as [| n IH]; intros i Hi Hn; [reflexivity |].
  simpl gen_loop. f_equal.
  - apply rd_wr_other; [lia | apply Z.mod_pos_bound; lia |].
    intros E. symmetry in E. revert E. apply mod_shift_ne; lia.
  - rewrite next_int_mod by lia.
    replace ((i + Z.of_nat (S n)) mod sz)
      with (((i + 1) mod sz + Z.of_nat n) mod sz).
    + apply IH; [apply mod_succ_bound; lia | lia].
    + rewrite Zplus_mod_idemp_l. f_equal. lia.
Qed.

Lemma gen_loop_take n buf sz i :
  0 < sz <= INT_MAX -> 0 <= i -> i + Z.of_nat n <= sz ->
  i + Z.of_nat n <= Z.of_nat (length buf) ->
  gen_loop junk n buf sz i = take n (drop (Z.to_nat i) buf).
Proof.
  intros Hsz. revert i. induction n as [| n IH]; intros i Hi Hn Hlen; [reflexivity |].
  simpl gen_loop.
  destruct (drop (Z.to_nat i) buf) as [| y rest] eqn:Hd.
  { apply (f_equal length) in Hd. rewrite length_drop in Hd. simpl in Hd. lia. }
  simpl. f_equal.
  - unfold rd. destruct (i <? 0) eqn:E; [lia |].
    rewrite <- (Nat.add_0_r (Z.to_nat i)), <- lookup_drop, Hd. reflexivity.
  - assert (Hrest : rest = drop (Z.to_nat (i + 1)) buf).
    { replace (Z.to_nat (i + 1)) with (S (Z.to_nat i)) by lia.
      change (S (Z.to_nat i)) with (1 + Z.to_nat i)%nat.
      rewrite Nat.add_comm, <- drop_drop, Hd. reflexivity. }
    destruct n as [| n'].
    + reflexivity.
    + rewrite next_int_mod by lia. rewrite Z.mod_small by lia.
      rewrite IH by lia. rewrite Hrest. reflexivity.
Qed.

Lemma copy_loop_spec n buf sz i pre m :
  0 < sz <= INT_MAX -> 0 <= i < sz -> (n <= m)%nat ->
  Z.of_nat (length pre) + Z.of_nat n <= INT_MAX ->
  copy_loop junk n buf sz i (Z.of_nat (length pre)) (pre ++ replicate m junk) =
  pre ++ gen_loop junk n buf sz i ++ replicate (m - n) junk.
Proof.
  intros Hsz. revert i pre m.
  induction n as [| n IH]; intros i pre m Hi Hnm Hlen.
  - simpl. rewrite Nat.sub_0_r. reflexivity.
  - destruct m as [| m]; [lia |].
    cbn [copy_loop gen_loop].
    rewrite next_long_mod, next_int_mod by lia.
    rewrite to_long_small by (rewrite INT_MAX_val, LONG_MAX_val in *; lia).
    assert (Hwr : wr (pre ++ replicate (S m) junk) (Z.of_nat (length pre)) (rd junk buf i)
                  = (pre ++ [rd junk buf i]) ++ replicate m junk).
    { unfold wr. destruct (Z.of_nat (length pre) <? 0) eqn:E; [lia |].
      rewrite Nat2Z.id.
      rewrite insert_app_r_alt by lia. rewrite Nat.sub_diag. simpl.
      rewrite <- app_assoc. reflexivity. }
    rewrite Hwr.
    replace (Z.of_nat (length pre) + 1) with (Z.of_nat (length (pre ++ [rd junk buf i])))
      by (rewrite length_app; simpl; lia).
    rewrite IH.
    + rewrite <- app_assoc. simpl. reflexivity.
    + apply mod_succ_bound; lia.
    + lia.
    + rewrite length_app. simpl. lia.
Qed.

Lemma length_contents qd : length (contents junk qd) = Z.to_nat (count qd).
Proof. apply length_gen_loop. Qed.

Lemma contents_empty qd : count qd = 0 -> contents junk qd = [].
Proof. intros H. unfold contents. rewrite H. reflexivity. Qed.

Lemma contents_nonempty qd :
  0 < count qd -> exists x l, contents junk qd = x :: l.
Proof.
  intros H. pose proof (length_contents qd) as Hl.
  destruct (contents junk qd) as [| x l]; [simpl in Hl; lia | eauto].
Qed.

(** Enqueue into a queue that still has room. *)
Lemma q_enqueue_room ok qd x :
  wf qd -> count qd < size qd ->
  exists qd', q_enqueue junk ok qd x = (true, qd') /\ wf qd' /\
    size qd' = size qd /\ contents junk qd' = contents junk qd ++ [x].
Proof.
  intros [Hsz Hc Ho Hi Hb] Hlt.
  unfold q_enqueue.
  destruct (count qd <? size qd) eqn:E; [| lia]. simpl.
  eexists. split; [reflexivity |].
  assert (Hin : 0 <= q_in qd < size qd) by (rewrite Hi; apply Z.mod_pos_bound; lia).
  assert (Hcnt : to_long (count qd + 1) = count qd + 1)
    by (apply to_long_small; rewrite INT_MAX_val, LONG_MAX_val in *; lia).
  split; [| split; [reflexivity |]].
  - constructor; simpl; rewrite ?Hcnt, ?length_wr; try lia.
    rewrite next_int_mod by lia. rewrite Hi, Zplus_mod_idemp_l. f_equal. lia.
  - unfold contents. simpl. rewrite Hcnt.
    replace (Z.to_nat (count qd + 1)) with (S (Z.to_nat (count qd))) by lia.
    rewrite gen_loop_snoc by lia.
    rewrite Z2Nat.id by lia. rewrite <- Hi.
    rewrite rd_wr_same by lia. f_equal.
    rewrite Hi.
    pose proof (gen_loop_wr_frame (Z.to_nat (count qd)) (buffer qd) (size qd) (q_out qd) x)
      as Hframe.
    rewrite Z2Nat.id in Hframe by lia. apply Hframe; lia.
Qed.

Lemma grown_wf qd :
  wf qd -> count qd = size qd -> size qd * 2 <= INT_MAX -> wf (grown junk qd).
Proof.
  intros [Hsz Hc Ho Hi Hb] Hfull Hdbl.
  constructor; simpl; try lia.
  - rewrite Z.mod_small; lia.
  - rewrite length_app, length_contents, length_replicate. lia.
Qed.

Lemma grown_contents qd :
  wf qd -> count qd = size qd -> size qd * 2 <= INT_MAX ->
  contents junk (grown junk qd) = contents junk qd.
Proof.
  intros [Hsz Hc Ho Hi Hb] Hfull Hdbl.
  unfold contents at 1. simpl.
  rewrite gen_loop_take; simpl; rewrite ?length_app, ?length_contents, ?length_replicate; try lia.
  rewrite drop_0, take_app_length'; [reflexivity |].
  symmetry. apply length_contents.
Qed.

(** Enqueue into a full queue: the buffer doubles and keeps the order. *)
Lemma q_enqueue_full qd x :
  wf qd -> count qd = size qd -> size qd * 2 <= INT_MAX ->
  exists qd', q_enqueue junk true qd x = (true, qd') /\ wf qd' /\
    size qd' = 2 * size qd /\ contents junk qd' = contents junk qd ++ [x].
Proof.
  intros Hwf Hfull Hdbl.
  destruct (q_enqueue_room false (grown junk qd) x) as (qd' & He & Hwf' & Hs & Hcont).
  { apply grown_wf; assumption. }
  { destruct Hwf. simpl. lia. }
  exists qd'. rewrite grown_contents in Hcont by assumption.
  split; [| split; [assumption | split; [simpl in Hs; lia | assumption]]].
  rewrite <- He. destruct Hwf as [Hsz Hc Ho Hi Hb].
  assert (Hslots : slots_of_bytes (to_size_t (to_size_t (to_long (2 * size qd)) * sizeof_ptr))
                   = (Z.to_nat (count qd) + Z.to_nat (size qd))%nat).
  { unfold slots_of_bytes, sizeof_ptr.
    rewrite to_long_small by (rewrite INT_MAX_val, LONG_MAX_val in *; lia).
    rewrite (to_size_t_small (2 * size qd)) by (rewrite INT_MAX_val in *; lia).
    rewrite to_size_t_small by (rewrite INT_MAX_val in *; lia).
    rewrite Z.div_mul by lia. lia. }
  pose proof (copy_loop_spec (Z.to_nat (count qd)) (buffer qd) (size qd) (q_out qd) []
                (Z.to_nat (count qd) + Z.to_nat (size qd))) as Hcopy.
  change (Z.of_nat (length (@nil A))) with 0 in Hcopy.
  change ([] ++ ?l) with l in Hcopy.
  replace (Z.to_nat (count qd) + Z.to_nat (size qd) - Z.to_nat (count qd))%nat
    with (Z.to_nat (size qd)) in Hcopy by lia.
  assert (Hstage :
    {| count := count qd;
       size := to_long (size qd * 2);
       q_in := to_int (count qd);
       q_out := to_int 0;
       buffer := copy_loop junk (Z.to_nat (count qd)) (buffer qd) (size qd) (q_out qd) 0
                   (replicate (slots_of_bytes
                      (to_size_t (to_size_t (to_long (2 * size qd)) * sizeof_ptr))) junk) |}
    = grown junk qd).
  { rewrite Hslots, Hcopy by (rewrite ?INT_MAX_val in *; lia).
    rewrite to_long_small by (rewrite INT_MAX_val, LONG_MAX_val in *; lia).
    rewrite !to_int_small by (rewrite INT_MAX_val in *; lia).
    reflexivity. }
  unfold q_enqueue at 1.
  destruct (count qd <? size qd) eqn:E; [lia |]. cbn [negb].
  rewrite Hstage.
  unfold q_enqueue.
  destruct (count (grown junk qd) <? size (grown junk qd)) eqn:E2; [reflexivity |].
  simpl in E2. lia.
Qed.

(** Enqueue on a full queue whose reallocation fails: nothing changes. *)
Lemma q_enqueue_full_nomem qd x :
  size qd <= count qd -> q_enqueue junk false qd x = (false, qd).
Proof.
  intros H. unfold q_enqueue.
  destruct (count qd <? size qd) eqn:E; [lia |]. reflexivity.
Qed.

(** Enqueue, whenever an allocation that is needed succeeds. *)
Lemma q_enqueue_spec qd x :
  wf qd -> count qd < 2 ^ 30 ->
  exists qd', q_enqueue junk true qd x = (true, qd') /\ wf qd' /\
    contents junk qd' = contents junk qd ++ [x] /\ count qd' = count qd + 1.
Proof.
  intros Hwf Hbound.
  assert (Hcount : forall qd', contents junk qd' = contents junk qd ++ [x] ->
                               wf qd' -> count qd' = count qd + 1).
  { intros qd' Hc Hwf'. apply (f_equal length) in Hc.
    rewrite length_app, !length_contents in Hc. simpl in Hc.
    destruct Hwf, Hwf'. lia. }
  destruct (Z_lt_ge_dec (count qd) (size qd)) as [Hlt | Hge].
  - destruct (q_enqueue_room true qd x Hwf Hlt) as (qd' & He & Hwf' & _ & Hc).
    exists qd'. auto.
  - destruct (q_enqueue_full qd x Hwf) as (qd' & He & Hwf' & _ & Hc).
    + destruct Hwf. lia.
    + destruct Hwf. rewrite INT_MAX_val. lia.
    + exists qd'. auto.
Qed.

(** Dequeue from a queue that holds something. *)
Lemma q_dequeue_spec qd e x l :
  wf qd -> contents junk qd = x :: l ->
  exists qd', q_dequeue junk qd e = (true, x, qd') /\ wf qd' /\
    contents junk qd' = l /\ size qd' = size qd.
Proof.
  intros [Hsz Hc Ho Hi Hb] Hcont.
  assert (Hpos : 0 < count qd).
  { apply (f_equal length) in Hcont. rewrite length_contents in Hcont. simpl in Hcont. lia. }
  unfold q_dequeue. destruct (0 <? count qd) eqn:E; [| lia].
  assert (Hcnt : to_long (count qd - 1) = count qd - 1)
    by (apply to_long_small; rewrite INT_MAX_val, LONG_MAX_val in *; lia).
  unfold contents in Hcont.
  replace (Z.to_nat (count qd)) with (S (Z.to_nat (count qd - 1))) in Hcont by lia.
  simpl in Hcont. injection Hcont as Hx Hl.
  eexists. split; [rewrite Hx; reflexivity |].
  split; [| split; [| reflexivity]].
  - constructor; simpl; rewrite ?Hcnt; try lia.
    + rewrite next_int_mod by lia. apply mod_succ_bound. lia.
    + rewrite next_int_mod by lia. rewrite Hi, Zplus_mod_idemp_l. f_equal. lia.
  - unfold contents. simpl. rewrite Hcnt. exact Hl.
Qed.

(** Dequeue and front on an empty queue. *)
Lemma q_dequeue_empty qd e :
  count qd = 0 -> q_dequeue junk qd e = (false, e, qd).
Proof. intros H. unfold q_dequeue. rewrite H. reflexivity. Qed.

Lemma q_front_empty qd e :
  count qd = 0 -> q_front junk qd e = (false, e).
Proof. intros H. unfold q_front. rewrite H. reflexivity. Qed.

Lemma q_isEmpty_contents qd :
  wf qd -> q_isEmpty qd = true <-> contents junk qd = [].
Proof.
  intros Hwf. unfold q_isEmpty. rewrite Z.eqb_eq. split.
  - apply contents_empty.
  - intros H. apply (f_equal length) in H. rewrite length_contents in H.
    simpl in H. destruct Hwf. lia.
Qed.

Lemma newQueue_wf d cap :
  0 < cap <= INT_MAX -> wf (newQueue junk d cap).
Proof.
  intros H. unfold newQueue.
  destruct (cap <=? 0) eqn:E; [lia |].
  constructor; simpl; try lia.
  - rewrite Z.mod_small; lia.
  - rewrite length_replicate. unfold slots_of_bytes, sizeof_ptr.
    rewrite to_size_t_small by (rewrite INT_MAX_val in *; lia).
    rewrite Z.div_mul by lia. lia.
Qed.

Lemma newQueue_contents d cap : contents junk (newQueue junk d cap) = [].
Proof. reflexivity. Qed.

(** Any one enqueue on a well-formed queue, whatever [malloc] answers. *)
Lemma q_enqueue_any ok qd x :
  wf qd -> count qd < 2 ^ 30 ->
  exists status qd', q_enqueue junk ok qd x = (status, qd') /\ wf qd' /\
    status = (count qd <? size qd) || ok /\
    contents junk qd' = (if status then contents junk qd ++ [x] else contents junk qd) /\
    size qd' = (if count qd <? size qd then size qd
                else if ok then size qd * 2 else size qd).
Proof.
  intros Hwf Hb.
  destruct (count qd <? size qd) eqn:E.
  - apply Z.ltb_lt in E.
    destruct (q_enqueue_room ok qd x Hwf E) as (qd' & He & Hwf' & Hs & Hc).
    exists true, qd'. auto.
  - apply Z.ltb_ge in E. destruct ok.
    + destruct (q_enqueue_full qd x Hwf) as (qd' & He & Hwf' & Hs & Hc).
      * destruct Hwf. lia.
      * destruct Hwf. rewrite INT_MAX_val. lia.
      * exists true, qd'. split; [exact He |]. split; [exact Hwf' |].
        split; [reflexivity |]. split; [exact Hc | lia].
    + exists false, qd. rewrite (q_enqueue_full_nomem qd x E). auto.
Qed.

Lemma count_contents qd : wf qd -> Z.of_nat (length (contents junk qd)) = count qd.
Proof. intros [_ Hc _ _ _]. rewrite length_contents. lia. Qed.

End Facts.

(** A client's operations on the array queue and on the FIFO sequence. *)
Lemma run_ops_fifo {A : Type} (junk : A) (ops : list (op A)) (qd : QData A) :
  wf qd ->
  forallb malloc_succeeds ops = true ->
  count qd + Z.of_nat (length ops) <= 2 ^ 30 ->
  fst (run_ops junk ops qd) = fst (fifo_ops junk ops (contents junk qd)) /\
  contents junk (snd (run_ops junk ops qd)) = snd (fifo_ops junk ops (contents junk qd)) /\
  wf (snd (run_ops junk ops qd)).
Proof.
  revert qd. induction ops as [| o ops IH]; intros qd Hwf Hok Hbound.
  - simpl. auto.
  - destruct o as [x ok |].
    + simpl in Hok. apply andb_true_iff in Hok as [-> Hok].
      destruct (q_enqueue_spec junk qd x Hwf) as (qd' & He & Hwf' & Hc & Hn).
      { simpl in Hbound. lia. }
      simpl. rewrite He.
      specialize (IH qd' Hwf' Hok). rewrite Hc in IH.
      destruct IH as (IH1 & IH2 & IH3). { simpl in Hbound. lia. }
      destruct (run_ops junk ops qd') as [answers qd''].
      destruct (fifo_ops junk ops (contents junk qd ++ [x])) as [answers' l'].
      simpl in *. subst. auto.
    + simpl in Hok.
      destruct (contents junk qd) as [| x l] eqn:Hcont.
      * assert (Hz : count qd = 0).
        { apply (f_equal length) in Hcont. rewrite length_contents in Hcont.
          simpl in Hcont. destruct Hwf. lia. }
        simpl. rewrite (q_dequeue_empty junk qd junk Hz).
        specialize (IH qd Hwf Hok). rewrite Hcont in IH.
        destruct IH as (IH1 & IH2 & IH3). { simpl in Hbound. lia. }
        destruct (run_ops junk ops qd) as [answers qd''].
        destruct (fifo_ops junk ops []) as [answers' l'].
        simpl in *. subst. auto.
      * destruct (q_dequeue_spec junk qd junk x l Hwf Hcont) as (qd' & Hd & Hwf' & Hc & _).
        assert (Hn : count qd' < count qd).
        { apply (f_equal length) in Hcont, Hc. rewrite length_contents in Hcont, Hc.
          simpl in Hcont. destruct Hwf, Hwf'. lia. }
        simpl. rewrite Hd.
        specialize (IH qd' Hwf' Hok). rewrite Hc in IH.
        destruct IH as (IH1 & IH2 & IH3). { simpl in Hbound. lia. }
        destruct (run_ops junk ops qd') as [answers qd''].
        destruct (fifo_ops junk ops l) as [answers' l'].
        simpl in *. subst. auto.
Qed.

(** C3.  The array queue is a FIFO without a fixed capacity: on every
    sequence of enqueues and dequeues it answers exactly as the unbounded
    FIFO sequence does (each dequeue returns the element enqueued earliest
    among those present, each enqueue succeeds and appends at the back),
    and an enqueue into a full queue doubles the buffer and keeps the order
    of the elements.  This holds whenever the reallocations succeed and the
    number of elements stays within the range of the [int] indices. *)
Theorem arrayqueue_unbounded_fifo {A : Type} (junk : A) (ops : list (op A)) (qd : QData A) :
  wf qd ->
  forallb malloc_succeeds ops = true ->
  count qd + Z.of_nat (length ops) <= 2 ^ 30 ->
  (fst (run_ops junk ops qd) = fst (fifo_ops junk ops (contents junk qd)) /\
   contents junk (snd (run_ops junk ops qd)) = snd (fifo_ops junk ops (contents junk qd))) /\
  (forall x, count qd = size qd -> count qd < 2 ^ 30 ->
     exists qd', q_enqueue junk true qd x = (true, qd') /\
       size qd' = 2 * size qd /\ contents junk qd' = contents junk qd ++ [x]).
Proof.
  intros Hwf Hok Hbound. split.
  - destruct (run_ops_fifo junk ops qd Hwf Hok Hbound) as (H1 & H2 & _). auto.
  - intros x Hfull Hlt.
    destruct (q_enqueue_full junk qd x Hwf Hfull) as (qd' & He & _ & Hs & Hc).
    + rewrite INT_MAX_val. lia.
    + eauto.
Qed.

Lemma arrayqueue_unbounded_fifo_witness :
  fst (run_ops 0 sample_ops (newQueue 0 50 2)) =
    [Enqueued true; Enqueued true; Enqueued true; Dequeued true 1; Enqueued true;
     Dequeued true 2; Dequeued true 3; Dequeued true 4; Dequeued false 0] /\
  exists qd', q_enqueue 0 true full_queue 3 = (true, qd') /\
    size qd' = 2 * size full_queue /\ contents 0 qd' = contents 0 full_queue ++ [3].
Proof.
  split.
  - destruct (arrayqueue_unbounded_fifo 0 sample_ops (newQueue 0 50 2)) as [[H _] _].
    + constructor; vm_compute; try reflexivity; split; congruence.
    + reflexivity.
    + vm_compute. congruence.
    + rewrite H. reflexivity.
  - destruct (arrayqueue_unbounded_fifo 0 [] full_queue) as [_ H].
    + constructor; vm_compute; try reflexivity; split; congruence.
    + reflexivity.
    + vm_compute. congruence.
    + apply H; [reflexivity | vm_compute; reflexivity].
Defined.

(** C10.  On an empty queue [q_dequeue] and [q_front] return false, leave
    every field of the queue as it was, and leave the out-parameter as the
    caller passed it. *)
Theorem empty_queue_untouched {A : Type} (junk : A) (qd : QData A) (element : A) :
  count qd = 0 ->
  q_dequeue junk qd element = (false, element, qd) /\
  q_front junk qd element = (false, element).
Proof.
  intros H. split.
  - apply q_dequeue_empty. exact H.
  - apply q_front_empty. exact H.
Qed.

Lemma empty_queue_untouched_witness :
  q_dequeue 0 (newQueue 0 50 2) 7 = (false, 7, newQueue 0 50 2) /\
  q_front 0 (newQueue 0 50 2) 7 = (false, 7).
Proof. apply (empty_queue_untouched 0 (newQueue 0 50 2) 7). reflexivity. Defined.

End ArrayQueueFacts.

(** ** Rounding to single precision *)

Module Float32Facts.
Import Float32.

Lemma f32_round_small x : Z.log2 (Z.abs x) < 24 -> f32_round x = x.
Proof.
  intros H. unfold f32_round.
  destruct (Z.log2 (Z.abs x) <? 24) eqn:E; [reflexivity | lia].
Qed.

(** Rounding never goes below a representable number that is below. *)
Lemma f32_round_ge t x : f32_round t = t -> 0 <= t <= x -> t <= f32_round x.
Proof.
  intros Ht Htx.
  destruct (Z_lt_ge_dec (Z.log2 (Z.abs x)) 24) as [Hsmall | Hbig].
  { rewrite f32_round_small by exact Hsmall. lia. }
  assert (Hx : 0 < x).
  { destruct (Z_le_gt_dec x 0) as [Hle | Hgt]; [| lia].
    assert (x = 0) by lia. subst x. simpl in Hbig. lia. }
  rewrite Z.abs_eq in Hbig by lia.
  unfold f32_round. rewrite (Z.abs_eq x) by lia.
  destruct (Z.log2 x <? 24) eqn:E; [lia |].
  set (e := Z.log2 x) in *. set (ulp := 2 ^ (e - 23)).
  assert (Hulp : 0 < ulp) by (apply Z.pow_pos_nonneg; lia).
  assert (Hpow : 2 ^ e = 2 ^ 23 * ulp).
  { unfold ulp. rewrite <- Z.pow_add_r by lia. f_equal. lia. }
  destruct (Z.log2_spec x Hx) as [Hlo Hhi]. fold e in Hlo, Hhi.
  assert (Hq : t <= x / ulp * ulp).
  { destruct (Z_lt_ge_dec t (2 ^ e)) as [Hlt | Hge].
    - assert (2 ^ 23 <= x / ulp) by (apply Z.div_le_lower_bound; lia).
      nia.
    - assert (Het : Z.log2 t = e).
      { apply Z.log2_unique; [lia |]. split; [lia |].
        replace (Z.succ e) with (e + 1) in Hhi by lia.
        replace (e + 1) with (Z.succ e) by lia. lia. }
      unfold f32_round in Ht. rewrite (Z.abs_eq t) in Ht by lia.
      rewrite Het in Ht. fold e in Ht. rewrite E in Ht. fold ulp in Ht.
      assert (Ht0 : 0 < t) by lia.
      rewrite (Z.sgn_pos t Ht0), Z.mul_1_l in Ht.
      set (k := if 2 * (t mod ulp) <? ulp then t / ulp
                else if ulp <? 2 * (t mod ulp) then t / ulp + 1
                else if Z.even (t / ulp) then t / ulp else t / ulp + 1) in Ht.
      assert (Hk : k <= x / ulp).
      { apply Z.div_le_lower_bound; [lia |]. rewrite Z.mul_comm, Ht. lia. }
      rewrite <- Ht. nia. }
  rewrite (Z.sgn_pos x Hx), Z.mul_1_l.
  pose proof (Z.mod_pos_bound x ulp Hulp) as Hmod.
  assert (Hdiv : 0 <= x / ulp) by (apply Z.div_pos; lia).
  destruct (2 * (x mod ulp) <? ulp); [lia |].
  destruct (ulp <? 2 * (x mod ulp)); [nia |].
  destruct (Z.even (x / ulp)); nia.
Qed.

End Float32Facts.

(** ** The scheduler *)

Module UspsFacts.
Import CInt CIntFacts ArrayQueue ArrayQueueFacts Float32 Float32Facts Usps UspsV4.
Import String.StringSyntax.
Local Open Scope string_scope.

(** *** Quantum resolution *)

Lemma getopt_loop_override opts Q0 :
  getopt_loop opts Q0 =
  match supplied_override opts with Some v => v | None => Q0 end.
Proof.
  unfold getopt_loop, supplied_override.
  assert (H : forall acc Q,
    Q = match acc with Some v => v | None => Q0 end ->
    fold_left (fun Q o => match o with OptQ v => v | OptOther => Q end) opts Q =
    match fold_left (fun acc o => match o with OptQ v => Some v | OptOther => acc end)
            opts acc with
    | Some v => v | None => Q0 end).
  { induction opts as [| o opts IH]; intros acc Q HQ; simpl.
    - exact HQ.
    - destruct o; apply IH; [reflexivity | exact HQ]. }
  apply (H None). reflexivity.
Qed.

Lemma resolve_quantum_candidate opts fallback :
  resolve_quantum opts fallback =
  if candidate_quantum opts fallback <? 0
  then inl (match fallback with
            | Some _ => "Error: No quantum given"
            | None => "Error: No environment variable set or passed"
            end)
  else inr (candidate_quantum opts fallback).
Proof.
  unfold resolve_quantum, candidate_quantum.
  destruct fallback as [v |].
  - destruct (getopt_loop opts (-1) <? 0) eqn:E.
    + reflexivity.
    + rewrite E. reflexivity.
  - destruct (getopt_loop opts (-1) <? 0) eqn:E; [reflexivity |].
    rewrite E. reflexivity.
Qed.

Lemma main_v3_config_error d env msg :
  resolve_quantum (opts env) (quant_env env) = inl msg ->
  main_v3 d env = (Exited EXIT_FAILURE, [EPutstr 2 msg]).
Proof. intros H. unfold main_v3. rewrite H. reflexivity. Qed.

Lemma main_v3_resolved d env Q :
  resolve_quantum (opts env) (quant_env env) = inr Q ->
  main_v3 d env = main_v3_with_quantum d Q env.
Proof. intros H. unfold main_v3, main_v3_with_quantum. rewrite H. reflexivity. Qed.

Lemma main_v4_config_error d env pl msg :
  resolve_quantum (opts env) (quant_env env) = inl msg ->
  main_v4 d env pl = (Returned EXIT_FAILURE, [EPutstr 2 msg]).
Proof. intros H. unfold main_v4. rewrite H. reflexivity. Qed.

Lemma main_v4_resolved d env pl Q :
  resolve_quantum (opts env) (quant_env env) = inr Q ->
  main_v4 d env pl = main_v4_with_quantum d Q env pl.
Proof. intros H. unfold main_v4. rewrite H. reflexivity. Qed.

(** Without an override, a fallback that [p1atoi] reads as a negative
    number is turned down by the check of line 71: [main] prints "No
    quantum given" and returns [EXIT_FAILURE] without a [fork].  (Against
    C1 as stated.) *)
Lemma negative_fallback_is_rejected :
  supplied_override (opts env_negative_fallback) = None /\
  quant_env env_negative_fallback = Some (-7) /\
  resolve_quantum (opts env_negative_fallback) (quant_env env_negative_fallback) =
    inl "Error: No quantum given" /\
  main_v3 50 env_negative_fallback =
    (Exited EXIT_FAILURE, [EPutstr 2 "Error: No quantum given"]) /\
  main_v4 50 env_negative_fallback zeros =
    (Returned EXIT_FAILURE, [EPutstr 2 "Error: No quantum given"]).
Proof. vm_compute. auto 6. Qed.

(** C1, amended.  Precedence of the quantum sources, in v3 and in v4: an
    override [-q v] with [0 <= v] is the quantum [main] goes on with,
    whatever the fallback [USPS_QUANTUM_MSEC] holds; without an override a
    fallback read as [v] with [0 <= v] is that quantum; without an override
    a fallback read as a negative number is a configuration error; and with
    neither an override nor a fallback [main] prints a configuration error
    too.  On a configuration error [main] returns [EXIT_FAILURE] having
    done nothing else, in particular no [fork]. *)
Theorem quantum_precedence d env pid_list0 :
  (forall v, supplied_override (opts env) = Some v -> 0 <= v ->
     resolve_quantum (opts env) (quant_env env) = inr v /\
     main_v3 d env = main_v3_with_quantum d v env /\
     main_v4 d env pid_list0 = main_v4_with_quantum d v env pid_list0) /\
  (forall v, supplied_override (opts env) = None -> quant_env env = Some v -> 0 <= v ->
     resolve_quantum (opts env) (quant_env env) = inr v /\
     main_v3 d env = main_v3_with_quantum d v env /\
     main_v4 d env pid_list0 = main_v4_with_quantum d v env pid_list0) /\
  (forall v, supplied_override (opts env) = None -> quant_env env = Some v -> v < 0 ->
     main_v3 d env = (Exited EXIT_FAILURE, [EPutstr 2 "Error: No quantum given"]) /\
     main_v4 d env pid_list0 =
       (Returned EXIT_FAILURE, [EPutstr 2 "Error: No quantum given"]) /\
     launched (snd (main_v3 d env)) = [] /\ launched (snd (main_v4 d env pid_list0)) = []) /\
  (supplied_override (opts env) = None -> quant_env env = None ->
     main_v3 d env =
       (Exited EXIT_FAILURE, [EPutstr 2 "Error: No environment variable set or passed"]) /\
     main_v4 d env pid_list0 =
       (Returned EXIT_FAILURE, [EPutstr 2 "Error: No environment variable set or passed"]) /\
     launched (snd (main_v3 d env)) = [] /\ launched (snd (main_v4 d env pid_list0)) = []).
Proof.
  pose proof (resolve_quantum_candidate (opts env) (quant_env env)) as Hr.
  unfold candidate_quantum in Hr. rewrite getopt_loop_override in Hr.
  split; [| split; [| split]].
  - intros v Ho Hv. rewrite Ho in Hr.
    assert (H : resolve_quantum (opts env) (quant_env env) = inr v).
    { rewrite Hr. destruct (v <? 0) eqn:E; [lia |].
      destruct (quant_env env); rewrite E; reflexivity. }
    split; [exact H |].
    split; [apply main_v3_resolved | apply main_v4_resolved]; exact H.
  - intros v Ho He Hv. rewrite Ho, He in Hr. simpl in Hr.
    assert (H : resolve_quantum (opts env) (quant_env env) = inr v).
    { rewrite He, Hr. destruct (v <? 0) eqn:E; [lia | reflexivity]. }
    split; [exact H |].
    split; [apply main_v3_resolved | apply main_v4_resolved]; exact H.
  - intros v Ho He Hv. rewrite Ho, He in Hr. simpl in Hr.
    assert (H : resolve_quantum (opts env) (quant_env env) = inl "Error: No quantum given").
    { rewrite He, Hr. destruct (v <? 0) eqn:E; [reflexivity | lia]. }
    rewrite (main_v3_config_error d env _ H), (main_v4_config_error d env pid_list0 _ H).
    auto.
  - intros Ho He. rewrite Ho, He in Hr. simpl in Hr.
    assert (H : resolve_quantum (opts env) (quant_env env) =
                inl "Error: No environment variable set or passed").
    { rewrite He. exact Hr. }
    rewrite (main_v3_config_error d env _ H), (main_v4_config_error d env pid_list0 _ H).
    auto.
Qed.

Lemma quantum_precedence_witness :
  main_v3 50 env_two_by_three = main_v3_with_quantum 50 500 env_two_by_three /\
  main_v4 50 env_fallback zeros = main_v4_with_quantum 50 200 env_fallback zeros /\
  main_v3 50 env_negative_fallback =
    (Exited EXIT_FAILURE, [EPutstr 2 "Error: No quantum given"]) /\
  main_v4 50 env_neither zeros =
    (Returned EXIT_FAILURE, [EPutstr 2 "Error: No environment variable set or passed"]).
Proof.
  pose proof (quantum_precedence 50 env_two_by_three zeros) as (H1 & _).
  pose proof (quantum_precedence 50 env_fallback zeros) as (_ & H2 & _).
  pose proof (quantum_precedence 50 env_negative_fallback zeros) as (_ & _ & H3 & _).
  pose proof (quantum_precedence 50 env_neither zeros) as (_ & _ & _ & H4).
  assert (P500 : 0 <= 500) by lia.
  assert (P200 : 0 <= 200) by lia.
  assert (N7 : -7 < 0) by lia.
  destruct (H1 500 eq_refl P500) as (_ & G1 & _).
  destruct (H2 200 eq_refl eq_refl P200) as (_ & _ & G2).
  destruct (H3 (-7) eq_refl eq_refl N7) as (G3 & _).
  destruct (H4 eq_refl eq_refl) as (_ & G4 & _).
  split; [exact G1 |]. split; [exact G2 |]. split; [exact G3 | exact G4].
Defined.

(** A quantum of 0 passes the configuration check: the run forks and
    schedules.  (Against C2 as stated.) *)
Lemma zero_quantum_is_accepted :
  candidate_quantum (opts env_zero) (quant_env env_zero) = 0 /\
  fst (main_v3 50 env_zero) = Exited 0 /\
  dispatched (snd (main_v3 50 env_zero)) = [101] /\
  launched (snd (main_v3 50 env_zero)) = [101].
Proof. vm_compute. auto. Qed.

(** C2, amended.  Whenever the value left in [QUANT_SECONDS] by the
    override and the fallback is negative, [main] prints a configuration
    error and returns [EXIT_FAILURE] with nothing else done: no [fork]
    occurs on that path.  Any other value, 0 included, is accepted as the
    quantum. *)
Theorem negative_quantum_rejected d env :
  (candidate_quantum (opts env) (quant_env env) < 0 ->
   exists msg, main_v3 d env = (Exited EXIT_FAILURE, [EPutstr 2 msg]) /\
               launched (snd (main_v3 d env)) = []) /\
  (0 <= candidate_quantum (opts env) (quant_env env) ->
   resolve_quantum (opts env) (quant_env env) =
     inr (candidate_quantum (opts env) (quant_env env))).
Proof.
  split; intros H.
  - pose proof (resolve_quantum_candidate (opts env) (quant_env env)) as Hr.
    destruct (candidate_quantum (opts env) (quant_env env) <? 0) eqn:E; [| lia].
    eexists. rewrite (main_v3_config_error d env _ Hr). split; reflexivity.
  - rewrite resolve_quantum_candidate.
    destruct (candidate_quantum (opts env) (quant_env env) <? 0) eqn:E; [lia | reflexivity].
Qed.

Lemma negative_quantum_rejected_witness :
  (exists msg, main_v3 50 env_neither = (Exited EXIT_FAILURE, [EPutstr 2 msg]) /\
               launched (snd (main_v3 50 env_neither)) = []) /\
  resolve_quantum (opts env_zero) (quant_env env_zero) = inr 0.
Proof.
  split.
  - apply (negative_quantum_rejected 50 env_neither). vm_compute. reflexivity.
  - apply (negative_quantum_rejected 50 env_zero). vm_compute. congruence.
Defined.

(** *** The timer *)

(** C4 at a quantum of 1000 ms: the timer is loaded with 1 s and
    1000000 us, which is 2 s in all and not a valid [timeval]. *)
Theorem timer_of_one_second_quantum :
  set_up_timer 1000 = (1, 1000000) /\
  fst (set_up_timer 1000) * 1000000 + snd (set_up_timer 1000) <> 1000 * 1000 /\
  ~ snd (set_up_timer 1000) < 1000000.
Proof. vm_compute. repeat split; congruence. Qed.

(** Below one second the timer is the quantum. *)
Lemma timer_below_one_second q :
  0 < q < 1000 ->
  fst (set_up_timer q) * 1000000 + snd (set_up_timer q) = q * 1000 /\
  snd (set_up_timer q) < 1000000.
Proof.
  intros H. unfold set_up_timer. simpl fst. simpl snd.
  rewrite Z.quot_small by lia.
  rewrite to_int_small by (rewrite INT_MAX_val; lia). lia.
Qed.

(** *** Run time accounting *)

(** C5 on the code.  In v3 with a quantum of 500 ms a preempted PCB goes
    back to the queue with the [totalCPUTime] it had, and with 1500 ms it
    gains 1; in v4 the PCB is enqueued as it was dequeued. *)
Theorem preemption_cpu_time :
  contents None (queue (snd (run_v3 50 500 [mkLaunch 101 true] [expires] []))) =
    [Some (mkChild 101 0 false false)] /\
  add_quantum 1500 (mkChild 101 0 false false) = mkChild 101 1 false false /\
  (let '(st, _, _) :=
     reap_or_requeue_v4 expires (mkChild 101 0 false false) [101] 1 (initial_state 50 [])
   in contents None (queue st)) = [Some (mkChild 101 0 false false)].
Proof. vm_compute. auto. Qed.

(** What does hold of the accounting of v3: the run time of a PCB never
    goes down. *)
Lemma add_quantum_monotone Q c :
  0 <= Q -> 0 <= totalCPUTime c -> f32_round (totalCPUTime c) = totalCPUTime c ->
  pid (add_quantum Q c) = pid c /\
  totalCPUTime c <= totalCPUTime (add_quantum Q c).
Proof.
  intros HQ Ht Hrep. split; [reflexivity |].
  unfold add_quantum, f32_add, f32_of_int. simpl.
  assert (H0 : 0 <= f32_round (Z.quot Q 1000)).
  { apply f32_round_ge; [reflexivity |]. split; [lia |]. apply Z.quot_pos; lia. }
  apply f32_round_ge; [exact Hrep | lia].
Qed.

(** *** Traces *)

Lemma dispatched_app tr1 tr2 : dispatched (tr1 ++ tr2) = dispatched tr1 ++ dispatched tr2.
Proof. apply flat_map_app. Qed.

Lemma freed_app tr1 tr2 : freed (tr1 ++ tr2) = freed tr1 ++ freed tr2.
Proof. apply flat_map_app. Qed.

Lemma launched_app tr1 tr2 : launched (tr1 ++ tr2) = launched tr1 ++ launched tr2.
Proof. apply flat_map_app. Qed.

Lemma sleeps_app tr1 tr2 : sleeps (tr1 ++ tr2) = (sleeps tr1 + sleeps tr2)%nat.
Proof. unfold sleeps. rewrite flat_map_app, length_app. reflexivity. Qed.

Lemma sleeps_log n st : sleeps (trace (log (ESleep n) st)) = S (sleeps (trace st)).
Proof. cbn [log trace]. rewrite sleeps_app. unfold sleeps at 2. simpl. lia. Qed.

Lemma resumed_app tr1 tr2 :
  resumed (tr1 ++ tr2) = fold_left resumed_step tr2 (resumed tr1).
Proof. unfold resumed. apply fold_left_app. Qed.

Lemma resumed_snoc tr e : resumed (tr ++ [e]) = resumed_step (resumed tr) e.
Proof. rewrite resumed_app. reflexivity. Qed.

(** Events of the wait leave the derived views alone. *)
Lemma wait_events_views evs :
  forallb wait_event evs = true ->
  dispatched evs = [] /\ freed evs = [] /\ launched evs = [] /\
  forall r, fold_left resumed_step evs r = r.
Proof.
  induction evs as [| e evs IH]; intros H; simpl in *.
  - auto.
  - apply andb_true_iff in H as [He H]. destruct (IH H) as (H1 & H2 & H3 & H4).
    destruct e; try discriminate He; simpl;
      unfold dispatched, freed, launched in *; simpl; auto.
Qed.

(** *** The signal handlers and the wait *)

Lemma extends_refl kind st : extends kind st st.
Proof.
  constructor; auto. exists []. rewrite app_nil_r. auto.
Qed.

Lemma extends_trans kind st1 st2 st3 :
  extends kind st1 st2 -> extends kind st2 st3 -> extends kind st1 st3.
Proof.
  intros [Hq1 (e1 & Ht1 & Hk1) Hc1 Hl1] [Hq2 (e2 & Ht2 & Hk2) Hc2 Hl2].
  constructor; [congruence | | auto | auto].
  exists (e1 ++ e2). rewrite Ht2, Ht1, <- app_assoc. split; [reflexivity |].
  rewrite forallb_app, Hk1, Hk2. reflexivity.
Qed.

Lemma extends_log kind e st : kind e = true -> extends kind st (log e st).
Proof.
  intros H. constructor; simpl; auto.
  exists [e]. simpl. rewrite H. auto.
Qed.

Lemma extends_weaken (k1 k2 : event -> bool) st st' :
  (forall e, k1 e = true -> k2 e = true) -> extends k1 st st' -> extends k2 st st'.
Proof.
  intros Hk [Hq (evs & Ht & Hf) Hc Hl]. constructor; auto.
  exists evs. split; [exact Ht |].
  rewrite forallb_forall in *. auto.
Qed.

Lemma sigchld_handler_extends answers st :
  extends handler_event st (sigchld_handler answers st).
Proof.
  revert st. induction answers as [| [p ws] rest IH]; intros st; simpl.
  - apply extends_refl.
  - destruct (0 <? p).
    + destruct (WIFEXITED ws || WIFSIGNALED ws).
      * eapply extends_trans; [| apply IH].
        constructor; simpl; auto; [| discriminate].
        exists [EWaitpid (-1) p]. auto.
      * eapply extends_trans; [| apply IH].
        eapply extends_trans; apply extends_log; reflexivity.
    + apply extends_log. reflexivity.
Qed.

Lemma alarm_handler_extends Q st : extends handler_event st (alarm_handler Q st).
Proof.
  constructor; simpl; auto; [| discriminate].
  exists []. rewrite app_nil_r. auto.
Qed.

Lemma handle_extends Q s st : extends handler_event st (handle Q s st).
Proof.
  destruct s; [apply alarm_handler_extends | apply sigchld_handler_extends].
Qed.

Lemma deliver_extends Q sigs st : extends handler_event st (deliver Q sigs st).
Proof.
  revert st. induction sigs as [| s sigs IH]; intros st; simpl.
  - apply extends_refl.
  - eapply extends_trans; [apply handle_extends | apply IH].
Qed.

Lemma sigchld_handler_reaps answers st :
  reaps_terminated answers = true ->
  childRunning (sigchld_handler answers st) = false.
Proof.
  revert st. induction answers as [| [p ws] rest IH]; intros st H; simpl in *.
  - discriminate.
  - destruct (0 <? p); [| discriminate]. simpl in H.
    destruct (WIFEXITED ws || WIFSIGNALED ws); simpl in H.
    + destruct (childRunning (sigchld_handler rest (set_childRunning false (log (EWaitpid (-1) p) st))))
        eqn:E; [| reflexivity].
      apply (ext_childRunning _ _ _ (sigchld_handler_extends rest _)) in E.
      discriminate E.
    + apply IH. exact H.
Qed.

Lemma deliver_drops Q sigs st :
  existsb drops sigs = true ->
  childRunning (deliver Q sigs st) && timeLeft (deliver Q sigs st) = false.
Proof.
  revert st. induction sigs as [| s sigs IH]; intros st H; simpl in *.
  - discriminate.
  - apply orb_true_iff in H as [H | H].
    + pose proof (deliver_extends Q sigs (handle Q s st)) as [_ _ Hc Hl].
      change (fold_left (fun st s => handle Q s st) sigs (handle Q s st))
        with (deliver Q sigs (handle Q s st)).
      destruct s; simpl in H.
      * apply andb_false_iff. right. apply not_true_is_false. intros E.
        apply Hl in E. discriminate E.
      * apply andb_false_iff. left. apply not_true_is_false. intros E.
        apply Hc in E. simpl in E. rewrite sigchld_handler_reaps in E by exact H.
        discriminate E.
    + apply IH. exact H.
Qed.

Lemma wait_event_of_handler e : handler_event e = true -> wait_event e = true.
Proof. intros H. unfold wait_event. rewrite H. reflexivity. Qed.

Lemma wait_loop_extends Q polls st st' :
  wait_loop Q polls st = Some st' ->
  extends wait_event st st' /\
  childRunning st' && timeLeft st' = false /\
  (sleeps (trace st') < sleeps (trace st) + length polls)%nat.
Proof.
  revert st. induction polls as [| sigs rest IH]; intros st H; simpl in H.
  - discriminate.
  - pose proof (deliver_extends Q sigs st) as Hd.
    assert (Hs : sleeps (trace (deliver Q sigs st)) = sleeps (trace st)).
    { destruct Hd as [_ (evs & Ht & Hk) _ _]. rewrite Ht, sleeps_app.
      assert (Hz : sleeps evs = 0%nat).
      { clear Ht. induction evs as [| e evs IHe]; [reflexivity |].
        simpl in Hk. apply andb_true_iff in Hk as [He Hk].
        destruct e; try discriminate He; apply (IHe Hk). }
      lia. }
    apply (extends_weaken _ wait_event) in Hd; [| apply wait_event_of_handler].
    destruct (childRunning (deliver Q sigs st) && timeLeft (deliver Q sigs st)) eqn:E.
    + destruct (IH _ H) as (Hext & Hflags & Hsl).
      split; [| split; [exact Hflags |]].
      * eapply extends_trans; [exact Hd |].
        eapply extends_trans; [| exact Hext].
        apply extends_log. reflexivity.
      * rewrite sleeps_log in Hsl. cbn [length]. lia.
    + injection H as <-. split; [exact Hd | split; [exact E |]]. cbn [length]. lia.
Qed.

Lemma wait_loop_ends Q e st :
  wait_ends e = true -> exists st', wait_loop Q (polls e) st = Some st'.
Proof.
  unfold wait_ends. generalize (polls e) as polls. intros polls. revert st.
  induction polls as [| sigs rest IH]; intros st H; simpl in *.
  - discriminate.
  - destruct (childRunning (deliver Q sigs st) && timeLeft (deliver Q sigs st)) eqn:E.
    + apply orb_true_iff in H as [H | H].
      * rewrite deliver_drops in E by exact H. discriminate E.
      * apply IH. exact H.
    + eauto.
Qed.

Lemma wait_loop_replicate Q k st :
  childRunning st = true -> timeLeft st = true ->
  exists st', wait_loop Q (replicate k [] ++ [[SIGALRM]]) st = Some st' /\
              sleeps (trace st') = (sleeps (trace st) + k)%nat.
Proof.
  revert st. induction k as [| k IH]; intros st Hc Hl; simpl.
  - rewrite Hc. simpl. eexists. split; [reflexivity |]. simpl. lia.
  - rewrite Hc, Hl. simpl.
    destruct (IH (log (ESleep 1) st) Hc Hl) as (st' & Hw & Hs).
    exists st'. split; [exact Hw |].
    rewrite Hs, sleeps_log. lia.
Qed.

(** One quantum of v3 in which [sleep(1)] is called twice: the flags are
    evaluated three times.  (Against C9 as stated.) *)
Lemma quantum_wait_sleeps_twice :
  dispatched (snd (main_v3 50 env_polls_twice)) = [101] /\
  sleeps (snd (main_v3 50 env_polls_twice)) = 2%nat.
Proof. vm_compute. auto. Qed.

(** C9, amended.  While waiting out a quantum the scheduler of v3
    evaluates the two flags [childRunning] and [timeLeft] again and again,
    calling [sleep(1)] after every evaluation that finds both set.  It
    leaves the loop, with one of the flags cleared and the queue untouched,
    once a [SIGALRM] or a [SIGCHLD] whose handler reaps a terminated child
    has been handled; and the number of calls of [sleep] within one quantum
    has no bound. *)
Theorem wait_is_sleep_and_recheck :
  (forall Q e st,
     wait_ends e = true ->
     exists st', wait_loop Q (polls e) st = Some st' /\
       childRunning st' && timeLeft st' = false /\
       queue st' = queue st /\
       (sleeps (trace st') < sleeps (trace st) + length (polls e))%nat) /\
  (forall Q k st,
     childRunning st = true -> timeLeft st = true ->
     exists st', wait_loop Q (replicate k [] ++ [[SIGALRM]]) st = Some st' /\
       sleeps (trace st') = (sleeps (trace st) + k)%nat).
Proof.
  split.
  - intros Q e st H.
    destruct (wait_loop_ends Q e st H) as (st' & Hw).
    destruct (wait_loop_extends _ _ _ _ Hw) as ([Hq _ _ _] & Hf & Hs).
    eauto.
  - apply wait_loop_replicate.
Qed.

Lemma wait_is_sleep_and_recheck_witness :
  (exists st',
     wait_loop 500 (polls polls_twice)
       (dispatch (0, 500000) (mkChild 101 0 false false) (initial_state 50 [])) = Some st' /\
     childRunning st' && timeLeft st' = false) /\
  (exists st',
     wait_loop 500 (replicate 3 [] ++ [[SIGALRM]])
       (dispatch (0, 500000) (mkChild 101 0 false false) (initial_state 50 [])) = Some st' /\
     sleeps (trace st') = 3%nat).
Proof.
  destruct wait_is_sleep_and_recheck as [H1 H2]. split.
  - destruct (H1 500 polls_twice
                (dispatch (0, 500000) (mkChild 101 0 false false) (initial_state 50 [])))
      as (st' & Hw & Hf & _).
    + reflexivity.
    + exists st'. auto.
  - destruct (H2 500 3%nat
                (dispatch (0, 500000) (mkChild 101 0 false false) (initial_state 50 [])))
      as (st' & Hw & Hs).
    + reflexivity.
    + reflexivity.
    + exists st'. split; [exact Hw | exact Hs].
Defined.

(** *** One turn of the dispatch loop *)

Lemma holds_dequeue st c cs :
  holds st (c :: cs) ->
  exists q, q_dequeue None (queue st) None = (true, Some c, q) /\ wf q /\
            contents None q = (Some <$> cs) /\ count q < size q.
Proof.
  intros [Hwf Hc].
  destruct (q_dequeue_spec None (queue st) None (Some c) (fmap (M:=list) Some cs) Hwf Hc)
    as (q & Hd & Hwf' & Hc' & Hs).
  exists q. split; [exact Hd |]. split; [exact Hwf' |]. split; [exact Hc' |].
  apply (f_equal length) in Hc, Hc'. rewrite length_contents in Hc, Hc'.
  rewrite fmap_cons in Hc. cbn [length] in Hc.
  rewrite length_fmap in Hc, Hc'.
  destruct Hwf, Hwf'. lia.
Qed.

Lemma holds_empty st : holds st [] -> q_isEmpty (queue st) = true.
Proof. intros [Hwf Hc]. apply (q_isEmpty_contents None); assumption. Qed.

Lemma holds_nonempty st c cs : holds st (c :: cs) -> q_isEmpty (queue st) = false.
Proof.
  intros [Hwf Hc]. apply not_true_is_false. intros H.
  apply (q_isEmpty_contents None) in H; [| exact Hwf]. rewrite H in Hc. discriminate Hc.
Qed.

Lemma sched_loop_empty Q t env st :
  holds st [] -> sched_loop Q t env st = (Exited 0, st).
Proof. intros H. destruct env; simpl; rewrite (holds_empty st H); reflexivity. Qed.

Lemma sched_loop_stalled Q t st c cs :
  holds st (c :: cs) -> sched_loop Q t [] st = (Running, st).
Proof. intros H. simpl. rewrite (holds_nonempty st c cs H). reflexivity. Qed.

Lemma after_dequeue_eq st c cs :
  holds st (c :: cs) ->
  exists q, after_dequeue st = log (EDequeue (Some c)) (set_queue q st) /\ wf q /\
            contents None q = (Some <$> cs) /\ count q < size q.
Proof.
  intros H. destruct (holds_dequeue st c cs H) as (q & Hd & Hq).
  exists q. split; [| exact Hq]. unfold after_dequeue. rewrite Hd. reflexivity.
Qed.

Lemma sched_loop_turn Q t e env st c cs :
  holds st (c :: cs) ->
  sched_loop Q t (e :: env) st =
  match wait_loop Q (polls e) (dispatch t c (after_dequeue st)) with
  | None => (Running, dispatch t c (after_dequeue st))
  | Some st3 => sched_loop Q t env (reap_or_requeue Q e c st3)
  end.
Proof.
  intros H. destruct (holds_dequeue st c cs H) as (q & Hd & _).
  cbn [sched_loop]. rewrite (holds_nonempty st c cs H).
  unfold after_dequeue. rewrite Hd. reflexivity.
Qed.

Lemma stalled_shape t st c cs :
  holds st (c :: cs) ->
  trace (dispatch t c (after_dequeue st)) =
    trace st ++ [EDequeue (Some c); EKill (pid c) SIGCONT; ESetitimer (fst t) (snd t)] /\
  holds (dispatch t c (after_dequeue st)) cs /\
  childRunning (dispatch t c (after_dequeue st)) = true /\
  timeLeft (dispatch t c (after_dequeue st)) = true.
Proof.
  intros H. destruct (after_dequeue_eq st c cs H) as (q & -> & Hwf & Hc & _).
  unfold dispatch, holds. simpl. rewrite <- !app_assoc. simpl. auto.
Qed.

Lemma turn_shape Q t e st c cs st3 :
  holds st (c :: cs) ->
  wait_loop Q (polls e) (dispatch t c (after_dequeue st)) = Some st3 ->
  exists wevs, forallb wait_event wevs = true /\
    trace (reap_or_requeue Q e c st3) = trace st ++ turn_events Q t e c wevs /\
    holds (reap_or_requeue Q e c st3) (turn_ready Q e c cs).
Proof.
  intros H Hw.
  destruct (stalled_shape t st c cs H) as (Htr & _).
  destruct (after_dequeue_eq st c cs H) as (q & Hq & Hwf & Hc & Hroom).
  destruct (wait_loop_extends _ _ _ _ Hw) as ([Hqueue (wevs & Ht3 & Hk) _ _] & _ & _).
  assert (Hq3 : queue st3 = q) by (rewrite Hqueue, Hq; reflexivity).
  exists wevs. split; [exact Hk |].
  unfold reap_or_requeue, turn_events, turn_ready.
  destruct (wait_res e =? 0) eqn:E.
  - cbn [queue log].
    destruct (q_enqueue_room None (grow_ok e) (queue st3) (Some (add_quantum Q c)))
      as (q' & He & Hwf' & _ & Hc'); [rewrite Hq3; assumption .. |].
    rewrite He. unfold holds. cbn [queue trace log set_queue].
    rewrite Ht3, Htr, Hc', Hq3, Hc, fmap_app, <- !app_assoc. simpl. auto.
  - unfold holds. cbn [queue trace log].
    rewrite Ht3, Htr, Hq3, <- !app_assoc. simpl. auto.
Qed.

(** *** Dispatch order *)

Lemma dispatched_turn Q t e c wevs :
  forallb wait_event wevs = true ->
  dispatched (turn_events Q t e c wevs) = [pid c].
Proof.
  intros H. destruct (wait_events_views wevs H) as (Hd & _).
  unfold turn_events. rewrite !dispatched_app, Hd.
  destruct (wait_res e =? 0); reflexivity.
Qed.

Lemma sched_loop_fifo Q t env st cs :
  holds st cs ->
  forallb wait_ends env = true ->
  dispatched (trace (snd (sched_loop Q t env st))) =
  dispatched (trace st) ++ fifo_dispatch (pid <$> cs) (wait_res <$> env).
Proof.
  revert st cs. induction env as [| e env IH]; intros st cs H Hends.
  - destruct cs as [| c cs].
    + rewrite (sched_loop_empty _ _ _ _ H). simpl. rewrite app_nil_r. reflexivity.
    + rewrite (sched_loop_stalled _ _ _ _ _ H). simpl. rewrite app_nil_r. reflexivity.
  - destruct cs as [| c cs].
    + rewrite (sched_loop_empty _ _ _ _ H). simpl. rewrite app_nil_r. reflexivity.
    + simpl in Hends. apply andb_true_iff in Hends as [He Hends].
      rewrite (sched_loop_turn _ _ _ _ _ _ _ H).
      destruct (wait_loop_ends Q e (dispatch t c (after_dequeue st)) He) as (st3 & Hw).
      rewrite Hw.
      destruct (turn_shape Q t e st c cs st3 H Hw) as (wevs & Hk & Htr & Hh).
      rewrite (IH _ _ Hh Hends), Htr, dispatched_app, dispatched_turn by exact Hk.
      rewrite <- app_assoc. f_equal. rewrite !fmap_cons. cbn [fifo_dispatch app].
      f_equal. unfold turn_ready.
      destruct (wait_res e =? 0); [| reflexivity].
      rewrite fmap_app. reflexivity.
Qed.

Lemma fifo_dispatch_nil_checks ready : fifo_dispatch ready [] = [].
Proof. reflexivity. Qed.

Lemma fifo_dispatch_nil_ready checks : fifo_dispatch [] checks = [].
Proof. destruct checks; reflexivity. Qed.

(** Serving the front part [a] of the queue is one round over [a]. *)
Lemma fifo_dispatch_round a b checks :
  fifo_dispatch (a ++ b) checks =
  fst (fst (rr_round a checks)) ++
  fifo_dispatch (b ++ snd (fst (rr_round a checks))) (snd (rr_round a checks)).
Proof.
  revert b checks. induction a as [| p a IH]; intros b checks.
  - destruct checks; simpl; rewrite ?app_nil_r; reflexivity.
  - destruct checks as [| r checks].
    + reflexivity.
    + cbn [app fifo_dispatch rr_round].
      destruct (rr_round a checks) as [[d s] rest] eqn:E.
      destruct (r =? 0); cbn [fst snd app]; f_equal.
      * rewrite <- app_assoc, IH, E. cbn [fst snd].
        rewrite <- app_assoc. reflexivity.
      * rewrite IH, E. reflexivity.
Qed.

Lemma rr_round_rest ready checks :
  (length (snd (rr_round ready checks)) <= length checks)%nat /\
  (ready <> [] -> checks <> [] ->
   (length (snd (rr_round ready checks)) < length checks)%nat).
Proof.
  revert checks. induction ready as [| p ready IH]; intros checks.
  - destruct checks; simpl; split; try lia; congruence.
  - destruct checks as [| r checks]; [simpl; split; [lia | congruence] |].
    cbn [rr_round]. destruct (IH checks) as [Hle _].
    destruct (rr_round ready checks) as [[d s] rest]. simpl in *. split; lia.
Qed.

Lemma rr_rounds_nil_ready n checks : rr_rounds n [] checks = [].
Proof.
  revert checks. induction n as [| n IH]; intros checks; [reflexivity |].
  cbn [rr_rounds]. destruct checks; simpl; apply IH.
Qed.

Lemma rr_rounds_nil_checks n ready : rr_rounds n ready [] = [].
Proof.
  revert ready. induction n as [| n IH]; intros ready; [reflexivity |].
  cbn [rr_rounds]. destruct ready; simpl; [apply rr_rounds_nil_ready | apply IH].
Qed.

(** The queue discipline is round robin. *)
Lemma fifo_dispatch_rounds n ready checks :
  (length checks <= n)%nat ->
  fifo_dispatch ready checks = rr_rounds n ready checks.
Proof.
  revert ready checks. induction n as [| n IH]; intros ready checks Hn.
  - destruct checks; [reflexivity | simpl in Hn; lia].
  - cbn [rr_rounds].
    pose proof (fifo_dispatch_round ready [] checks) as Hr.
    rewrite app_nil_r in Hr. rewrite Hr.
    destruct (rr_round_rest ready checks) as [Hle Hlt].
    destruct (rr_round ready checks) as [[d s] rest] eqn:E. cbn [fst snd app] in *.
    f_equal.
    destruct ready as [| p ready].
    + simpl in E. injection E as <- <- <-.
      rewrite fifo_dispatch_nil_ready, rr_rounds_nil_ready. reflexivity.
    + destruct checks as [| r checks].
      * simpl in E. injection E as <- <- <-.
        rewrite fifo_dispatch_nil_ready, rr_rounds_nil_ready. reflexivity.
      * apply IH. assert (length rest < length (r :: checks))%nat by (apply Hlt; congruence).
        lia.
Qed.

Lemma fifo_dispatch_round_robin ready checks :
  fifo_dispatch ready checks = round_robin ready checks.
Proof. apply fifo_dispatch_rounds. lia. Qed.

(** A round serves the ready processes once each, in order, as far as
    the record of exit checks goes; the next round is drawn from them, in
    the same order. *)
Lemma rr_round_spec ready checks :
  fst (fst (rr_round ready checks)) = take (length checks) ready /\
  sublist (snd (fst (rr_round ready checks))) (fst (fst (rr_round ready checks))) /\
  snd (rr_round ready checks) = drop (length ready) checks.
Proof.
  revert checks. induction ready as [| p ready IH]; intros checks.
  - destruct checks; simpl; repeat split; constructor.
  - destruct checks as [| r checks].
    + simpl. repeat split. constructor.
    + cbn [rr_round]. destruct (IH checks) as (Hd & Hs & Hr).
      destruct (rr_round ready checks) as [[d s] rest]. cbn [fst snd] in *.
      cbn [length take drop]. rewrite Hd, Hr. split; [reflexivity |]. split; [| reflexivity].
      rewrite <- Hd. destruct (r =? 0); constructor; exact Hs.
Qed.

(** C6.  Round-robin fairness of the dispatch loop.  Started with the
    PCBs [cs] in the ready queue, the loop sends [SIGCONT] to the processes
    in the order of the rounds: each round grants one quantum to every
    process still unfinished, once and in queue order, and the processes
    found running by their exit check make up the next round, again in
    order.  So no process gets a second quantum while another unfinished
    one of the same round has had none.  For two processes that need three
    quanta each the order is A, B, A, B, A, B. *)
Theorem round_robin_fairness Q t env st cs :
  holds st cs ->
  forallb wait_ends env = true ->
  dispatched (trace (snd (sched_loop Q t env st))) =
    dispatched (trace st) ++ round_robin (pid <$> cs) (wait_res <$> env) /\
  (forall ready checks,
     fst (fst (rr_round ready checks)) = take (length checks) ready /\
     sublist (snd (fst (rr_round ready checks))) (fst (fst (rr_round ready checks)))) /\
  dispatched (snd (main_v3 50 env_two_by_three)) = [101; 102; 101; 102; 101; 102].
Proof.
  intros H Hends. split; [| split].
  - rewrite <- fifo_dispatch_round_robin. apply sched_loop_fifo; assumption.
  - intros ready checks. destruct (rr_round_spec ready checks) as (Hd & Hs & _). auto.
  - vm_compute. reflexivity.
Qed.

(** *** The discipline of the trace *)

Lemma disciplined_resumed tr : disciplined tr -> (length (resumed tr) <= 1)%nat.
Proof.
  intros H. destruct H as [| tr e _ [Hlen _]].
  - simpl. lia.
  - exact Hlen.
Qed.

Lemma disciplined_split tr :
  disciplined tr -> forall tr1 e tr2, tr = tr1 ++ e :: tr2 -> step_ok tr1 e.
Proof.
  induction 1 as [| tr e' Hd IH Hstep]; intros tr1 e tr2 Heq.
  - destruct tr1; discriminate Heq.
  - destruct (decide (tr2 = [])) as [-> | Hne].
    + apply app_inj_tail in Heq as [-> ->]. exact Hstep.
    + destruct (exists_last Hne) as (tr2' & x & ->).
      change (tr1 ++ e :: tr2' ++ [x]) with (tr1 ++ (e :: tr2') ++ [x]) in Heq.
      rewrite app_assoc in Heq. apply app_inj_tail in Heq as [-> _].
      apply (IH tr1 e tr2'). reflexivity.
Qed.

Lemma disciplined_prefix tr :
  disciplined tr -> forall k, (length (resumed (take k tr)) <= 1)%nat.
Proof.
  induction 1 as [| tr e Hd IH Hstep]; intros k.
  - rewrite take_nil. simpl. lia.
  - destruct (le_lt_dec k (length tr)) as [Hle | Hgt].
    + rewrite take_app_le by exact Hle. apply IH.
    + rewrite take_ge by (rewrite length_app; simpl; lia). apply Hstep.
Qed.

Lemma disciplined_freed tr : disciplined tr -> NoDup (freed tr).
Proof.
  induction 1 as [| tr e Hd IH [_ Hstep]].
  - constructor.
  - rewrite freed_app. destruct e; simpl; rewrite ?app_nil_r; try exact IH.
    destruct Hstep as [Hstep _].
    apply NoDup_app. split; [exact IH |]. split.
    + intros x Hx Hx'. apply list_elem_of_singleton in Hx'. subst x. contradiction.
    + apply NoDup_singleton.
Qed.

Lemma neutral_of_wait_event e : wait_event e = true -> neutral e = true.
Proof.
  unfold wait_event. destruct e; simpl; intros H;
    rewrite ?orb_false_r in H; solve [exact H | reflexivity | discriminate H].
Qed.

Lemma view_neutral tr r f l e :
  view tr r f l -> neutral e = true -> view (tr ++ [e]) r f l.
Proof.
  intros [Hd Hr Hf Hl] He.
  assert (Hstep : resumed (tr ++ [e]) = r).
  { rewrite resumed_snoc, Hr. destruct e; try discriminate He; reflexivity. }
  constructor.
  - constructor; [exact Hd |]. split.
    + rewrite Hstep, <- Hr. apply disciplined_resumed. exact Hd.
    + destruct e; try discriminate He; auto.
      simpl in He. apply Z.eqb_eq in He. intros Hne. contradiction.
  - exact Hstep.
  - rewrite freed_app, Hf. destruct e; try discriminate He; apply app_nil_r.
  - rewrite launched_app, Hl. destruct e; try discriminate He; apply app_nil_r.
Qed.

Lemma view_neutrals tr r f l evs :
  view tr r f l -> forallb neutral evs = true -> view (tr ++ evs) r f l.
Proof.
  revert tr. induction evs as [| e evs IH]; intros tr Hv Hn.
  - rewrite app_nil_r. exact Hv.
  - simpl in Hn. apply andb_true_iff in Hn as [He Hn].
    change (tr ++ e :: evs) with (tr ++ [e] ++ evs). rewrite app_assoc.
    apply IH; [| exact Hn]. apply view_neutral; assumption.
Qed.

Lemma view_fork tr f l p :
  view tr [] f l -> view (tr ++ [EFork p]) [] f (l ++ launched [EFork p]).
Proof.
  intros [Hd Hr Hf Hl].
  assert (Hstep : resumed (tr ++ [EFork p]) = []) by (rewrite resumed_snoc, Hr; reflexivity).
  constructor.
  - constructor; [exact Hd |]. split; [rewrite Hstep; simpl; lia | exact I].
  - exact Hstep.
  - rewrite freed_app, Hf. apply app_nil_r.
  - rewrite launched_app, Hl. reflexivity.
Qed.

Lemma view_cont tr f l p :
  view tr [] f l -> view (tr ++ [EKill p SIGCONT]) [p] f l.
Proof.
  intros [Hd Hr Hf Hl].
  assert (Hstep : resumed (tr ++ [EKill p SIGCONT]) = [p])
    by (rewrite resumed_snoc, Hr; reflexivity).
  constructor.
  - constructor; [exact Hd |]. split; [rewrite Hstep; simpl; lia | exact I].
  - exact Hstep.
  - rewrite freed_app, Hf. apply app_nil_r.
  - rewrite launched_app, Hl. apply app_nil_r.
Qed.

Lemma view_check tr f l p res :
  view tr [p] f l -> view (tr ++ [EWaitpid p res]) [p] f l.
Proof.
  intros [Hd Hr Hf Hl].
  assert (Hstep : resumed (tr ++ [EWaitpid p res]) = [p])
    by (rewrite resumed_snoc, Hr; reflexivity).
  constructor.
  - constructor; [exact Hd |]. split; [rewrite Hstep; simpl; lia | intros _; exact Hr].
  - exact Hstep.
  - rewrite freed_app, Hf. apply app_nil_r.
  - rewrite launched_app, Hl. apply app_nil_r.
Qed.

Lemma remove_pid_self p : remove_pid p [p] = [].
Proof. unfold remove_pid. simpl. rewrite Z.eqb_refl. reflexivity. Qed.

Lemma view_stop tr f l p :
  view tr [p] f l -> view (tr ++ [EKill p SIGSTOP]) [] f l.
Proof.
  intros [Hd Hr Hf Hl].
  assert (Hstep : resumed (tr ++ [EKill p SIGSTOP]) = [])
    by (rewrite resumed_snoc, Hr; apply remove_pid_self).
  constructor.
  - constructor; [exact Hd |]. split; [rewrite Hstep; simpl; lia | exact I].
  - exact Hstep.
  - rewrite freed_app, Hf. apply app_nil_r.
  - rewrite launched_app, Hl. apply app_nil_r.
Qed.

Lemma view_enqueue tr f l c ok :
  view tr [] f l -> pid c ∉ f -> view (tr ++ [EEnqueue c ok]) [] f l.
Proof.
  intros [Hd Hr Hf Hl] Hc.
  assert (Hstep : resumed (tr ++ [EEnqueue c ok]) = [])
    by (rewrite resumed_snoc, Hr; reflexivity).
  constructor.
  - constructor; [exact Hd |]. split; [rewrite Hstep; simpl; lia | rewrite Hf; exact Hc].
  - exact Hstep.
  - rewrite freed_app, Hf. apply app_nil_r.
  - rewrite launched_app, Hl. apply app_nil_r.
Qed.

Lemma view_free tr f l p res :
  view (tr ++ [EWaitpid p res]) [p] f l -> res <> 0 -> p ∉ f ->
  view ((tr ++ [EWaitpid p res]) ++ [EFree p]) [] (f ++ [p]) l.
Proof.
  intros [Hd Hr Hf Hl] Hres Hp.
  assert (Hstep : resumed ((tr ++ [EWaitpid p res]) ++ [EFree p]) = [])
    by (rewrite resumed_snoc, Hr; apply remove_pid_self).
  constructor.
  - constructor; [exact Hd |]. split; [rewrite Hstep; simpl; lia |].
    rewrite Hf. split; [exact Hp | eauto].
  - exact Hstep.
  - rewrite freed_app, Hf. reflexivity.
  - rewrite launched_app, Hl. apply app_nil_r.
Qed.

Lemma lost_app tr1 tr2 : lost (tr1 ++ tr2) = lost tr1 ++ lost tr2.
Proof. apply flat_map_app. Qed.

Lemma reaped_app tr1 tr2 : reaped (tr1 ++ tr2) = reaped tr1 ++ reaped tr2.
Proof. apply flat_map_app. Qed.

Lemma lost_neutral e : neutral e = true -> lost [e] = [].
Proof. destruct e; try discriminate; reflexivity. Qed.

Lemma lost_neutrals evs : forallb neutral evs = true -> lost evs = [].
Proof.
  induction evs as [| e evs IH]; intros H; [reflexivity |].
  simpl in H. apply andb_true_iff in H as [He H].
  change (e :: evs) with ([e] ++ evs). rewrite lost_app, (lost_neutral e He), (IH H).
  reflexivity.
Qed.

Lemma neutrals_of_wait_events wevs :
  forallb wait_event wevs = true -> forallb neutral wevs = true.
Proof.
  rewrite !forallb_forall. intros H x Hx. apply neutral_of_wait_event. auto.
Qed.

Lemma lost_turn t e c c' wevs :
  forallb wait_event wevs = true -> lost (turn_events_of t e c c' wevs) = [].
Proof.
  intros H. unfold turn_events_of.
  rewrite !lost_app, (lost_neutrals wevs (neutrals_of_wait_events wevs H)).
  destruct (wait_res e =? 0); reflexivity.
Qed.

(** The trace of one turn. *)
Lemma view_turn_of t e c c' wevs tr f l :
  view tr [] f l -> pid c ∉ f -> pid c' = pid c -> forallb wait_event wevs = true ->
  view (tr ++ turn_events_of t e c c' wevs) []
       (if wait_res e =? 0 then f else f ++ [pid c]) l.
Proof.
  intros Hv Hc Hpid Hw. unfold turn_events_of.
  pose proof (neutrals_of_wait_events wevs Hw) as Hn.
  assert (H1 : view ((tr ++ [EDequeue (Some c); EKill (pid c) SIGCONT;
                             ESetitimer (fst t) (snd t)]) ++ wevs) [pid c] f l).
  { apply view_neutrals; [| exact Hn].
    change [EDequeue (Some c); EKill (pid c) SIGCONT; ESetitimer (fst t) (snd t)]
      with ([EDequeue (Some c)] ++ [EKill (pid c) SIGCONT] ++ [ESetitimer (fst t) (snd t)]).
    rewrite !app_assoc.
    apply view_neutral; [| reflexivity]. apply view_cont.
    apply view_neutral; [exact Hv | reflexivity]. }
  apply (view_check _ _ _ _ (wait_res e)) in H1.
  destruct (wait_res e =? 0) eqn:E.
  - apply view_stop in H1.
    apply (view_enqueue _ _ _ c' true) in H1; [| rewrite Hpid; exact Hc].
    rewrite <- !app_assoc in H1. exact H1.
  - apply view_free in H1; [| apply Z.eqb_neq; exact E | exact Hc].
    rewrite <- !app_assoc in H1. exact H1.
Qed.

(** *** The invariant of a run *)

Lemma run_inv_view st cs :
  run_inv st cs ->
  view (trace st) (resumed (trace st)) (freed (trace st)) (launched (trace st)).
Proof. intros H. constructor; auto. apply H. Qed.

Lemma ready_pids_holds st cs : holds st cs -> ready_pids st = (pid <$> cs).
Proof.
  intros [_ Hc]. unfold ready_pids. rewrite Hc. clear Hc.
  induction cs as [| c cs IH]; [reflexivity |].
  rewrite !fmap_cons. simpl. rewrite IH. reflexivity.
Qed.

Lemma elem_of_snoc (p x : Z) (l : list Z) : p ∈ l ++ [x] <-> p ∈ l \/ p = x.
Proof. rewrite elem_of_app, list_elem_of_singleton. reflexivity. Qed.

(** One turn of either version keeps the invariant. *)
Lemma turn_inv_of t e st c c' cs st4 wevs :
  run_inv st (c :: cs) -> resumed (trace st) = [] ->
  forallb wait_event wevs = true ->
  pid c' = pid c ->
  trace st4 = trace st ++ turn_events_of t e c c' wevs ->
  holds st4 (turn_ready_of e c' cs) ->
  run_inv st4 (turn_ready_of e c' cs) /\ resumed (trace st4) = [] /\
  launched (trace st4) = launched (trace st) /\ lost (trace st4) = lost (trace st).
Proof.
  intros Hinv Hidle Hw Hpid Htr Hh.
  pose proof (run_inv_view _ _ Hinv) as Hv. rewrite Hidle in Hv.
  destruct Hinv as [_ Hnd _ Hready _ Hcover Hknown].
  rewrite Hidle in Hready, Hcover, Hknown.
  rewrite fmap_cons in Hnd, Hready, Hcover, Hknown.
  apply NoDup_cons in Hnd as [Hc Hnd].
  assert (Hcf : pid c ∉ freed (trace st)).
  { apply Hready. apply elem_of_cons. auto. }
  pose proof (view_turn_of t e c c' wevs _ _ _ Hv Hcf Hpid Hw) as [Hd' Hr' Hf' Hl'].
  rewrite <- Htr in Hd', Hr', Hf', Hl'.
  assert (Hlost : lost (trace st4) = lost (trace st)).
  { rewrite Htr, lost_app, lost_turn by exact Hw. apply app_nil_r. }
  assert (Hpids : pid <$> turn_ready_of e c' cs =
                  if wait_res e =? 0 then (pid <$> cs) ++ [pid c] else pid <$> cs).
  { unfold turn_ready_of. destruct (wait_res e =? 0); [| reflexivity].
    rewrite fmap_app, <- Hpid. reflexivity. }
  split; [| split; [exact Hr' | split; [exact Hl' | exact Hlost]]].
  constructor.
  - exact Hh.
  - rewrite Hpids. destruct (wait_res e =? 0); [| exact Hnd].
    apply NoDup_app. split; [exact Hnd |]. split.
    + intros x Hx Hx'. apply list_elem_of_singleton in Hx'. subst x. contradiction.
    + apply NoDup_singleton.
  - exact Hd'.
  - rewrite Hpids, Hr', Hf'. intros p Hp. split; [apply not_elem_of_nil |].
    destruct (wait_res e =? 0).
    + apply Hready. apply elem_of_snoc in Hp as [Hp | ->]; apply elem_of_cons; auto.
    + intros Hf. apply elem_of_snoc in Hf as [Hf | ->]; [| contradiction].
      revert Hf. apply Hready. apply elem_of_cons. auto.
  - rewrite Hr'. intros p Hp. apply elem_of_nil in Hp. contradiction.
  - rewrite Hpids, Hr', Hf', Hl', Hlost. intros p Hp.
    destruct (Hcover p Hp) as [Hq | [Hq | [Hq | Hq]]].
    + apply elem_of_cons in Hq as [-> | Hq]; destruct (wait_res e =? 0).
      * left. apply elem_of_snoc. auto.
      * right. right. left. apply elem_of_snoc. auto.
      * left. apply elem_of_snoc. auto.
      * left. exact Hq.
    + apply elem_of_nil in Hq. contradiction.
    + right. right. left. destruct (wait_res e =? 0); [exact Hq |].
      apply elem_of_snoc. auto.
    + right. right. right. exact Hq.
  - rewrite Hpids, Hr', Hf', Hl'. intros p Hp. apply Hknown.
    destruct Hp as [Hq | [Hq | Hq]].
    + left. destruct (wait_res e =? 0).
      * apply elem_of_snoc in Hq as [Hq | ->]; apply elem_of_cons; auto.
      * apply elem_of_cons. auto.
    + apply elem_of_nil in Hq. contradiction.
    + destruct (wait_res e =? 0); [auto |].
      apply elem_of_snoc in Hq as [Hq | ->]; [auto |].
      left. apply elem_of_cons. auto.
Qed.

(** The state in which the scheduler waits for the quantum of [c]. *)
Lemma waiting_inv t st c cs :
  run_inv st (c :: cs) -> resumed (trace st) = [] ->
  run_inv (dispatch t c (after_dequeue st)) cs /\
  resumed (trace (dispatch t c (after_dequeue st))) = [pid c] /\
  launched (trace (dispatch t c (after_dequeue st))) = launched (trace st) /\
  lost (trace (dispatch t c (after_dequeue st))) = lost (trace st).
Proof.
  intros Hinv Hidle.
  pose proof (run_inv_view _ _ Hinv) as Hv. rewrite Hidle in Hv.
  destruct Hinv as [Hh Hnd _ Hready _ Hcover Hknown].
  rewrite Hidle in Hready, Hcover, Hknown.
  rewrite fmap_cons in Hnd, Hready, Hcover, Hknown.
  apply NoDup_cons in Hnd as [Hc Hnd].
  destruct (stalled_shape t st c cs Hh) as (Htr & Hh' & _).
  assert (Hv' : view (trace (dispatch t c (after_dequeue st))) [pid c]
                     (freed (trace st)) (launched (trace st))).
  { rewrite Htr.
    change [EDequeue (Some c); EKill (pid c) SIGCONT; ESetitimer (fst t) (snd t)]
      with ([EDequeue (Some c)] ++ [EKill (pid c) SIGCONT] ++ [ESetitimer (fst t) (snd t)]).
    rewrite !app_assoc.
    apply view_neutral; [| reflexivity]. apply view_cont.
    apply view_neutral; [exact Hv | reflexivity]. }
  assert (Hlost : lost (trace (dispatch t c (after_dequeue st))) = lost (trace st)).
  { rewrite Htr, lost_app. apply app_nil_r. }
  destruct Hv' as [Hd' Hr' Hf' Hl'].
  split; [| split; [exact Hr' | split; [exact Hl' | exact Hlost]]].
  constructor.
  - exact Hh'.
  - exact Hnd.
  - exact Hd'.
  - rewrite Hr', Hf'. intros p Hp. split.
    + intros Hq. apply list_elem_of_singleton in Hq. subst p. contradiction.
    + apply Hready. apply elem_of_cons. auto.
  - rewrite Hr', Hf'. intros p Hp. apply list_elem_of_singleton in Hp. subst p.
    apply Hready. apply elem_of_cons. auto.
  - rewrite Hr', Hf', Hl', Hlost. intros p Hp.
    destruct (Hcover p Hp) as [Hq | [Hq | [Hq | Hq]]].
    + apply elem_of_cons in Hq as [-> | Hq]; [| auto].
      right. left. apply list_elem_of_singleton. reflexivity.
    + apply elem_of_nil in Hq. contradiction.
    + auto.
    + auto.
  - rewrite Hr', Hf', Hl'. intros p Hp. apply Hknown. destruct Hp as [Hq | [Hq | Hq]].
    + left. apply elem_of_cons. auto.
    + apply list_elem_of_singleton in Hq. subst p. left. apply elem_of_cons. auto.
    + auto.
Qed.

(** The invariant holds wherever the dispatch loop of v3 stops. *)
Lemma sched_loop_inv Q t env st cs :
  run_inv st cs -> resumed (trace st) = [] ->
  exists cs', run_inv (snd (sched_loop Q t env st)) cs' /\
    (fst (sched_loop Q t env st) = Exited 0 ->
       cs' = [] /\ resumed (trace (snd (sched_loop Q t env st))) = []) /\
    (fst (sched_loop Q t env st) = Exited 0 \/ fst (sched_loop Q t env st) = Running).
Proof.
  revert st cs. induction env as [| e env IH]; intros st cs Hinv Hidle.
  - destruct cs as [| c cs].
    + rewrite (sched_loop_empty _ _ _ _ (inv_holds _ _ Hinv)). simpl. eauto 6.
    + rewrite (sched_loop_stalled _ _ _ _ _ (inv_holds _ _ Hinv)). simpl.
      exists (c :: cs). split; [exact Hinv |]. split; [discriminate | auto].
  - destruct cs as [| c cs].
    + rewrite (sched_loop_empty _ _ _ _ (inv_holds _ _ Hinv)). simpl. eauto 6.
    + rewrite (sched_loop_turn _ _ _ _ _ _ _ (inv_holds _ _ Hinv)).
      destruct (wait_loop Q (polls e) (dispatch t c (after_dequeue st))) as [st3 |] eqn:Hw.
      * destruct (turn_shape Q t e st c cs st3 (inv_holds _ _ Hinv) Hw)
          as (wevs & Hk & Htr & Hh).
        destruct (turn_inv_of t e st c (add_quantum Q c) cs _ wevs Hinv Hidle Hk eq_refl Htr Hh)
          as (Hinv' & Hidle' & _).
        apply (IH _ _ Hinv' Hidle').
      * simpl. destruct (waiting_inv t st c cs Hinv Hidle) as [Hinv' _].
        exists cs. split; [exact Hinv' |]. split; [discriminate | auto].
Qed.

(** *** Launch *)

Lemma run_inv_same_views st st' cs :
  run_inv st cs -> holds st' cs ->
  view (trace st') (resumed (trace st)) (freed (trace st)) (launched (trace st)) ->
  lost (trace st') = lost (trace st) ->
  run_inv st' cs.
Proof.
  intros [_ Hnd _ Hready Hres Hcover Hknown] Hh [Hd Hr Hf Hl] Hlost.
  constructor; rewrite ?Hr, ?Hf, ?Hl, ?Hlost; assumption.
Qed.

Lemma run_inv_neutral st cs e :
  run_inv st cs -> neutral e = true -> run_inv (log e st) cs.
Proof.
  intros Hinv He. apply (run_inv_same_views st); [exact Hinv | apply Hinv | |].
  - apply view_neutral; [apply (run_inv_view _ _ Hinv) | exact He].
  - cbn [log trace]. rewrite lost_app, (lost_neutral e He). apply app_nil_r.
Qed.

(** What the handlers and the wait do leaves the invariant alone. *)
Lemma run_inv_extends st st' cs :
  run_inv st cs -> extends wait_event st st' ->
  run_inv st' cs /\ resumed (trace st') = resumed (trace st) /\
  launched (trace st') = launched (trace st) /\ lost (trace st') = lost (trace st).
Proof.
  intros Hinv [Hq (evs & Ht & Hk) _ _].
  pose proof (neutrals_of_wait_events evs Hk) as Hn.
  pose proof (view_neutrals _ _ _ _ evs (run_inv_view _ _ Hinv) Hn) as Hv.
  rewrite <- Ht in Hv.
  assert (Hlost : lost (trace st') = lost (trace st)).
  { rewrite Ht, lost_app, (lost_neutrals evs Hn). apply app_nil_r. }
  split; [| split; [apply Hv | split; [apply Hv | exact Hlost]]].
  apply (run_inv_same_views st); [exact Hinv | | exact Hv | exact Hlost].
  destruct (inv_holds _ _ Hinv) as [Hwf Hc]. split; rewrite Hq; assumption.
Qed.

Lemma launched_fork_invalid p :
  p = -1 \/ p = 0 -> launched [EFork p] = [].
Proof. intros [-> | ->]; reflexivity. Qed.

Lemma launched_fork_valid p :
  (p =? -1) = false -> (p =? 0) = false -> launched [EFork p] = [p].
Proof. intros H1 H0. unfold launched. simpl. rewrite H1, H0. reflexivity. Qed.

Lemma run_inv_fork_invalid st cs p :
  run_inv st cs -> resumed (trace st) = [] -> p = -1 \/ p = 0 ->
  run_inv (log (EFork p) st) cs /\ resumed (trace (log (EFork p) st)) = [].
Proof.
  intros Hinv Hidle Hp.
  pose proof (run_inv_view _ _ Hinv) as Hv. rewrite Hidle in Hv.
  apply (view_fork _ _ _ p) in Hv.
  rewrite (launched_fork_invalid p Hp), app_nil_r in Hv.
  split; [| apply Hv].
  apply (run_inv_same_views st); [exact Hinv | apply Hinv | | ].
  - rewrite Hidle. exact Hv.
  - cbn [log trace]. rewrite lost_app. apply app_nil_r.
Qed.

(** One command line whose [fork] returned a fresh pid [p]; [status] is
    what [enqueue] returned. *)
Lemma launch_one_inv st cs p (status : bool) q :
  run_inv st cs -> resumed (trace st) = [] ->
  (p =? -1) = false -> (p =? 0) = false ->
  p ∉ launched (trace st) ->
  wf q ->
  contents None q =
    (if status then contents None (queue st) ++ [Some (mkChild p 0 false false)]
     else contents None (queue st)) ->
  let st' := log (EEnqueue (mkChild p 0 false false) status)
                 (set_queue q (log (EFork p) st)) in
  run_inv st' (if status then cs ++ [mkChild p 0 false false] else cs) /\
  resumed (trace st') = [] /\
  launched (trace st') = launched (trace st) ++ [p] /\
  lost (trace st') = lost (trace st) ++ (if status then [] else [p]).
Proof.
  intros Hinv Hidle H1 H0 Hfresh Hwf Hc st'.
  pose proof (run_inv_view _ _ Hinv) as Hv. rewrite Hidle in Hv.
  destruct Hinv as [[_ Hcs] Hnd _ Hready _ Hcover Hknown].
  rewrite Hidle in Hready, Hcover, Hknown.
  assert (Hpf : p ∉ freed (trace st)) by (intros Hf; apply Hfresh, Hknown; auto).
  assert (Hpc : p ∉ (pid <$> cs)) by (intros Hf; apply Hfresh, Hknown; auto).
  apply (view_fork _ _ _ p) in Hv. rewrite (launched_fork_valid p H1 H0) in Hv.
  apply (view_enqueue _ _ _ (mkChild p 0 false false) status) in Hv; [| exact Hpf].
  destruct Hv as [Hd' Hr' Hf' Hl'].
  assert (Htr : trace st' =
            (trace st ++ [EFork p]) ++ [EEnqueue (mkChild p 0 false false) status])
    by reflexivity.
  assert (Hlost : lost (trace st') = lost (trace st) ++ (if status then [] else [p])).
  { rewrite Htr, !lost_app. simpl. rewrite app_nil_r. destruct status; reflexivity. }
  assert (Hpids : pid <$> (if status then cs ++ [mkChild p 0 false false] else cs) =
                  if status then (pid <$> cs) ++ [p] else pid <$> cs).
  { destruct status; [rewrite fmap_app |]; reflexivity. }
  rewrite <- Htr in Hd', Hr', Hf', Hl'.
  split; [| split; [exact Hr' | split; [exact Hl' | exact Hlost]]].
  constructor.
  - split; [exact Hwf |]. unfold st'. cbn [queue log set_queue]. rewrite Hc, Hcs.
    destruct status; [rewrite fmap_app |]; reflexivity.
  - rewrite Hpids. destruct status; [| exact Hnd].
    apply NoDup_app. split; [exact Hnd |]. split.
    + intros x Hx Hx'. apply list_elem_of_singleton in Hx'. subst x. contradiction.
    + apply NoDup_singleton.
  - exact Hd'.
  - rewrite Hpids, Hr', Hf'. intros x Hx. split; [apply not_elem_of_nil |].
    destruct status; [| apply Hready; exact Hx].
    apply elem_of_snoc in Hx as [Hx | ->]; [apply Hready; exact Hx | exact Hpf].
  - rewrite Hr'. intros x Hx. apply elem_of_nil in Hx. contradiction.
  - rewrite Hpids, Hr', Hf', Hl', Hlost. intros x Hx.
    apply elem_of_snoc in Hx as [Hx | ->].
    + destruct (Hcover x Hx) as [Hq | [Hq | [Hq | Hq]]].
      * left. destruct status; [apply elem_of_snoc |]; auto.
      * apply elem_of_nil in Hq. contradiction.
      * auto.
      * right. right. right. apply elem_of_app. auto.
    + destruct status.
      * left. apply elem_of_snoc. auto.
      * right. right. right. apply elem_of_snoc. auto.
  - rewrite Hpids, Hr', Hf', Hl'. intros x Hx. apply elem_of_snoc.
    destruct Hx as [Hq | [Hq | Hq]].
    + destruct status.
      * apply elem_of_snoc in Hq as [Hq | ->]; auto.
      * auto.
    + apply elem_of_nil in Hq. contradiction.
    + auto.
Qed.

(** Launch keeps the invariant, whatever [fork] and the allocator of the
    queue answer. *)
Lemma launch_loop_inv lines st cs :
  run_inv st cs -> resumed (trace st) = [] ->
  NoDup (fork_res <$> lines) ->
  (forall p, p ∈ (fork_res <$> lines) -> p ∉ launched (trace st)) ->
  count (queue st) + Z.of_nat (length lines) <= 2 ^ 30 ->
  exists cs', run_inv (snd (launch_loop lines st)) cs' /\
    resumed (trace (snd (launch_loop lines st))) = [] /\
    (fst (launch_loop lines st) = None \/
     fst (launch_loop lines st) = Some (Exited EXIT_FAILURE) \/
     fst (launch_loop lines st) = Some InChild).
Proof.
  revert st cs. induction lines as [| l lines IH]; intros st cs Hinv Hidle Hnd Hfresh Hb.
  - simpl. eauto.
  - rewrite fmap_cons in Hnd, Hfresh. apply NoDup_cons in Hnd as [Hl Hnd].
    cbn [launch_loop].
    destruct (fork_res l =? -1) eqn:E1.
    { apply Z.eqb_eq in E1.
      destruct (run_inv_fork_invalid st cs (fork_res l) Hinv Hidle) as [Hinv' Hidle']; [auto |].
      exists cs. cbn [fst snd]. split; [| split; [| auto]].
      - apply run_inv_neutral; [exact Hinv' | reflexivity].
      - cbn [log trace]. rewrite resumed_snoc. cbn [log trace] in Hidle'. rewrite Hidle'.
        reflexivity. }
    destruct (fork_res l =? 0) eqn:E0.
    { apply Z.eqb_eq in E0.
      destruct (run_inv_fork_invalid st cs (fork_res l) Hinv Hidle) as [Hinv' Hidle']; [auto |].
      exists cs. cbn [fst snd]. auto. }
    cbn [queue log].
    pose proof (inv_holds _ _ Hinv) as [Hwf0 _].
    destruct (q_enqueue_any None (launch_grow_ok l) (queue st)
                (Some (mkChild (fork_res l) 0 false false)) Hwf0)
      as (status & q & He & Hwf & _ & Hc & _).
    { cbn [length] in Hb. lia. }
    rewrite He.
    destruct (launch_one_inv st cs (fork_res l) status q Hinv Hidle E1 E0)
      as (Hinv' & Hidle' & Hl' & _);
      [apply Hfresh, elem_of_cons; auto | exact Hwf | exact Hc |].
    apply (IH _ _ Hinv' Hidle' Hnd).
    + intros p Hp. rewrite Hl'. intros Hq. apply elem_of_snoc in Hq as [Hq | ->].
      * revert Hq. apply Hfresh. apply elem_of_cons. auto.
      * contradiction.
    + cbn [queue log set_queue]. cbn [length] in Hb.
      pose proof (count_contents None q Hwf) as H1.
      pose proof (count_contents None (queue st) Hwf0) as H2.
      rewrite Hc in H1. destruct status; rewrite ?length_app in H1; simpl in H1; lia.
Qed.

Lemma initial_state_inv d :
  run_inv (initial_state d []) [] /\ resumed (trace (initial_state d [])) = [].
Proof.
  split; [| reflexivity].
  constructor; simpl; try (intros p Hp; try destruct Hp as [Hp | [Hp | Hp]];
                           apply elem_of_nil in Hp; contradiction).
  - split; [| reflexivity]. apply newQueue_wf. rewrite INT_MAX_val. unfold MAX_PROCESSES. lia.
  - constructor.
  - constructor.
Qed.

(** The invariant holds wherever a run of launch and scheduling stops. *)
Lemma run_v3_inv d Q lines env :
  NoDup (fork_res <$> lines) ->
  Z.of_nat (length lines) <= 2 ^ 30 ->
  exists cs, run_inv (snd (run_v3 d Q lines env [])) cs /\
    (fst (run_v3 d Q lines env []) = Exited 0 ->
       cs = [] /\ resumed (trace (snd (run_v3 d Q lines env []))) = []).
Proof.
  intros Hnd Hb.
  destruct (initial_state_inv d) as [Hinv0 Hidle0].
  destruct (launch_loop_inv lines (initial_state d []) [] Hinv0 Hidle0 Hnd)
    as (cs & Hinv & Hidle & Hst); [intros p _; apply not_elem_of_nil | simpl; lia |].
  unfold run_v3.
  destruct (launch_loop lines (initial_state d [])) as [[s |] st] eqn:E; cbn [fst snd] in *.
  - exists cs. split; [exact Hinv |]. intros Hs. subst s.
    destruct Hst as [Hst | [Hst | Hst]]; discriminate Hst.
  - destruct (sched_loop_inv Q (set_up_timer Q) env (log EClose st) cs) as (cs' & Hinv' & Hdone & _).
    + apply run_inv_neutral; [exact Hinv | reflexivity].
    + cbn [log trace]. rewrite resumed_snoc, Hidle. reflexivity.
    + exists cs'. auto.
Qed.

Lemma round_robin_fairness_witness :
  dispatched (trace (snd (sched_loop 500 (0, 500000) (dispatches env_two_by_three)
                            two_launched))) =
  [101; 102; 101; 102; 101; 102].
Proof.
  destruct (round_robin_fairness 500 (0, 500000) (dispatches env_two_by_three)
              two_launched two_pcbs) as (H & _ & _).
  - split; [| reflexivity].
    constructor; vm_compute; try reflexivity; split; congruence.
  - reflexivity.
  - rewrite H. reflexivity.
Defined.

(** *** Invariants of a run *)

(** What holds of every run of v3: at every point at most one process
    has been resumed and not yet suspended or finalized; the PCBs in the
    ready queue are distinct, launched, neither resumed nor finalized; and
    every process launched is in the queue, resumed, finalized, or was
    turned down by [enqueue] at launch.  (The pids that [fork] returns are
    distinct.) *)
Lemma one_running_and_ready_once d Q lines env :
  NoDup (fork_res <$> lines) ->
  Z.of_nat (length lines) <= 2 ^ 30 ->
  let st := snd (run_v3 d Q lines env []) in
  (forall k, (length (resumed (take k (trace st))) <= 1)%nat) /\
  NoDup (ready_pids st) /\
  (forall p, p ∈ ready_pids st ->
     p ∈ launched (trace st) /\ (p ∉ resumed (trace st)) /\ (p ∉ freed (trace st))) /\
  (forall p, p ∈ launched (trace st) ->
     p ∈ ready_pids st \/ p ∈ resumed (trace st) \/ p ∈ freed (trace st) \/
     p ∈ lost (trace st)).
Proof.
  intros Hnd Hb st.
  destruct (run_v3_inv d Q lines env Hnd Hb) as (cs & Hinv & _).
  fold st in Hinv.
  rewrite (ready_pids_holds st cs (inv_holds _ _ Hinv)).
  split; [| split; [| split]].
  - apply disciplined_prefix. apply Hinv.
  - apply Hinv.
  - intros p Hp. split; [apply (inv_known _ _ Hinv); auto | apply (inv_ready _ _ Hinv); exact Hp].
  - apply Hinv.
Qed.

(** C8 on the code.  With 129 command lines and a reallocation of the
    queue that fails, the PCB of the last process is turned down by
    [enqueue], whose result [main] does not look at (line 164).  At the
    head of the dispatch loop that process is launched and stopped, it is
    neither resumed nor finalized, and it is not in the ready queue, which
    holds the other 128; the loop then runs to its end and [main] returns 0
    without ever having resumed or freed it. *)
Theorem ready_pcb_outside_the_queue :
  1128 ∈ launched (trace (snd (run_v3 50 500 many_commands [] []))) /\
  (1128 ∉ ready_pids (snd (run_v3 50 500 many_commands [] []))) /\
  (1128 ∉ resumed (trace (snd (run_v3 50 500 many_commands [] [])))) /\
  (1128 ∉ freed (trace (snd (run_v3 50 500 many_commands [] [])))) /\
  lost (trace (snd (run_v3 50 500 many_commands [] []))) = [1128] /\
  length (ready_pids (snd (run_v3 50 500 many_commands [] []))) = 128%nat /\
  fst (run_v3 50 500 many_commands all_exit []) = Exited 0 /\
  (1128 ∉ dispatched (trace (snd (run_v3 50 500 many_commands all_exit [])))) /\
  (1128 ∉ freed (trace (snd (run_v3 50 500 many_commands all_exit [])))).
Proof.
  split; [apply (bool_decide_unpack _); vm_compute; exact I |].
  split; [apply (bool_decide_unpack _); vm_compute; exact I |].
  split; [apply (bool_decide_unpack _); vm_compute; exact I |].
  split; [apply (bool_decide_unpack _); vm_compute; exact I |].
  split; [vm_compute; reflexivity |].
  split; [vm_compute; reflexivity |].
  split; [vm_compute; reflexivity |].
  split; apply (bool_decide_unpack _); vm_compute; exact I.
Qed.

End UspsFacts.

(** ** The rest of the array queue *)

Module ArrayQueueRestFacts.
Import CInt CIntFacts ArrayQueue ArrayQueueFacts ArrayQueueRest.

Section RestFacts.

Context {A : Type} (junk : A).

Implicit Types (qd : QData A) (x : A).

Lemma to_int_count qd : wf qd -> to_int (count qd) = count qd.
Proof.
  intros [Hsz Hc _ _ _]. apply to_int_small. rewrite INT_MAX_val in *. lia.
Qed.

Lemma purge_contents qd : wf qd -> purge junk qd = contents junk qd.
Proof. intros H. unfold purge, contents. rewrite to_int_count by exact H. reflexivity. Qed.

Lemma array_loop_spec n buf sz i pre m :
  0 < sz <= INT_MAX -> 0 <= i < sz -> (n <= m)%nat ->
  Z.of_nat (length pre) + Z.of_nat n <= INT_MAX ->
  array_loop junk n buf sz i (Z.of_nat (length pre)) (pre ++ replicate m junk) =
  pre ++ gen_loop junk n buf sz i ++ replicate (m - n) junk.
Proof.
  intros Hsz. revert i pre m.
  induction n as [| n IH]; intros i pre m Hi Hnm Hlen.
  - simpl. rewrite Nat.sub_0_r. reflexivity.
  - destruct m as [| m]; [lia |].
    cbn [array_loop gen_loop].
    rewrite next_int_mod by lia.
    rewrite to_int_small by (rewrite INT_MAX_val in *; lia).
    assert (Hwr : wr (pre ++ replicate (S m) junk) (Z.of_nat (length pre)) (rd junk buf i)
                  = (pre ++ [rd junk buf i]) ++ replicate m junk).
    { unfold wr. destruct (Z.of_nat (length pre) <? 0) eqn:E; [lia |].
      rewrite Nat2Z.id.
      rewrite insert_app_r_alt by lia. rewrite Nat.sub_diag. simpl.
      rewrite <- app_assoc. reflexivity. }
    rewrite Hwr.
    replace (Z.of_nat (length pre) + 1) with (Z.of_nat (length (pre ++ [rd junk buf i])))
      by (rewrite length_app; simpl; lia).
    rewrite IH.
    + rewrite <- app_assoc. simpl. reflexivity.
    + apply mod_succ_bound; lia.
    + lia.
    + rewrite length_app. simpl. lia.
Qed.

Lemma genArray_contents qd :
  wf qd -> 0 < count qd -> genArray junk true qd = Some (contents junk qd).
Proof.
  intros Hwf Hpos. pose proof (to_int_count qd Hwf) as Hn.
  destruct Hwf as [Hsz Hc Ho Hi Hb].
  unfold genArray. destruct (0 <? count qd) eqn:E; [| lia].
  rewrite Hn. f_equal.
  assert (Hslots : slots_of_bytes (to_size_t (to_size_t (count qd) * sizeof_ptr))
                   = Z.to_nat (count qd)).
  { unfold slots_of_bytes, sizeof_ptr.
    rewrite (to_size_t_small (count qd)) by (rewrite INT_MAX_val in *; lia).
    rewrite to_size_t_small by (rewrite INT_MAX_val in *; lia).
    rewrite Z.div_mul by lia. reflexivity. }
  rewrite Hslots.
  pose proof (array_loop_spec (Z.to_nat (count qd)) (buffer qd) (size qd) (q_out qd) []
                (Z.to_nat (count qd))) as Hloop.
  change (Z.of_nat (length (@nil A))) with 0 in Hloop.
  change ([] ++ ?l) with l in Hloop.
  rewrite Hloop by (rewrite ?INT_MAX_val in *; lia).
  rewrite Nat.sub_diag. simpl. rewrite app_nil_r. reflexivity.
Qed.

(** The array queue against the FIFO of bounded capacity. *)
Lemma run_ops_bounded (ops : list (op A)) qd :
  wf qd ->
  count qd + Z.of_nat (length ops) <= 2 ^ 30 ->
  fifo_cap_ops junk ops (contents junk qd) (size qd) =
    (fst (run_ops junk ops qd), contents junk (snd (run_ops junk ops qd)),
     size (snd (run_ops junk ops qd))) /\
  wf (snd (run_ops junk ops qd)).
Proof.
  revert qd. induction ops as [| o ops IH]; intros qd Hwf Hb.
  - simpl. auto.
  - destruct o as [x ok |].
    + destruct (q_enqueue_any junk ok qd x Hwf) as (status & qd' & He & Hwf' & Hst & Hc & Hs).
      { cbn [length] in Hb. lia. }
      assert (Hcount : count qd' <= count qd + 1).
      { pose proof (count_contents junk qd Hwf) as H1. pose proof (count_contents junk qd' Hwf') as H2.
        rewrite Hc in H2. destruct status; rewrite ?length_app in H2; simpl in H2; lia. }
      destruct (IH qd' Hwf') as [IH1 IH2]. { cbn [length] in Hb. lia. }
      cbn [run_ops fifo_cap_ops]. rewrite He, (count_contents junk qd Hwf).
      destruct (run_ops junk ops qd') as [answers qd''] eqn:Er. cbn [fst snd] in *.
      destruct (count qd <? size qd) eqn:E.
      * simpl in Hst. subst status. rewrite Hc, Hs in IH1. rewrite IH1. auto.
      * destruct ok; simpl in Hst; subst status; rewrite Hc, Hs in IH1; rewrite IH1; auto.
    + cbn [run_ops fifo_cap_ops].
      destruct (contents junk qd) as [| x l] eqn:Hcont.
      * assert (Hz : count qd = 0).
        { pose proof (count_contents junk qd Hwf) as H. rewrite Hcont in H. simpl in H. lia. }
        rewrite (q_dequeue_empty junk qd junk Hz).
        destruct (IH qd Hwf) as [IH1 IH2]. { cbn [length] in Hb. lia. }
        rewrite Hcont in IH1. rewrite IH1.
        destruct (run_ops junk ops qd) as [answers qd'']. auto.
      * destruct (q_dequeue_spec junk qd junk x l Hwf Hcont) as (qd' & Hd & Hwf' & Hc & Hs).
        assert (Hn : count qd' < count qd).
        { pose proof (count_contents junk qd Hwf) as H1. pose proof (count_contents junk qd' Hwf') as H2.
          rewrite Hcont in H1. rewrite Hc in H2. simpl in H1. lia. }
        rewrite Hd.
        destruct (IH qd' Hwf') as [IH1 IH2]. { cbn [length] in Hb. lia. }
        rewrite Hc, Hs in IH1. rewrite IH1.
        destruct (run_ops junk ops qd') as [answers qd'']. auto.
Qed.

Lemma fifo_cap_ops_capacity (ops : list (op A)) l cap :
  exists k : nat, snd (fifo_cap_ops junk ops l cap) = cap * 2 ^ Z.of_nat k.
Proof.
  revert l cap. induction ops as [| o ops IH]; intros l cap.
  - exists 0%nat. simpl. lia.
  - destruct o as [x ok |]; cbn [fifo_cap_ops].
    + destruct (Z.of_nat (length l) <? cap).
      * destruct (IH (l ++ [x]) cap) as [k Hk].
        destruct (fifo_cap_ops junk ops (l ++ [x]) cap) as [[a l'] c']. exists k. exact Hk.
      * destruct ok.
        -- destruct (IH (l ++ [x]) (cap * 2)) as [k Hk].
           destruct (fifo_cap_ops junk ops (l ++ [x]) (cap * 2)) as [[a l'] c'].
           exists (S k). cbn [snd] in *. rewrite Hk, Nat2Z.inj_succ, Z.pow_succ_r by lia. lia.
        -- destruct (IH l cap) as [k Hk].
           destruct (fifo_cap_ops junk ops l cap) as [[a l'] c']. exists k. exact Hk.
    + destruct l as [| x l].
      * destruct (IH [] cap) as [k Hk].
        destruct (fifo_cap_ops junk ops [] cap) as [[a l'] c']. exists k. exact Hk.
      * destruct (IH l cap) as [k Hk].
        destruct (fifo_cap_ops junk ops l cap) as [[a l'] c']. exists k. exact Hk.
Qed.

Lemma enqueue_all_room (xs : list A) qd :
  wf qd -> count qd + Z.of_nat (length xs) <= size qd ->
  fst (run_ops junk (enqueue_all xs) qd) = (fun _ => Enqueued true) <$> xs /\
  contents junk (snd (run_ops junk (enqueue_all xs) qd)) = contents junk qd ++ xs /\
  size (snd (run_ops junk (enqueue_all xs) qd)) = size qd.
Proof.
  revert qd. induction xs as [| x xs IH]; intros qd Hwf Hb.
  - simpl. rewrite app_nil_r. auto.
  - unfold enqueue_all. rewrite fmap_cons. fold (enqueue_all xs). cbn [run_ops].
    destruct (q_enqueue_room junk false qd x Hwf) as (qd' & He & Hwf' & Hs & Hc).
    { cbn [length] in Hb. lia. }
    rewrite He.
    assert (Hn : count qd' = count qd + 1).
    { pose proof (count_contents junk qd Hwf) as H1. pose proof (count_contents junk qd' Hwf') as H2.
      rewrite Hc, length_app in H2. simpl in H2. lia. }
    destruct (IH qd' Hwf') as (IH1 & IH2 & IH3). { cbn [length] in Hb. lia. }
    destruct (run_ops junk (enqueue_all xs) qd') as [answers qd'']. cbn [fst snd] in *.
    rewrite IH1, IH2, IH3, Hc, Hs, <- app_assoc, fmap_cons. auto.
Qed.

End RestFacts.

(** X1.  [q_clear] and [q_destroy] hand to [freeValue] exactly the
    elements the queue holds, each once, front first.  After [q_clear] the
    queue is empty, well formed and of the same capacity, and the next
    enqueue succeeds without any allocation. *)
Theorem clear_frees_each_element_once {A : Type} (junk : A) (qd : QData A) :
  wf qd ->
  fst (q_clear junk qd) = contents junk qd /\
  q_destroy junk qd = contents junk qd /\
  wf (snd (q_clear junk qd)) /\
  contents junk (snd (q_clear junk qd)) = [] /\
  size (snd (q_clear junk qd)) = size qd /\
  (forall x ok, exists qd',
     q_enqueue junk ok (snd (q_clear junk qd)) x = (true, qd') /\
     contents junk qd' = [x] /\ size qd' = size qd).
Proof.
  intros Hwf.
  assert (Hwf' : wf (snd (q_clear junk qd))).
  { destruct Hwf as [Hsz Hc Ho Hi Hb]. constructor; simpl; try lia.
    rewrite Z.mod_small; lia. }
  split; [apply purge_contents; exact Hwf |].
  split; [apply purge_contents; exact Hwf |].
  split; [exact Hwf' |]. split; [reflexivity |]. split; [reflexivity |].
  intros x ok.
  destruct (q_enqueue_room junk ok (snd (q_clear junk qd)) x Hwf') as (qd' & He & _ & Hs & Hc).
  { simpl. destruct Hwf. lia. }
  exists qd'. auto.
Qed.

Lemma clear_frees_each_element_once_witness :
  fst (q_clear 0 wrapped_queue) = [3; 4; 5] /\
  q_destroy 0 wrapped_queue = [3; 4; 5] /\
  contents 0 (snd (q_clear 0 wrapped_queue)) = [].
Proof.
  destruct (clear_frees_each_element_once 0 wrapped_queue) as (H1 & H2 & _ & H4 & _).
  - constructor; vm_compute; try reflexivity; split; congruence.
  - rewrite H1, H2. split; [reflexivity |]. split; [reflexivity | exact H4].
Defined.

(** X2.  After any sequence of enqueues and dequeues, with allocations
    that succeed or fail, [q_size] is the number of elements the FIFO
    sequence holds and [q_isEmpty] is true exactly when it holds none. *)
Theorem size_counts_the_elements {A : Type} (junk : A) (ops : list (op A)) (qd : QData A) :
  wf qd ->
  count qd + Z.of_nat (length ops) <= 2 ^ 30 ->
  q_size (snd (run_ops junk ops qd)) =
    Z.of_nat (length (snd (fst (fifo_cap_ops junk ops (contents junk qd) (size qd))))) /\
  (q_isEmpty (snd (run_ops junk ops qd)) = true <->
   snd (fst (fifo_cap_ops junk ops (contents junk qd) (size qd))) = []).
Proof.
  intros Hwf Hb. destruct (run_ops_bounded junk ops qd Hwf Hb) as [-> Hwf'].
  cbn [fst snd]. split.
  - unfold q_size. symmetry. apply count_contents. exact Hwf'.
  - apply q_isEmpty_contents. exact Hwf'.
Qed.

Lemma size_counts_the_elements_witness :
  q_size (snd (run_ops 0 mixed_ops wrapped_queue)) = 3 /\
  q_isEmpty (snd (run_ops 0 mixed_ops wrapped_queue)) = false.
Proof.
  destruct (size_counts_the_elements 0 mixed_ops wrapped_queue) as [H1 H2].
  - constructor; vm_compute; try reflexivity; split; congruence.
  - vm_compute. congruence.
  - split; [rewrite H1; reflexivity |].
    apply not_true_is_false. intros H. apply H2 in H. vm_compute in H. discriminate H.
Defined.

(** X3.  After any such sequence [q_front] returns the oldest element
    still in the queue, and on an empty queue it returns false and leaves
    the out-parameter as it was. *)
Theorem front_is_the_oldest {A : Type} (junk : A) (ops : list (op A)) (qd : QData A)
    (element : A) :
  wf qd ->
  count qd + Z.of_nat (length ops) <= 2 ^ 30 ->
  q_front junk (snd (run_ops junk ops qd)) element =
    match snd (fst (fifo_cap_ops junk ops (contents junk qd) (size qd))) with
    | [] => (false, element)
    | x :: _ => (true, x)
    end.
Proof.
  intros Hwf Hb. destruct (run_ops_bounded junk ops qd Hwf Hb) as [-> Hwf'].
  cbn [fst snd]. set (q := snd (run_ops junk ops qd)) in *.
  destruct (contents junk q) as [| x l] eqn:Hc.
  - apply q_front_empty. pose proof (count_contents junk q Hwf') as H.
    rewrite Hc in H. simpl in H. lia.
  - destruct (q_dequeue_spec junk q element x l Hwf' Hc) as (q' & Hd & _).
    unfold q_dequeue in Hd. unfold q_front.
    destruct (0 <? count q); [| discriminate Hd].
    injection Hd as Hx _. rewrite Hx. reflexivity.
Qed.

Lemma front_is_the_oldest_witness :
  q_front 0 (snd (run_ops 0 mixed_ops wrapped_queue)) 9 = (true, 5).
Proof.
  rewrite (front_is_the_oldest 0 mixed_ops wrapped_queue 9).
  - reflexivity.
  - constructor; vm_compute; try reflexivity; split; congruence.
  - vm_compute. congruence.
Defined.

(** X4.  [q_toArray] on a queue that holds something returns an array of
    exactly its elements, front first, and sets [*len] to their number.  On
    an empty queue, or when its allocation fails, it returns NULL and does
    not write [*len]. *)
Theorem toArray_is_a_snapshot {A : Type} (junk : A) (qd : QData A) (len : Z) :
  wf qd ->
  (0 < count qd ->
   q_toArray junk true qd len =
     (Some (contents junk qd), Z.of_nat (length (contents junk qd)))) /\
  (count qd = 0 -> forall ok, q_toArray junk ok qd len = (None, len)) /\
  q_toArray junk false qd len = (None, len).
Proof.
  intros Hwf. split; [| split].
  - intros Hpos. unfold q_toArray. rewrite (genArray_contents junk qd Hwf Hpos).
    rewrite (count_contents junk qd Hwf). reflexivity.
  - intros Hz ok. unfold q_toArray, genArray. rewrite Hz. reflexivity.
  - unfold q_toArray, genArray. destruct (0 <? count qd); reflexivity.
Qed.

Lemma toArray_is_a_snapshot_witness :
  q_toArray 0 true wrapped_queue 0 = (Some [3; 4; 5], 3) /\
  q_toArray 0 true (newQueue 0 50 3) 7 = (None, 7).
Proof.
  split.
  - destruct (toArray_is_a_snapshot 0 wrapped_queue 0) as (H & _).
    + constructor; vm_compute; try reflexivity; split; congruence.
    + rewrite H by reflexivity. reflexivity.
  - destruct (toArray_is_a_snapshot 0 (newQueue 0 50 3) 7) as (_ & H & _).
    + constructor; vm_compute; try reflexivity; split; congruence.
    + apply H. reflexivity.
Defined.

(** X5.  [ArrayQueue] returns NULL exactly when one of its three
    allocations fails.  When it returns a queue and the capacity asked for,
    or the default if that is not positive, is positive and at most
    [INT_MAX], the queue is empty and well formed, its capacity is that
    number, and it takes that many elements without a further
    allocation. *)
Theorem new_queue_is_empty {A : Type} (junk : A) (q_ok qd_ok tmp_ok : bool)
    (DEFAULT_QUEUE_CAPACITY capacity : Z) :
  (ArrayQueue junk q_ok qd_ok tmp_ok DEFAULT_QUEUE_CAPACITY capacity = None <->
   q_ok && qd_ok && tmp_ok = false) /\
  (0 < (if capacity <=? 0 then DEFAULT_QUEUE_CAPACITY else capacity) <= INT_MAX ->
   forall qd,
     ArrayQueue junk q_ok qd_ok tmp_ok DEFAULT_QUEUE_CAPACITY capacity = Some qd ->
     wf qd /\ contents junk qd = [] /\ q_isEmpty qd = true /\
     size qd = (if capacity <=? 0 then DEFAULT_QUEUE_CAPACITY else capacity) /\
     forall xs, Z.of_nat (length xs) <= size qd ->
       fst (run_ops junk (enqueue_all xs) qd) = (fun _ => Enqueued true) <$> xs /\
       contents junk (snd (run_ops junk (enqueue_all xs) qd)) = xs /\
       size (snd (run_ops junk (enqueue_all xs) qd)) = size qd).
Proof.
  unfold ArrayQueue, newQueue_alloc. split.
  - destruct q_ok, qd_ok, tmp_ok; simpl; split; auto; discriminate.
  - intros Hcap qd Hq.
    assert (Heq : qd = newQueue junk DEFAULT_QUEUE_CAPACITY capacity).
    { destruct q_ok, qd_ok, tmp_ok; try discriminate Hq. injection Hq as <-. reflexivity. }
    assert (Hwf : wf qd).
    { subst qd. unfold newQueue.
      destruct (capacity <=? 0); (constructor; simpl; try lia;
        [rewrite Z.mod_small; lia |
         rewrite length_replicate; unfold slots_of_bytes, sizeof_ptr;
         rewrite to_size_t_small by (rewrite INT_MAX_val in *; lia);
         rewrite Z.div_mul by lia; lia]). }
    assert (Hc : contents junk qd = []) by (subst qd; reflexivity).
    split; [exact Hwf |]. split; [exact Hc |].
    split; [subst qd; reflexivity |]. split; [subst qd; reflexivity |].
    intros xs Hxs.
    destruct (enqueue_all_room junk xs qd Hwf) as (H1 & H2 & H3).
    + assert (count qd = 0) by (subst qd; reflexivity). lia.
    + rewrite Hc in H2. auto.
Qed.

Lemma new_queue_is_empty_witness :
  (ArrayQueue 0 true true false 50 3 = None) /\
  fst (run_ops 0 (enqueue_all [1; 2; 3]) (newQueue 0 50 0)) =
    [Enqueued true; Enqueued true; Enqueued true].
Proof.
  split.
  - apply (new_queue_is_empty 0 true true false 50 3). reflexivity.
  - destruct (new_queue_is_empty 0 true true true 50 0) as [_ H].
    destruct (H ltac:(vm_compute; split; congruence) (newQueue 0 50 0) eq_refl)
      as (_ & _ & _ & _ & Hx).
    destruct (Hx [1; 2; 3]) as (H1 & _); [vm_compute; congruence |].
    rewrite H1. reflexivity.
Defined.

(** X6.  With allocations that may fail the array queue is the FIFO
    sequence of bounded capacity: an enqueue fails only when the queue is
    full and the reallocation fails, and it then changes nothing; every
    other enqueue appends at the back; the capacity changes only by
    doubling. *)
Theorem allocation_failure_bounds_the_queue {A : Type} (junk : A) (ops : list (op A))
    (qd : QData A) :
  wf qd ->
  count qd + Z.of_nat (length ops) <= 2 ^ 30 ->
  fifo_cap_ops junk ops (contents junk qd) (size qd) =
    (fst (run_ops junk ops qd), contents junk (snd (run_ops junk ops qd)),
     size (snd (run_ops junk ops qd))) /\
  exists k : nat, size (snd (run_ops junk ops qd)) = size qd * 2 ^ Z.of_nat k.
Proof.
  intros Hwf Hb. destruct (run_ops_bounded junk ops qd Hwf Hb) as [Heq _].
  split; [exact Heq |].
  destruct (fifo_cap_ops_capacity junk ops (contents junk qd) (size qd)) as [k Hk].
  exists k. rewrite Heq in Hk. exact Hk.
Qed.

Lemma allocation_failure_bounds_the_queue_witness :
  fst (run_ops 0 mixed_ops wrapped_queue) =
    [Enqueued false; Dequeued true 3; Enqueued true; Enqueued true; Dequeued true 4] /\
  contents 0 (snd (run_ops 0 mixed_ops wrapped_queue)) = [5; 7; 8] /\
  size (snd (run_ops 0 mixed_ops wrapped_queue)) = 6.
Proof.
  destruct (allocation_failure_bounds_the_queue 0 mixed_ops wrapped_queue) as [H _].
  - constructor; vm_compute; try reflexivity; split; congruence.
  - vm_compute. congruence.
  - pose proof (f_equal (fun t => fst (fst t)) H) as H1.
    pose proof (f_equal (fun t => snd (fst t)) H) as H2.
    pose proof (f_equal snd H) as H3.
    cbn beta in H1, H2. cbn [fst snd] in H1, H2, H3.
    rewrite <- H1, <- H2, <- H3. vm_compute. auto.
Defined.

End ArrayQueueRestFacts.

(** ** The rest of the scheduler *)

Module UspsRestFacts.
Import CInt CIntFacts ArrayQueue ArrayQueueFacts Float32 Float32Facts Usps UspsFacts UspsRest.
Import String.StringSyntax.
Local Open Scope string_scope.

(** *** The handlers *)

Lemma sigchld_handler_flags answers st :
  childRunning (sigchld_handler answers st) =
    childRunning st && negb (reaps_terminated answers) /\
  timeLeft (sigchld_handler answers st) = timeLeft st /\
  timeRuning (sigchld_handler answers st) = timeRuning st /\
  queue (sigchld_handler answers st) = queue st.
Proof.
  revert st. induction answers as [| [p ws] rest IH]; intros st; simpl.
  - rewrite andb_true_r. auto.
  - destruct (0 <? p); simpl.
    + destruct (WIFEXITED ws || WIFSIGNALED ws); simpl.
      * destruct (IH (set_childRunning false (log (EWaitpid (-1) p) st)))
          as (H1 & H2 & H3 & H4).
        rewrite H1, H2, H3, H4. simpl. rewrite andb_false_r. auto.
      * destruct (IH (log (EPutstr 2 "Child exited with error") (log (EWaitpid (-1) p) st)))
          as (H1 & H2 & H3 & H4).
        rewrite H1, H2, H3, H4. simpl. auto.
    + rewrite andb_true_r. auto.
Qed.

(** X7.  The signal handlers only ever clear flags, each its own.  After
    any batch of signals [childRunning] is still set exactly when it was
    set and no [SIGCHLD] handler reaped a terminated child, [timeLeft] is
    still set exactly when it was set and no [SIGALRM] came, and the
    ready queue is untouched. *)
Theorem handlers_only_clear_their_flag Q sigs st :
  childRunning (deliver Q sigs st) = childRunning st && negb (existsb chld_reaps sigs) /\
  timeLeft (deliver Q sigs st) = timeLeft st && negb (existsb is_alarm sigs) /\
  queue (deliver Q sigs st) = queue st.
Proof.
  revert st. induction sigs as [| s sigs IH]; intros st; simpl.
  - rewrite !andb_true_r. auto.
  - destruct (IH (handle Q s st)) as (H1 & H2 & H3).
    change (fold_left (fun st s => handle Q s st) sigs (handle Q s st))
      with (deliver Q sigs (handle Q s st)).
    rewrite H1, H2, H3. destruct s; simpl.
    + rewrite ?andb_false_r. auto.
    + destruct (sigchld_handler_flags answers st) as (G1 & G2 & _ & G4).
      rewrite G1, G2, G4, negb_orb, andb_assoc. auto.
Qed.

(** *** The timer *)

(** X14.  For a quantum of [q] milliseconds that fits the [int]
    multiplication, the timer is loaded with [q] milliseconds plus the
    whole seconds of [q] once more, and its microsecond field is a valid
    one exactly when [q] is below one second. *)
Theorem timer_is_valid_below_one_second q :
  0 <= q <= 2147483 ->
  fst (set_up_timer q) * 1000000 + snd (set_up_timer q) =
    q * 1000 + Z.quot q 1000 * 1000000 /\
  (0 <= snd (set_up_timer q) < 1000000 <-> q < 1000).
Proof.
  intros H. unfold set_up_timer. cbn [fst snd].
  rewrite to_int_small by (rewrite INT_MAX_val; lia).
  split; [lia |]. lia.
Qed.

Lemma timer_is_valid_below_one_second_witness :
  fst (set_up_timer 2500) * 1000000 + snd (set_up_timer 2500) = 4500000.
Proof.
  destruct (timer_is_valid_below_one_second 2500) as [H _]; [lia |].
  rewrite H. reflexivity.
Defined.

(** *** The pid list of v4 *)

(** X13.  The loop that v4 runs on [pid_list] when a child is reaped
    keeps the length of the list, overwrites with -1 the first entry equal
    to the pid if that entry lies among the first [numProcesses] ones, and
    changes nothing when the pid is not among those. *)
Theorem clear_pid_marks_first_match (n : nat) (p : Z) (pid_list : list Z) :
  length (clear_pid n p pid_list) = length pid_list /\
  (forall pre post,
     pid_list = pre ++ p :: post -> p ∉ pre -> (length pre < n)%nat ->
     clear_pid n p pid_list = pre ++ -1 :: post) /\
  (p ∉ take n pid_list -> clear_pid n p pid_list = pid_list).
Proof.
  split; [| split].
  - revert pid_list. induction n as [| n IH]; intros [| x l]; simpl; try reflexivity.
    destruct (x =? p); simpl; [reflexivity | rewrite IH; reflexivity].
  - revert pid_list. induction n as [| n IH]; intros l pre post Hl Hp Hn; [lia |].
    destruct pre as [| y pre]; simpl in Hl; subst l; simpl.
    + rewrite Z.eqb_refl. reflexivity.
    + apply not_elem_of_cons in Hp as [Hne Hp].
      destruct (y =? p) eqn:E; [apply Z.eqb_eq in E; congruence |].
      f_equal. apply (IH _ pre post); [reflexivity | exact Hp | simpl in Hn; lia].
  - revert pid_list. induction n as [| n IH]; intros [| x l] Hp; simpl; try reflexivity.
    simpl in Hp. apply not_elem_of_cons in Hp as [Hne Hp].
    destruct (x =? p) eqn:E; [apply Z.eqb_eq in E; congruence |].
    f_equal. apply IH. exact Hp.
Qed.

Lemma clear_pid_marks_first_match_witness :
  clear_pid 2 102 [101; 102; 103] = [101; -1; 103] /\
  clear_pid 2 103 [101; 102; 103] = [101; 102; 103].
Proof.
  destruct (clear_pid_marks_first_match 2 102 [101; 102; 103]) as (_ & H & _).
  destruct (clear_pid_marks_first_match 2 103 [101; 102; 103]) as (_ & _ & G).
  split.
  - apply (H [101] [103]); [reflexivity | | simpl; lia].
    apply (bool_decide_unpack _). vm_compute. exact I.
  - apply G. apply (bool_decide_unpack _). vm_compute. exact I.
Defined.

(** *** Launch *)

Lemma launch_loop_app pre rest st :
  fst (launch_loop pre st) = None ->
  launch_loop (pre ++ rest) st = launch_loop rest (snd (launch_loop pre st)).
Proof.
  revert st. induction pre as [| l pre IH]; intros st H; [reflexivity |].
  cbn [app launch_loop] in *.
  destruct (fork_res l =? -1); [discriminate H |].
  destruct (fork_res l =? 0); [discriminate H |].
  destruct (q_enqueue None (launch_grow_ok l) (queue (log (EFork (fork_res l)) st))
              (Some (mkChild (fork_res l) 0 false false))) as [status q].
  apply IH. exact H.
Qed.

Lemma launch_loop_quiet lines st :
  dispatched (trace (snd (launch_loop lines st))) = dispatched (trace st) /\
  freed (trace (snd (launch_loop lines st))) = freed (trace st) /\
  (fst (launch_loop lines st) = None \/
   fst (launch_loop lines st) = Some (Exited EXIT_FAILURE) \/
   fst (launch_loop lines st) = Some InChild).
Proof.
  revert st. induction lines as [| l lines IH]; intros st; [simpl; auto |].
  cbn [launch_loop].
  destruct (fork_res l =? -1).
  { cbn [fst snd log trace]. rewrite !dispatched_app, !freed_app. simpl.
    rewrite !app_nil_r. auto. }
  destruct (fork_res l =? 0).
  { cbn [fst snd log trace]. rewrite !dispatched_app, !freed_app. simpl.
    rewrite !app_nil_r. auto. }
  destruct (q_enqueue None (launch_grow_ok l) (queue (log (EFork (fork_res l)) st))
              (Some (mkChild (fork_res l) 0 false false))) as [status q].
  destruct (IH (log (EEnqueue (mkChild (fork_res l) 0 false false) status)
                  (set_queue q (log (EFork (fork_res l)) st)))) as (H1 & H2 & H3).
  rewrite H1, H2. cbn [log trace set_queue]. rewrite !dispatched_app, !freed_app. simpl.
  rewrite !app_nil_r. auto.
Qed.

Lemma holds_count st cs : holds st cs -> count (queue st) = Z.of_nat (length cs).
Proof.
  intros [Hwf Hc]. rewrite <- (count_contents None _ Hwf), Hc, length_fmap.
  reflexivity.
Qed.

(** Whatever the allocator and [fork] answer, launch leaves a well-formed
    queue of PCBs. *)
Lemma launch_loop_holds lines st cs :
  holds st cs ->
  count (queue st) + Z.of_nat (length lines) <= 2 ^ 30 ->
  exists cs', holds (snd (launch_loop lines st)) cs'.
Proof.
  revert st cs. induction lines as [| l lines IH]; intros st cs Hh Hb; [simpl; eauto |].
  cbn [launch_loop].
  destruct (fork_res l =? -1); [exists cs; exact Hh |].
  destruct (fork_res l =? 0); [exists cs; exact Hh |].
  destruct Hh as [Hwf Hc].
  destruct (q_enqueue_any None (launch_grow_ok l) (queue st)
              (Some (mkChild (fork_res l) 0 false false)) Hwf)
    as (status & q & He & Hwf' & _ & Hc' & _).
  { cbn [length] in Hb. lia. }
  cbn [queue log]. rewrite He.
  assert (Hh' : holds (log (EEnqueue (mkChild (fork_res l) 0 false false) status)
                         (set_queue q (log (EFork (fork_res l)) st)))
                      (if status then cs ++ [mkChild (fork_res l) 0 false false] else cs)).
  { split; [exact Hwf' |]. cbn [queue log set_queue]. rewrite Hc', Hc.
    destruct status; [rewrite fmap_app |]; reflexivity. }
  apply (IH _ _ Hh').
  rewrite (holds_count _ _ Hh'). rewrite (holds_count st cs (conj Hwf Hc)) in Hb.
  cbn [length] in Hb. destruct status; rewrite ?length_app; simpl; lia.
Qed.

Lemma launch_loop_valid lines st cs :
  holds st cs ->
  forallb valid_fork lines = true ->
  forallb launch_grow_ok lines = true ->
  count (queue st) + Z.of_nat (length lines) <= 2 ^ 30 ->
  fst (launch_loop lines st) = None /\
  holds (snd (launch_loop lines st)) (cs ++ (pcb_of <$> (fork_res <$> lines))) /\
  launched (trace (snd (launch_loop lines st))) =
    launched (trace st) ++ (fork_res <$> lines).
Proof.
  revert st cs. induction lines as [| l lines IH]; intros st cs Hh Hv Hg Hb.
  - simpl. rewrite !app_nil_r. auto.
  - simpl in Hv, Hg. apply andb_true_iff in Hv as [Hv1 Hv], Hg as [Hg1 Hg].
    unfold valid_fork in Hv1. apply negb_true_iff, orb_false_iff in Hv1 as [E1 E0].
    cbn [launch_loop]. rewrite E1, E0, Hg1.
    destruct Hh as [Hwf Hc].
    destruct (q_enqueue_spec None (queue st) (Some (mkChild (fork_res l) 0 false false)) Hwf)
      as (q & He & Hwf' & Hc' & Hn).
    { cbn [length] in Hb. lia. }
    cbn [queue log]. rewrite He.
    destruct (IH (log (EEnqueue (mkChild (fork_res l) 0 false false) true)
                    (set_queue q (log (EFork (fork_res l)) st)))
                 (cs ++ [pcb_of (fork_res l)])) as (H1 & H2 & H3).
    + split; [exact Hwf' |]. cbn [queue log set_queue]. rewrite Hc', Hc, fmap_app. reflexivity.
    + exact Hv.
    + exact Hg.
    + cbn [queue log set_queue]. cbn [length] in Hb. lia.
    + split; [exact H1 |]. rewrite !fmap_cons. split.
      * rewrite <- app_assoc in H2. exact H2.
      * rewrite H3. cbn [log trace set_queue]. rewrite !launched_app.
        rewrite (launched_fork_valid _ E1 E0). simpl. rewrite app_nil_r, <- app_assoc.
        reflexivity.
Qed.

Lemma pid_pcb_of (l : list Z) : pid <$> (pcb_of <$> l) = l.
Proof. induction l as [| p l IH]; [reflexivity |]. rewrite !fmap_cons, IH. reflexivity. Qed.

(** X8.  When every [fork] returns a pid to the parent and no
    reallocation of the queue fails, the launch loop leaves the PCBs in the
    ready queue in the order of the command lines, behind those already
    there, each with its pid and a run time of 0, and it resumes no
    process. *)
Theorem launch_queues_in_command_order lines st cs :
  holds st cs ->
  forallb valid_fork lines = true ->
  forallb launch_grow_ok lines = true ->
  count (queue st) + Z.of_nat (length lines) <= 2 ^ 30 ->
  fst (launch_loop lines st) = None /\
  holds (snd (launch_loop lines st)) (cs ++ (pcb_of <$> (fork_res <$> lines))) /\
  ready_pids (snd (launch_loop lines st)) = ready_pids st ++ (fork_res <$> lines) /\
  dispatched (trace (snd (launch_loop lines st))) = dispatched (trace st).
Proof.
  intros Hh Hv Hg Hb.
  destruct (launch_loop_valid lines st cs Hh Hv Hg Hb) as (H1 & H2 & _).
  split; [exact H1 |]. split; [exact H2 |]. split.
  - rewrite (ready_pids_holds _ _ H2), (ready_pids_holds _ _ Hh), fmap_app.
    f_equal. apply pid_pcb_of.
  - apply launch_loop_quiet.
Qed.

Lemma initial_state_holds d tr : holds (initial_state d tr) [].
Proof.
  split; [| reflexivity]. apply newQueue_wf. rewrite INT_MAX_val. unfold MAX_PROCESSES. lia.
Qed.

Lemma launch_queues_in_command_order_witness :
  ready_pids (snd (launch_loop three_commands (initial_state 50 []))) = [101; 102; 103].
Proof.
  destruct (launch_queues_in_command_order three_commands (initial_state 50 []) [])
    as (_ & _ & H & _).
  - apply initial_state_holds.
  - reflexivity.
  - reflexivity.
  - vm_compute. congruence.
  - rewrite H. reflexivity.
Defined.

Lemma launch_loop_fork_fails l post st :
  fork_res l = -1 ->
  launch_loop (l :: post) st =
    (Some (Exited EXIT_FAILURE),
     log (EPutstr 2 "Error creating child process") (log (EFork (-1)) st)).
Proof. intros H. cbn [launch_loop]. rewrite H. reflexivity. Qed.

(** X9.  When a [fork] fails the launch loop reports it and [main]
    returns [EXIT_FAILURE] at once: the commands after it are not forked,
    and the children already created stay in the queue, stopped, none of
    them resumed or reaped. *)
Theorem fork_failure_abandons_the_children pre l post st cs :
  holds st cs ->
  forallb valid_fork pre = true ->
  forallb launch_grow_ok pre = true ->
  count (queue st) + Z.of_nat (length pre) <= 2 ^ 30 ->
  fork_res l = -1 ->
  fst (launch_loop (pre ++ l :: post) st) = Some (Exited EXIT_FAILURE) /\
  ready_pids (snd (launch_loop (pre ++ l :: post) st)) = ready_pids st ++ (fork_res <$> pre) /\
  launched (trace (snd (launch_loop (pre ++ l :: post) st))) =
    launched (trace st) ++ (fork_res <$> pre) /\
  dispatched (trace (snd (launch_loop (pre ++ l :: post) st))) = dispatched (trace st) /\
  freed (trace (snd (launch_loop (pre ++ l :: post) st))) = freed (trace st).
Proof.
  intros Hh Hv Hg Hb Hl.
  destruct (launch_loop_valid pre st cs Hh Hv Hg Hb) as (H1 & H2 & H3).
  pose proof (launch_loop_quiet (pre ++ l :: post) st) as (Hd & Hf & _).
  rewrite (launch_loop_app pre (l :: post) st H1) in *.
  rewrite (launch_loop_fork_fails l post _ Hl) in *. cbn [fst snd] in *.
  split; [reflexivity |]. split; [| split; [| split; [exact Hd | exact Hf]]].
  - rewrite (ready_pids_holds _ (cs ++ (pcb_of <$> (fork_res <$> pre)))) by exact H2.
    rewrite (ready_pids_holds _ _ Hh), fmap_app. f_equal. apply pid_pcb_of.
  - cbn [log trace]. rewrite !launched_app, H3. simpl. rewrite !app_nil_r. reflexivity.
Qed.

Lemma fork_failure_abandons_the_children_witness :
  fst (launch_loop second_fork_fails (initial_state 50 [])) = Some (Exited EXIT_FAILURE) /\
  ready_pids (snd (launch_loop second_fork_fails (initial_state 50 []))) = [101].
Proof.
  destruct (fork_failure_abandons_the_children [mkLaunch 101 true] (mkLaunch (-1) true)
              [mkLaunch 103 true] (initial_state 50 []) []) as (H1 & H2 & _).
  - apply initial_state_holds.
  - reflexivity.
  - reflexivity.
  - vm_compute. congruence.
  - reflexivity.
  - split; [exact H1 |]. etransitivity; [exact H2 | reflexivity].
Defined.

(** *** The dispatch loop *)

Lemma freed_turn Q t e c wevs :
  forallb wait_event wevs = true ->
  freed (turn_events Q t e c wevs) = if wait_res e =? 0 then [] else [pid c].
Proof.
  intros H. destruct (wait_events_views wevs H) as (_ & Hf & _).
  unfold turn_events. rewrite !freed_app, Hf.
  destruct (wait_res e =? 0); reflexivity.
Qed.

(** X10.  When every process ends within its first quantum the run is
    one pass over the queue: each process is resumed once and its PCB freed,
    in queue order, and the loop ends with the queue empty and [main]
    about to return 0. *)
Theorem all_exit_in_first_quantum Q t env st cs :
  holds st cs ->
  forallb exits_at_once env = true ->
  (length cs <= length env)%nat ->
  fst (sched_loop Q t env st) = Exited 0 /\
  holds (snd (sched_loop Q t env st)) [] /\
  dispatched (trace (snd (sched_loop Q t env st))) = dispatched (trace st) ++ (pid <$> cs) /\
  freed (trace (snd (sched_loop Q t env st))) = freed (trace st) ++ (pid <$> cs).
Proof.
  revert st env. induction cs as [| c cs IH]; intros st env Hh He Hlen.
  - rewrite (sched_loop_empty _ _ _ _ Hh). simpl. rewrite !app_nil_r. auto.
  - destruct env as [| e env]; [simpl in Hlen; lia |].
    simpl in He. apply andb_true_iff in He as [He1 He].
    unfold exits_at_once in He1. apply andb_true_iff in He1 as [Hends Hres].
    apply negb_true_iff in Hres.
    rewrite (sched_loop_turn _ _ _ _ _ _ _ Hh).
    destruct (wait_loop_ends Q e (dispatch t c (after_dequeue st)) Hends) as (st3 & Hw).
    rewrite Hw.
    destruct (turn_shape Q t e st c cs st3 Hh Hw) as (wevs & Hk & Htr & Hh').
    unfold turn_ready in Hh'. rewrite Hres in Hh'.
    destruct (IH _ env Hh' He) as (H1 & H2 & H3 & H4); [simpl in Hlen; lia |].
    split; [exact H1 |]. split; [exact H2 |].
    rewrite H3, H4, Htr, dispatched_app, freed_app, dispatched_turn, freed_turn by exact Hk.
    rewrite Hres, fmap_cons, <- !app_assoc. auto.
Qed.

Lemma all_exit_in_first_quantum_witness :
  fst (run_v3 50 100 three_commands three_exits []) = Exited 0 /\
  freed (trace (snd (run_v3 50 100 three_commands three_exits []))) = [101; 102; 103].
Proof.
  destruct (all_exit_in_first_quantum 100 (set_up_timer 100) three_exits
              (log EClose (snd (launch_loop three_commands (initial_state 50 []))))
              (pcb_of <$> [101; 102; 103])) as (H1 & _ & _ & H4).
  - split; [| reflexivity].
    constructor; vm_compute; try reflexivity; split; congruence.
  - reflexivity.
  - simpl. lia.
  - split; [exact H1 |]. etransitivity; [exact H4 | reflexivity].
Defined.

Lemma sched_loop_status Q t env st :
  fst (sched_loop Q t env st) = Exited 0 \/
  fst (sched_loop Q t env st) = Running \/
  fst (sched_loop Q t env st) = Crashed.
Proof.
  revert st. induction env as [| e env IH]; intros st; cbn [sched_loop].
  - destruct (q_isEmpty (queue st)); auto.
  - destruct (q_isEmpty (queue st)); [auto |].
    destruct (q_dequeue None (queue st) None) as [[b child] q].
    destruct child as [c |]; [| auto].
    destruct (wait_loop Q (polls e) _); [apply IH | auto].
Qed.

(** X11.  [main] fails only before it schedules.  Whenever it returns
    [EXIT_FAILURE] no process has been resumed; and when the commands file
    cannot be opened or a buffer cannot be allocated it returns
    [EXIT_FAILURE] without having forked. *)
Theorem failure_comes_before_dispatch d env :
  (fst (main_v3 d env) = Exited EXIT_FAILURE -> dispatched (snd (main_v3 d env)) = []) /\
  (forall Q, resolve_quantum (opts env) (quant_env env) = inr Q ->
     file_open env = Some (-1) \/ arguments_ok env = false \/ line_ok env = false ->
     fst (main_v3 d env) = Exited EXIT_FAILURE /\ launched (snd (main_v3 d env)) = []).
Proof.
  split.
  - unfold main_v3.
    destruct (resolve_quantum (opts env) (quant_env env)) as [msg | Q]; [reflexivity |].
    destruct (file_open env) as [r |]; simpl.
    + destruct (r =? -1); [reflexivity |].
      destruct (arguments_ok env); [| reflexivity]. simpl.
      destruct (line_ok env); [| reflexivity]. simpl.
      unfold run_v3.
      pose proof (launch_loop_quiet (lines env) (initial_state d [EOpen r])) as (Hd & _ & _).
      destruct (launch_loop (lines env) (initial_state d [EOpen r])) as [[s |] st].
      * intros _. exact Hd.
      * pose proof (sched_loop_status Q (set_up_timer Q) (dispatches env) (log EClose st)) as Hs.
        destruct (sched_loop Q (set_up_timer Q) (dispatches env) (log EClose st)) as [s st'].
        cbn [fst snd] in *. intros ->. destruct Hs as [Hs | [Hs | Hs]]; discriminate Hs.
    + destruct (arguments_ok env); [| reflexivity]. simpl.
      destruct (line_ok env); [| reflexivity]. simpl.
      unfold run_v3.
      pose proof (launch_loop_quiet (lines env) (initial_state d [])) as (Hd & _ & _).
      destruct (launch_loop (lines env) (initial_state d [])) as [[s |] st].
      * intros _. exact Hd.
      * pose proof (sched_loop_status Q (set_up_timer Q) (dispatches env) (log EClose st)) as Hs.
        destruct (sched_loop Q (set_up_timer Q) (dispatches env) (log EClose st)) as [s st'].
        cbn [fst snd] in *. intros ->. destruct Hs as [Hs | [Hs | Hs]]; discriminate Hs.
  - intros Q HQ Hfail. unfold main_v3. rewrite HQ.
    destruct Hfail as [Hf | [Hf | Hf]].
    + rewrite Hf. simpl. auto.
    + rewrite Hf. destruct (file_open env) as [r |]; simpl; [destruct (r =? -1) |]; auto.
    + rewrite Hf. destruct (file_open env) as [r |]; simpl;
        [destruct (r =? -1) |]; destruct (arguments_ok env); auto.
Qed.

Lemma failure_comes_before_dispatch_witness :
  dispatched (snd (main_v3 50 env_no_file)) = [] /\
  launched (snd (main_v3 50 env_no_file)) = [].
Proof.
  destruct (failure_comes_before_dispatch 50 env_no_file) as [H1 H2].
  split.
  - apply H1. reflexivity.
  - apply (H2 500); [reflexivity | left; reflexivity].
Defined.

(** *** Run time accounting of v3 *)

Lemma f32_round_exact x : 0 <= x < 2 ^ 24 -> f32_round x = x.
Proof.
  intros H. apply f32_round_small. rewrite Z.abs_eq by lia.
  destruct (Z.eq_dec x 0) as [-> | Hne]; [simpl; lia |].
  apply Z.log2_lt_pow2; lia.
Qed.

Lemma add_quantum_exact Q c :
  0 <= Q -> 0 <= totalCPUTime c -> totalCPUTime c + Z.quot Q 1000 < 2 ^ 24 ->
  pid (add_quantum Q c) = pid c /\
  totalCPUTime (add_quantum Q c) = totalCPUTime c + Z.quot Q 1000.
Proof.
  intros HQ Ht Hb. split; [reflexivity |].
  assert (Hq : 0 <= Z.quot Q 1000) by (apply Z.quot_pos; lia).
  unfold add_quantum, f32_add, f32_of_int. cbn [totalCPUTime].
  rewrite (f32_round_exact (Z.quot Q 1000)) by lia.
  apply f32_round_exact. lia.
Qed.

(** X12.  The run time that v3 keeps for a process counts whole seconds
    only.  A process alone in the queue that is preempted at the end of
    each of [n] quanta of [Q] milliseconds is back in the queue with
    [totalCPUTime] raised by [n] times [Q / 1000] (integer division), as
    long as that stays below 2^24; for a quantum below one second it never
    moves. *)
Theorem lone_process_cpu_time Q t env st c :
  holds st [c] ->
  forallb still_running env = true ->
  0 <= Q -> 0 <= totalCPUTime c ->
  totalCPUTime c + Z.of_nat (length env) * Z.quot Q 1000 < 2 ^ 24 ->
  fst (sched_loop Q t env st) = Running /\
  exists c', holds (snd (sched_loop Q t env st)) [c'] /\ pid c' = pid c /\
    totalCPUTime c' = totalCPUTime c + Z.of_nat (length env) * Z.quot Q 1000.
Proof.
  intros Hh He HQ. revert st c Hh.
  assert (Hq : 0 <= Z.quot Q 1000) by (apply Z.quot_pos; lia).
  induction env as [| e env IH]; intros st c Hh Ht Hb.
  - rewrite (sched_loop_stalled _ _ _ _ _ Hh). split; [reflexivity |].
    exists c. simpl. split; [exact Hh |]. split; [reflexivity | lia].
  - simpl in He. apply andb_true_iff in He as [He1 He].
    unfold still_running in He1. apply andb_true_iff in He1 as [Hends Hres].
    rewrite (sched_loop_turn _ _ _ _ _ _ _ Hh).
    destruct (wait_loop_ends Q e (dispatch t c (after_dequeue st)) Hends) as (st3 & Hw).
    rewrite Hw.
    destruct (turn_shape Q t e st c [] st3 Hh Hw) as (wevs & _ & _ & Hh').
    unfold turn_ready in Hh'. rewrite Hres in Hh'. cbn [app] in Hh'.
    cbn [length] in Hb. rewrite Nat2Z.inj_succ in Hb.
    destruct (add_quantum_exact Q c HQ Ht) as [Hp Hadd]; [nia |].
    destruct (IH He _ _ Hh') as (H1 & c' & H2 & H3 & H4); [lia | rewrite Hadd; nia |].
    split; [exact H1 |]. exists c'. split; [exact H2 |]. split; [congruence |].
    rewrite H4, Hadd. cbn [length]. rewrite Nat2Z.inj_succ. lia.
Qed.

Lemma lone_process_cpu_time_witness :
  exists c', holds (snd (sched_loop 2500 (set_up_timer 2500) [expires; expires; expires]
                           one_launched)) [c'] /\
             pid c' = 101 /\ totalCPUTime c' = 6.
Proof.
  destruct (lone_process_cpu_time 2500 (set_up_timer 2500) [expires; expires; expires]
              one_launched (pcb_of 101)) as (_ & c' & H1 & H2 & H3).
  - split; [| reflexivity].
    constructor; vm_compute; try reflexivity; split; congruence.
  - reflexivity.
  - lia.
  - simpl. lia.
  - vm_compute. reflexivity.
  - exists c'. split; [exact H1 |]. split; [exact H2 |]. rewrite H3. reflexivity.
Defined.

(** *** What the dispatch loop never does *)

Lemma q_enqueue_room_any {A : Type} (junk : A) ok ok' (qd : QData A) x :
  count qd < size qd -> q_enqueue junk ok qd x = q_enqueue junk ok' qd x.
Proof.
  intros H. unfold q_enqueue.
  destruct (count qd <? size qd) eqn:E; [reflexivity | lia].
Qed.

Lemma after_dequeue_size st c cs :
  holds st (c :: cs) ->
  size (queue (after_dequeue st)) = size (queue st) /\
  count (queue (after_dequeue st)) < size (queue (after_dequeue st)) /\
  wf (queue (after_dequeue st)).
Proof.
  intros Hh. pose proof (holds_count _ _ Hh) as Hn. destruct Hh as [Hwf Hc].
  destruct (q_dequeue_spec None (queue st) None (Some c) (fmap (M:=list) Some cs) Hwf Hc)
    as (q & Hd & Hwf' & Hc' & Hs).
  unfold after_dequeue. rewrite Hd. cbn [queue log set_queue].
  split; [exact Hs |]. split; [| exact Hwf'].
  pose proof (count_contents None q Hwf') as Hq.
  rewrite Hc', length_fmap in Hq. cbn [length] in Hn. destruct Hwf. lia.
Qed.

Lemma turn_no_alloc Q t e st c cs st3 :
  holds st (c :: cs) ->
  wait_loop Q (polls e) (dispatch t c (after_dequeue st)) = Some st3 ->
  reap_or_requeue Q e c st3 = reap_or_requeue Q (no_alloc e) c st3 /\
  size (queue (reap_or_requeue Q e c st3)) = size (queue st).
Proof.
  intros Hh Hw.
  destruct (after_dequeue_size st c cs Hh) as (Hs & Hroom & Hwf).
  destruct (wait_loop_extends _ _ _ _ Hw) as ([Hqueue _ _ _] & _ & _).
  assert (Hq3 : queue st3 = queue (after_dequeue st)) by (rewrite Hqueue; reflexivity).
  unfold reap_or_requeue. cbn [wait_res grow_ok no_alloc queue log].
  destruct (wait_res e =? 0).
  - rewrite (q_enqueue_room_any None (grow_ok e) false) by (rewrite Hq3; exact Hroom).
    split; [reflexivity |].
    destruct (q_enqueue_room None false (queue st3) (Some (add_quantum Q c)))
      as (q' & He & _ & Hs' & _); [rewrite Hq3; assumption .. |].
    rewrite He. cbn [queue log set_queue]. rewrite Hs', Hq3. exact Hs.
  - split; [reflexivity |]. cbn [queue log]. rewrite Hq3. exact Hs.
Qed.

(** X16.  Scheduling never allocates.  The dispatch loop puts a PCB back
    only into the slot it has just taken it from, so what it does is the
    same with an allocator that always fails, and the capacity of the queue
    stays what it was after launch. *)
Theorem scheduling_never_allocates Q t env st cs :
  holds st cs ->
  sched_loop Q t env st = sched_loop Q t (no_alloc <$> env) st /\
  size (queue (snd (sched_loop Q t env st))) = size (queue st).
Proof.
  revert st cs. induction env as [| e env IH]; intros st cs Hh.
  - split; [reflexivity |]. destruct cs as [| c cs].
    + rewrite (sched_loop_empty _ _ _ _ Hh). reflexivity.
    + rewrite (sched_loop_stalled _ _ _ _ _ Hh). reflexivity.
  - destruct cs as [| c cs].
    + rewrite !(sched_loop_empty _ _ _ _ Hh). auto.
    + rewrite fmap_cons, !(sched_loop_turn _ _ _ _ _ _ _ Hh).
      change (polls (no_alloc e)) with (polls e).
      destruct (wait_loop Q (polls e) (dispatch t c (after_dequeue st))) as [st3 |] eqn:Hw.
      * destruct (turn_no_alloc Q t e st c cs st3 Hh Hw) as [Heq Hs].
        destruct (turn_shape Q t e st c cs st3 Hh Hw) as (_ & _ & _ & Hh').
        destruct (IH _ _ Hh') as [IH1 IH2].
        rewrite <- Heq, <- IH1, IH2. auto.
      * split; [reflexivity |]. cbn [snd]. unfold dispatch. cbn [queue log set_childRunning
          set_timeLeft]. apply (after_dequeue_size st c cs Hh).
Qed.

Lemma scheduling_never_allocates_witness :
  size (queue (snd (sched_loop 500 (0, 500000) (dispatches env_two_by_three) two_launched)))
  = 128.
Proof.
  destruct (scheduling_never_allocates 500 (0, 500000) (dispatches env_two_by_three)
              two_launched two_pcbs) as [_ H].
  - split; [| reflexivity].
    constructor; vm_compute; try reflexivity; split; congruence.
  - rewrite H. reflexivity.
Defined.

Lemma sched_loop_holds Q t env st cs :
  holds st cs ->
  fst (sched_loop Q t env st) <> Crashed /\
  exists cs', holds (snd (sched_loop Q t env st)) cs'.
Proof.
  revert st cs. induction env as [| e env IH]; intros st cs Hh.
  - destruct cs as [| c cs].
    + rewrite (sched_loop_empty _ _ _ _ Hh). split; [discriminate | eauto].
    + rewrite (sched_loop_stalled _ _ _ _ _ Hh). split; [discriminate | eauto].
  - destruct cs as [| c cs].
    + rewrite (sched_loop_empty _ _ _ _ Hh). split; [discriminate | eauto].
    + rewrite (sched_loop_turn _ _ _ _ _ _ _ Hh).
      destruct (wait_loop Q (polls e) (dispatch t c (after_dequeue st))) as [st3 |] eqn:Hw.
      * destruct (turn_shape Q t e st c cs st3 Hh Hw) as (_ & _ & _ & Hh').
        apply (IH _ _ Hh').
      * split; [discriminate |]. exists cs. apply (stalled_shape t st c cs Hh).
Qed.

Lemma launch_loop_unchecked_ok lines st :
  forallb snd lines = true ->
  launch_loop_unchecked true lines st = launch_loop (fst <$> lines) st.
Proof.
  revert st. induction lines as [| [l ok] lines IH]; intros st H; [reflexivity |].
  simpl in H. apply andb_true_iff in H as [-> H].
  rewrite fmap_cons. cbn [launch_loop_unchecked launch_loop fst negb].
  destruct (fork_res l =? -1); [reflexivity |].
  destruct (fork_res l =? 0); [reflexivity |].
  destruct (q_enqueue None (launch_grow_ok l) (queue (log (EFork (fork_res l)) st))
              (Some (mkChild (fork_res l) 0 false false))) as [status q].
  apply IH. exact H.
Qed.

Lemma launch_loop_unchecked_null lines st :
  forallb (fun l => valid_fork (fst l)) lines = true ->
  fst (launch_loop_unchecked false lines st) = None /\ lines = [] \/
  fst (launch_loop_unchecked false lines st) = Some Crashed.
Proof.
  destruct lines as [| [l ok] lines]; intros H; [left; auto |]. right.
  simpl in H. apply andb_true_iff in H as [H _].
  unfold valid_fork in H. apply negb_true_iff, orb_false_iff in H as [E1 E0].
  cbn [launch_loop_unchecked]. rewrite E1, E0. destruct ok; reflexivity.
Qed.

(** X15.  [main] uses the results of [ArrayQueue] (line 94) and of
    [malloc(sizeof(ChildProcess))] (line 159) unchecked, and a run of v3
    dereferences no other NULL pointer.  When both allocations succeed
    then, whatever [fork], the reallocation of the queue, [waitpid] and the
    signals do, the [dequeue] under the loop guard yields a PCB, the queue
    stays well formed, and the run ends with [main] returned, in the child
    of a [fork], or still going.  A run that crashes has had one of the two
    allocations fail; and when the queue could not be created and every
    [fork] returns a pid, the run crashes. *)
Theorem run_never_takes_null d Q queue_ok lines env tr :
  Z.of_nat (length lines) <= 2 ^ 30 ->
  (queue_ok = true -> forallb snd lines = true ->
     run_v3_unchecked d Q queue_ok lines env tr = run_v3 d Q (fst <$> lines) env tr /\
     fst (run_v3_unchecked d Q queue_ok lines env tr) <> Crashed /\
     exists cs, holds (snd (run_v3_unchecked d Q queue_ok lines env tr)) cs) /\
  (fst (run_v3_unchecked d Q queue_ok lines env tr) = Crashed ->
     queue_ok = false \/ forallb snd lines = false) /\
  (queue_ok = false -> forallb (fun l => valid_fork (fst l)) lines = true ->
     fst (run_v3_unchecked d Q queue_ok lines env tr) = Crashed).
Proof.
  intros Hb.
  assert (Hok : queue_ok = true -> forallb snd lines = true ->
     run_v3_unchecked d Q queue_ok lines env tr = run_v3 d Q (fst <$> lines) env tr /\
     fst (run_v3_unchecked d Q queue_ok lines env tr) <> Crashed /\
     exists cs, holds (snd (run_v3_unchecked d Q queue_ok lines env tr)) cs).
  { intros -> Hall.
    assert (Heq : run_v3_unchecked d Q true lines env tr = run_v3 d Q (fst <$> lines) env tr).
    { unfold run_v3_unchecked, run_v3. rewrite (launch_loop_unchecked_ok _ _ Hall).
      reflexivity. }
    split; [exact Heq |]. rewrite Heq. unfold run_v3.
    destruct (launch_loop_holds (fst <$> lines) (initial_state d tr) []
                (initial_state_holds d tr)) as [cs Hh].
    { rewrite length_fmap. simpl. lia. }
    pose proof (launch_loop_quiet (fst <$> lines) (initial_state d tr)) as (_ & _ & Hst).
    destruct (launch_loop (fst <$> lines) (initial_state d tr)) as [[s |] st];
      cbn [fst snd] in *.
    - split; [| eauto]. destruct Hst as [Hst | [Hst | Hst]]; congruence.
    - apply (sched_loop_holds Q (set_up_timer Q) env (log EClose st) cs). exact Hh. }
  split; [exact Hok |]. split.
  - intros Hc. destruct queue_ok; [| auto]. right.
    apply not_true_is_false. intros Hall.
    destruct (Hok eq_refl Hall) as (_ & Hne & _). contradiction.
  - intros -> Hv. unfold run_v3_unchecked.
    destruct (launch_loop_unchecked_null lines (initial_state d tr) Hv) as [[H _] | H].
    + destruct (launch_loop_unchecked false lines (initial_state d tr)) as [o st].
      cbn [fst] in H. subst o. reflexivity.
    + destruct (launch_loop_unchecked false lines (initial_state d tr)) as [o st].
      cbn [fst] in H. subst o. reflexivity.
Qed.

Lemma run_never_takes_null_witness :
  fst (run_v3_unchecked 50 500 true [(mkLaunch 101 true, true); (mkLaunch (-1) true, true)]
         [expires] []) <> Crashed /\
  forallb snd second_pcb_null = false.
Proof.
  pose proof (run_never_takes_null 50 500 true
                [(mkLaunch 101 true, true); (mkLaunch (-1) true, true)] [expires] [])
    as (H1 & _).
  { vm_compute. congruence. }
  pose proof (run_never_takes_null 50 500 true second_pcb_null [expires] [])
    as (_ & H2 & _).
  { vm_compute. congruence. }
  split.
  - apply H1; reflexivity.
  - destruct (H2 eq_refl) as [H | H]; [discriminate H | exact H].
Defined.

(** *** Turns and termination *)

(** X17.  One turn of the dispatch loop rotates the queue.  The PCB at
    the front is resumed; if its exit check returns 0 it is stopped and put
    at the back, behind all the others in their order, with the same pid;
    if not it is freed and the others move up. *)
Theorem one_turn_rotates_the_queue Q t e st c cs :
  holds st (c :: cs) ->
  wait_ends e = true ->
  holds (snd (sched_loop Q t [e] st))
        (if wait_res e =? 0 then cs ++ [add_quantum Q c] else cs) /\
  pid (add_quantum Q c) = pid c /\
  dispatched (trace (snd (sched_loop Q t [e] st))) = dispatched (trace st) ++ [pid c] /\
  freed (trace (snd (sched_loop Q t [e] st))) =
    freed (trace st) ++ (if wait_res e =? 0 then [] else [pid c]).
Proof.
  intros Hh Hends.
  rewrite (sched_loop_turn _ _ _ _ _ _ _ Hh).
  destruct (wait_loop_ends Q e (dispatch t c (after_dequeue st)) Hends) as (st3 & Hw).
  rewrite Hw.
  destruct (turn_shape Q t e st c cs st3 Hh Hw) as (wevs & Hk & Htr & Hh').
  unfold turn_ready in Hh'.
  assert (Hsame : snd (sched_loop Q t [] (reap_or_requeue Q e c st3)) =
                  reap_or_requeue Q e c st3).
  { cbn [sched_loop]. destruct (q_isEmpty (queue (reap_or_requeue Q e c st3))); reflexivity. }
  rewrite Hsame, Htr, dispatched_app, freed_app, dispatched_turn, freed_turn by exact Hk.
  auto.
Qed.

Lemma one_turn_rotates_the_queue_witness :
  ready_pids (snd (sched_loop 500 (0, 500000) [expires] two_launched)) = [102; 101].
Proof.
  destruct (one_turn_rotates_the_queue 500 (0, 500000) expires two_launched
              (pcb_of 101) [pcb_of 102]) as (H & _).
  - split; [| reflexivity].
    constructor; vm_compute; try reflexivity; split; congruence.
  - reflexivity.
  - rewrite (ready_pids_holds _ _ H). reflexivity.
Defined.

(** X18.  Termination.  If every wait ends, the loop drains the queue
    and [main] returns 0 as soon as as many exit checks have found their
    child gone as there are processes: by then each PCB has been freed. *)
Theorem scheduler_terminates Q t env st cs :
  holds st cs ->
  forallb wait_ends env = true ->
  (length cs <= exits_seen env)%nat ->
  fst (sched_loop Q t env st) = Exited 0 /\
  holds (snd (sched_loop Q t env st)) [] /\
  length (freed (trace (snd (sched_loop Q t env st)))) =
    (length (freed (trace st)) + length cs)%nat.
Proof.
  revert st cs. induction env as [| e env IH]; intros st cs Hh He Hlen.
  - destruct cs as [| c cs]; [| unfold exits_seen in Hlen; simpl in Hlen; lia].
    rewrite (sched_loop_empty _ _ _ _ Hh). simpl. auto.
  - destruct cs as [| c cs].
    { rewrite (sched_loop_empty _ _ _ _ Hh). simpl. auto. }
    simpl in He. apply andb_true_iff in He as [Hends He].
    rewrite (sched_loop_turn _ _ _ _ _ _ _ Hh).
    destruct (wait_loop_ends Q e (dispatch t c (after_dequeue st)) Hends) as (st3 & Hw).
    rewrite Hw.
    destruct (turn_shape Q t e st c cs st3 Hh Hw) as (wevs & Hk & Htr & Hh').
    unfold turn_ready in Hh'. unfold exits_seen in Hlen. cbn [List.filter] in Hlen.
    destruct (IH _ _ Hh' He) as (H1 & H2 & H3).
    + unfold exits_seen. destruct (wait_res e =? 0); cbn [negb length] in *;
        rewrite ?length_app; simpl; lia.
    + split; [exact H1 |]. split; [exact H2 |].
      rewrite H3, Htr, freed_app, freed_turn, length_app by exact Hk.
      destruct (wait_res e =? 0); rewrite ?length_app; simpl; lia.
Qed.

Lemma scheduler_terminates_witness :
  fst (sched_loop 500 (0, 500000) (dispatches env_two_by_three) two_launched) = Exited 0.
Proof.
  apply (scheduler_terminates 500 (0, 500000) (dispatches env_two_by_three)
           two_launched two_pcbs).
  - split; [| reflexivity].
    constructor; vm_compute; try reflexivity; split; congruence.
  - reflexivity.
  - vm_compute. lia.
Defined.

(** *** The bookkeeping of v4 *)

Lemma clear_pid_length n p l : length (clear_pid n p l) = length l.
Proof.
  revert l. induction n as [| n IH]; intros [| x l]; simpl; try reflexivity.
  destruct (x =? p); simpl; [reflexivity | rewrite IH; reflexivity].
Qed.

Lemma clear_pid_keeps_out n q p l : p <> -1 -> p ∉ l -> p ∉ clear_pid n q l.
Proof.
  intros Hp. revert l. induction n as [| n IH]; intros [| x l] H; simpl; try exact H.
  apply not_elem_of_cons in H as [Hne H].
  destruct (x =? q); apply not_elem_of_cons; split; auto.
Qed.

Lemma clear_pid_app_other n q p pre :
  q <> p -> clear_pid n q (pre ++ [p]) = clear_pid n q pre ++ [p].
Proof.
  intros Hq. revert pre. induction n as [| n IH]; intros [| x pre]; simpl; try reflexivity.
  - destruct (p =? q) eqn:E; [apply Z.eqb_eq in E; congruence | ].
    destruct n; reflexivity.
  - destruct (x =? q); [reflexivity | rewrite IH; reflexivity].
Qed.

Lemma clear_pid_beyond n p pre post :
  p ∉ pre -> (n <= length pre)%nat -> clear_pid n p (pre ++ post) = pre ++ post.
Proof.
  revert pre. induction n as [| n IH]; intros pre Hp Hn.
  - destruct (pre ++ post); reflexivity.
  - destruct pre as [| x pre]; [simpl in Hn; lia |].
    apply not_elem_of_cons in Hp as [Hne Hp]. simpl.
    destruct (x =? p) eqn:E; [apply Z.eqb_eq in E; congruence |].
    rewrite IH; [reflexivity | exact Hp | simpl in Hn; lia].
Qed.

(** X19.  v4 shrinks [numProcesses] at every reaping but never compacts
    [pid_list], so the scan for a pid stops short of the entries at the
    end.  When the process launched last is reaped after any other one, the
    scan does not reach its entry: its pid stays in [pid_list], which the
    second reaping leaves as it found it, while [numProcesses] has gone
    down by two. *)
Theorem last_pid_is_never_cleared e1 e2 c1 c2 pre st :
  pid c2 <> -1 ->
  pid c2 ∉ pre ->
  pid c1 <> pid c2 ->
  wait_res e1 <> 0 ->
  wait_res e2 <> 0 ->
  (1 <= length pre)%nat ->
  Z.of_nat (length pre) < LONG_MAX ->
  let r1 := reap_or_requeue_v4 e1 c1 (pre ++ [pid c2]) (Z.of_nat (length pre) + 1) st in
  let r2 := reap_or_requeue_v4 e2 c2 (snd (fst r1)) (snd r1) (fst (fst r1)) in
  snd (fst r2) = snd (fst r1) /\
  (pid c2 ∈ snd (fst r2)) /\
  length (snd (fst r2)) = S (length pre) /\
  snd r2 = Z.of_nat (length pre) - 1 /\
  freed (trace (fst (fst r2))) = freed (trace st) ++ [pid c1; pid c2].
Proof.
  intros Hp Hout Hne H1 H2 Hlen Hmax r1 r2. subst r1 r2.
  unfold reap_or_requeue_v4.
  apply Z.eqb_neq in H1, H2. rewrite H1. cbn [fst snd]. rewrite H2. cbn [fst snd].
  rewrite LONG_MAX_val in Hmax.
  rewrite !to_long_small by (rewrite LONG_MAX_val; lia).
  replace (Z.of_nat (length pre) + 1 - 1) with (Z.of_nat (length pre)) by lia.
  rewrite Nat2Z.id.
  rewrite (clear_pid_app_other _ _ _ _ Hne).
  assert (Hout' : pid c2 ∉ clear_pid (Z.to_nat (Z.of_nat (length pre) + 1)) (pid c1) pre)
    by (apply clear_pid_keeps_out; assumption).
  split; [| split; [| split; [| split]]].
  - apply clear_pid_beyond; [exact Hout' |]. rewrite clear_pid_length. lia.
  - rewrite clear_pid_beyond; [| exact Hout' | rewrite clear_pid_length; lia].
    apply elem_of_app. right. constructor.
  - rewrite clear_pid_beyond; [| exact Hout' | rewrite clear_pid_length; lia].
    rewrite length_app, clear_pid_length. simpl. lia.
  - reflexivity.
  - cbn [log trace]. rewrite !freed_app. simpl. rewrite !app_nil_r, <- app_assoc. reflexivity.
Qed.

Lemma last_pid_is_never_cleared_witness :
  snd (fst (reap_or_requeue_v4 (exits 103) (pcb_of 103)
              (snd (fst (reap_or_requeue_v4 (exits 101) (pcb_of 101) [101; 102; 103] 3
                           (initial_state 50 []))))
              (snd (reap_or_requeue_v4 (exits 101) (pcb_of 101) [101; 102; 103] 3
                      (initial_state 50 [])))
              (fst (fst (reap_or_requeue_v4 (exits 101) (pcb_of 101) [101; 102; 103] 3
                           (initial_state 50 []))))))
  = [-1; 102; 103].
Proof.
  destruct (last_pid_is_never_cleared (exits 101) (exits 103) (pcb_of 101) (pcb_of 103)
              [101; 102] (initial_state 50 [])) as (H & _).
  - simpl. lia.
  - apply (bool_decide_unpack _). vm_compute. exact I.
  - simpl. lia.
  - vm_compute. congruence.
  - vm_compute. congruence.
  - simpl. lia.
  - vm_compute. reflexivity.
  - etransitivity; [exact H | reflexivity].
Defined.

End UspsRestFacts.

(** ** The scheduler of v4 *)

Module UspsV4Facts.
Import CInt CIntFacts ArrayQueue ArrayQueueFacts Float32 Float32Facts Usps UspsFacts UspsV4.
Import String.StringSyntax.
Local Open Scope string_scope.

(** *** The handlers and the head of the monitoring loop *)

Lemma alarm_handler_v4_extends Q st : extends handler_event st (alarm_handler_v4 Q st).
Proof.
  constructor; simpl; auto; [| discriminate].
  exists []. rewrite app_nil_r. auto.
Qed.

Lemma handle_v4_extends Q s st : extends handler_event st (handle_v4 Q s st).
Proof.
  destruct s; [apply alarm_handler_v4_extends | apply sigchld_handler_extends].
Qed.

Lemma deliver_v4_extends Q sigs st : extends handler_event st (deliver_v4 Q sigs st).
Proof.
  revert st. induction sigs as [| s sigs IH]; intros st; simpl.
  - apply extends_refl.
  - eapply extends_trans; [apply handle_v4_extends | apply IH].
Qed.

(** *** One turn of the dispatch loop *)

Lemma sched_loop_v4_empty Q t env st pl n :
  holds st [] -> sched_loop_v4 Q t env st pl n = (Returned 0, mkV4 st pl n).
Proof. intros H. destruct env; simpl; rewrite (holds_empty st H); reflexivity. Qed.

Lemma sched_loop_v4_stalled Q t st c cs pl n :
  holds st (c :: cs) -> sched_loop_v4 Q t [] st pl n = (Unfinished, mkV4 st pl n).
Proof. intros H. simpl. rewrite (holds_nonempty st c cs H). reflexivity. Qed.

Lemma sched_loop_v4_turn Q t e env st c cs pl n :
  holds st (c :: cs) ->
  sched_loop_v4 Q t (e :: env) st pl n =
  match polls e with
  | [] => (Unfinished, mkV4 (dispatch t c (after_dequeue st)) pl n)
  | sigs :: _ =>
      let st3 := deliver_v4 Q sigs (dispatch t c (after_dequeue st)) in
      if childRunning st3 && timeLeft st3 then (Beyond 200, mkV4 st3 pl n)
      else
        let '(st4, pl', n') := reap_or_requeue_v4 e c pl n st3 in
        sched_loop_v4 Q t env st4 pl' n'
  end.
Proof.
  intros H. destruct (holds_dequeue st c cs H) as (q & Hd & _).
  cbn [sched_loop_v4]. rewrite (holds_nonempty st c cs H).
  unfold after_dequeue. rewrite Hd. destruct (polls e); reflexivity.
Qed.

Lemma reap_or_requeue_v4_shape t e st c cs st3 pl n :
  holds st (c :: cs) ->
  extends wait_event (dispatch t c (after_dequeue st)) st3 ->
  exists wevs st4 pl' n',
    reap_or_requeue_v4 e c pl n st3 = (st4, pl', n') /\
    forallb wait_event wevs = true /\
    trace st4 = trace st ++ turn_events_of t e c c wevs /\
    holds st4 (turn_ready_of e c cs).
Proof.
  intros H [Hqueue (wevs & Ht3 & Hk) _ _].
  destruct (stalled_shape t st c cs H) as (Htr & _).
  destruct (after_dequeue_eq st c cs H) as (q & Hq & Hwf & Hc & Hroom).
  assert (Hq3 : queue st3 = q) by (rewrite Hqueue, Hq; reflexivity).
  exists wevs.
  unfold reap_or_requeue_v4, turn_events_of, turn_ready_of.
  destruct (wait_res e =? 0) eqn:E.
  - cbn [queue log].
    destruct (q_enqueue_room None (grow_ok e) (queue st3) (Some c))
      as (q' & He & Hwf' & _ & Hc'); [rewrite Hq3; assumption .. |].
    rewrite He. eexists _, _, _. split; [reflexivity |]. split; [exact Hk |].
    unfold holds. cbn [queue trace log set_queue].
    rewrite Ht3, Htr, Hc', Hq3, Hc, fmap_app, <- !app_assoc. simpl. auto.
  - eexists _, _, _. split; [reflexivity |]. split; [exact Hk |].
    unfold holds. cbn [queue trace log].
    rewrite Ht3, Htr, Hq3, <- !app_assoc. simpl. auto.
Qed.

(** *** The invariant of a run of v4 *)

Lemma sched_loop_v4_inv Q t env st cs pl n :
  run_inv st cs -> resumed (trace st) = [] ->
  exists cs', run_inv (v4_state (snd (sched_loop_v4 Q t env st pl n))) cs' /\
    launched (trace (v4_state (snd (sched_loop_v4 Q t env st pl n)))) = launched (trace st) /\
    lost (trace (v4_state (snd (sched_loop_v4 Q t env st pl n)))) = lost (trace st) /\
    (fst (sched_loop_v4 Q t env st pl n) = Returned 0 ->
       cs' = [] /\ resumed (trace (v4_state (snd (sched_loop_v4 Q t env st pl n)))) = []).
Proof.
  revert st cs pl n. induction env as [| e env IH]; intros st cs pl n Hinv Hidle.
  - destruct cs as [| c cs].
    + rewrite (sched_loop_v4_empty _ _ _ _ _ _ (inv_holds _ _ Hinv)). simpl. eauto 6.
    + rewrite (sched_loop_v4_stalled _ _ _ _ _ _ _ (inv_holds _ _ Hinv)). simpl.
      exists (c :: cs). split; [exact Hinv |]. split; [reflexivity |].
      split; [reflexivity | discriminate].
  - destruct cs as [| c cs].
    + rewrite (sched_loop_v4_empty _ _ _ _ _ _ (inv_holds _ _ Hinv)). simpl. eauto 6.
    + rewrite (sched_loop_v4_turn _ _ _ _ _ _ _ _ _ (inv_holds _ _ Hinv)).
      destruct (waiting_inv t st c cs Hinv Hidle) as (Hinvw & Hrw & Hlw & Hlostw).
      destruct (polls e) as [| sigs rest].
      * simpl. exists cs. split; [exact Hinvw |]. split; [exact Hlw |].
        split; [exact Hlostw | discriminate].
      * cbv zeta.
        assert (Hext : extends wait_event (dispatch t c (after_dequeue st))
                         (deliver_v4 Q sigs (dispatch t c (after_dequeue st)))).
        { apply (extends_weaken handler_event);
            [apply wait_event_of_handler | apply deliver_v4_extends]. }
        destruct (childRunning (deliver_v4 Q sigs (dispatch t c (after_dequeue st))) &&
                  timeLeft (deliver_v4 Q sigs (dispatch t c (after_dequeue st)))).
        -- cbn [fst snd v4_state].
           destruct (run_inv_extends _ _ _ Hinvw Hext) as (Hi & _ & Hl & Hlo).
           exists cs. split; [exact Hi |]. split; [congruence |].
           split; [congruence | discriminate].
        -- destruct (reap_or_requeue_v4_shape t e st c cs _ pl n (inv_holds _ _ Hinv) Hext)
             as (wevs & st4 & pl' & n' & Hr & Hk & Htr & Hh).
           rewrite Hr.
           destruct (turn_inv_of t e st c c cs st4 wevs Hinv Hidle Hk eq_refl Htr Hh)
             as (Hinv' & Hidle' & Hl' & Hlo').
           destruct (IH _ _ pl' n' Hinv' Hidle') as (cs' & H1 & H2 & H3 & H4).
           exists cs'. split; [exact H1 |]. split; [congruence |].
           split; [congruence | exact H4].
Qed.

(** Up to 128 command lines the queue has room: no PCB is turned down
    before the write past [pid_list]. *)
Lemma launch_loop_v4_inv lines st cs pl n :
  run_inv st cs -> resumed (trace st) = [] ->
  NoDup (fork_res <$> lines) ->
  (forall p, p ∈ (fork_res <$> lines) -> p ∉ launched (trace st)) ->
  size (queue st) = MAX_PROCESSES -> count (queue st) = n -> lost (trace st) = [] ->
  exists cs', run_inv (v4_state (snd (launch_loop_v4 lines st pl n))) cs' /\
    resumed (trace (v4_state (snd (launch_loop_v4 lines st pl n)))) = [] /\
    (fst (launch_loop_v4 lines st pl n) = None ->
       lost (trace (v4_state (snd (launch_loop_v4 lines st pl n)))) = []) /\
    fst (launch_loop_v4 lines st pl n) <> Some (Returned 0).
Proof.
  revert st cs pl n.
  induction lines as [| l lines IH]; intros st cs pl n Hinv Hidle Hnd Hfresh Hsz Hn Hlost.
  - simpl. exists cs. split; [exact Hinv |]. split; [exact Hidle |].
    split; [intros _; exact Hlost | discriminate].
  - rewrite fmap_cons in Hnd, Hfresh. apply NoDup_cons in Hnd as [Hl Hnd].
    cbn [launch_loop_v4].
    destruct (fork_res l =? -1) eqn:E1.
    { apply Z.eqb_eq in E1.
      destruct (run_inv_fork_invalid st cs (fork_res l) Hinv Hidle) as [Hinv' Hidle']; [auto |].
      exists cs. cbn [fst snd v4_state]. split; [| split; [| split]].
      - apply run_inv_neutral; [exact Hinv' | reflexivity].
      - cbn [log trace]. rewrite resumed_snoc. cbn [log trace] in Hidle'. rewrite Hidle'.
        reflexivity.
      - discriminate.
      - intros H. injection H as H. vm_compute in H. discriminate H. }
    destruct (fork_res l =? 0) eqn:E0.
    { apply Z.eqb_eq in E0.
      destruct (run_inv_fork_invalid st cs (fork_res l) Hinv Hidle) as [Hinv' Hidle']; [auto |].
      exists cs. cbn [fst snd v4_state]. split; [exact Hinv' |]. split; [exact Hidle' |].
      split; discriminate. }
    cbn [queue log].
    pose proof (inv_holds _ _ Hinv) as [Hwf0 _].
    assert (Hcount : 0 <= count (queue st) <= MAX_PROCESSES).
    { destruct Hwf0. lia. }
    unfold MAX_PROCESSES in Hcount, Hsz.
    destruct (q_enqueue_any None (launch_grow_ok l) (queue st)
                (Some (mkChild (fork_res l) 0 false false)) Hwf0)
      as (status & q & He & Hwf & Hst & Hc & Hs); [lia |].
    rewrite He.
    destruct (launch_one_inv st cs (fork_res l) status q Hinv Hidle E1 E0)
      as (Hinv' & Hidle' & Hl' & Hlost');
      [apply Hfresh, elem_of_cons; auto | exact Hwf | exact Hc |].
    destruct ((0 <=? n) && (n <? MAX_PROCESSES)) eqn:En.
    + apply andb_true_iff in En as [En0 En1].
      apply Z.leb_le in En0. apply Z.ltb_lt in En1. unfold MAX_PROCESSES in En1.
      assert (Hroom : (count (queue st) <? size (queue st)) = true) by (apply Z.ltb_lt; lia).
      rewrite Hroom in Hst, Hs. simpl in Hst. subst status.
      apply (IH _ _ _ _ Hinv' Hidle' Hnd).
      * intros p Hp. rewrite Hl'. intros Hq. apply elem_of_snoc in Hq as [Hq | ->].
        -- revert Hq. apply Hfresh. apply elem_of_cons. auto.
        -- contradiction.
      * cbn [queue log set_queue]. rewrite Hs. exact Hsz.
      * cbn [queue log set_queue].
        pose proof (count_contents None q Hwf) as H1.
        pose proof (count_contents None (queue st) Hwf0) as H2.
        rewrite Hc, length_app in H1. simpl in H1.
        rewrite to_long_small by (rewrite LONG_MAX_val; lia). lia.
      * rewrite Hlost', Hlost. reflexivity.
    + cbn [fst snd v4_state].
      exists (if status then cs ++ [mkChild (fork_res l) 0 false false] else cs).
      split; [exact Hinv' |]. split; [exact Hidle' |]. split; discriminate.
Qed.

(** The invariant holds wherever a run of v4 stops. *)
Lemma run_v4_inv d Q lines env pl0 :
  NoDup (fork_res <$> lines) ->
  exists cs, run_inv (v4_state (snd (run_v4 d Q lines env pl0 []))) cs /\
    (fst (run_v4 d Q lines env pl0 []) = Returned 0 ->
       cs = [] /\ resumed (trace (v4_state (snd (run_v4 d Q lines env pl0 [])))) = [] /\
       lost (trace (v4_state (snd (run_v4 d Q lines env pl0 [])))) = []).
Proof.
  intros Hnd.
  destruct (initial_state_inv d) as [Hinv0 Hidle0].
  destruct (launch_loop_v4_inv lines (initial_state d []) [] pl0 0 Hinv0 Hidle0 Hnd)
    as (cs & Hinv & Hidle & Hlost & Hne);
    [intros p _; apply not_elem_of_nil | reflexivity | reflexivity | reflexivity |].
  unfold run_v4.
  destruct (launch_loop_v4 lines (initial_state d []) pl0 0) as [[o |] s] eqn:E;
    cbn [fst snd] in *.
  - exists cs. split; [exact Hinv |]. intros Ho. subst o. contradiction.
  - specialize (Hlost eq_refl).
    assert (Hinv1 : run_inv (log EClose (v4_state s)) cs)
      by (apply run_inv_neutral; [exact Hinv | reflexivity]).
    destruct (8 <? v4_numProcesses s).
    + cbn [fst snd v4_state]. exists cs. split; [exact Hinv1 | discriminate].
    + destruct (sched_loop_v4_inv Q (set_up_timer Q) env (log EClose (v4_state s)) cs
                  (v4_pid_list s) (v4_numProcesses s) Hinv1) as (cs' & H1 & H2 & H3 & H4).
      * cbn [log trace]. rewrite resumed_snoc, Hidle. reflexivity.
      * exists cs'. split; [exact H1 |]. intros Ho. destruct (H4 Ho) as [-> Hr].
        split; [reflexivity |]. split; [exact Hr |].
        rewrite H3. cbn [log trace]. rewrite lost_app, Hlost. reflexivity.
Qed.

(** *** The contract of [waitpid] *)

Lemma existsb_eqb_elem (x : Z) (l : list Z) : existsb (Z.eqb x) l = true <-> x ∈ l.
Proof.
  induction l as [| a l IH]; simpl.
  - split; [discriminate | intros H; apply elem_of_nil in H; contradiction].
  - rewrite orb_true_iff, elem_of_cons, Z.eqb_eq, IH. reflexivity.
Qed.

Lemma reaped_cons_waitpid seen a r tr :
  seen ++ reaped (EWaitpid a r :: tr) = (if 0 <? r then seen ++ [r] else seen) ++ reaped tr.
Proof.
  change (reaped (EWaitpid a r :: tr)) with ((if 0 <? r then [r] else []) ++ reaped tr).
  destruct (0 <? r); [rewrite <- app_assoc |]; reflexivity.
Qed.

Lemma waitpid_contract_from_spec tr : forall seen,
  waitpid_contract_from seen tr = true -> NoDup seen ->
  NoDup (seen ++ reaped tr) /\
  forall tr1 a r tr2, tr = tr1 ++ EWaitpid a r :: tr2 -> a <> -1 ->
    r = a \/ r = 0 \/ (r = -1 /\ a ∈ seen ++ reaped tr1).
Proof.
  induction tr as [| e tr IH]; intros seen H Hnd.
  - split; [simpl; rewrite app_nil_r; exact Hnd |].
    intros tr1 a r tr2 Heq. destruct tr1; discriminate Heq.
  - destruct e;
      try (simpl in H; destruct (IH seen H Hnd) as [H1 H2]; split; [exact H1 |];
           intros tr1 a r tr2 Heq Ha;
           destruct tr1 as [| e1 tr1]; [discriminate Heq |];
           injection Heq as <- Heq; apply (H2 tr1 a r tr2 Heq Ha)).
    simpl in H. apply andb_true_iff in H as [H H3]. apply andb_true_iff in H as [H1 H2].
    assert (Hnd' : NoDup (if 0 <? res then seen ++ [res] else seen)).
    { destruct (0 <? res); [| exact Hnd].
      apply negb_true_iff in H1.
      apply NoDup_app. split; [exact Hnd |]. split; [| apply NoDup_singleton].
      intros x Hx Hx'. apply list_elem_of_singleton in Hx'. subst x.
      apply existsb_eqb_elem in Hx. congruence. }
    destruct (IH _ H3 Hnd') as [G1 G2].
    split; [rewrite reaped_cons_waitpid; exact G1 |].
    intros tr1 a r tr2 Heq Ha. destruct tr1 as [| e1 tr1].
    + injection Heq as -> -> _. simpl. rewrite app_nil_r.
      apply orb_true_iff in H2 as [H2 | H2].
      * apply orb_true_iff in H2 as [H2 | H2].
        -- apply orb_true_iff in H2 as [H2 | H2].
           ++ apply Z.eqb_eq in H2. contradiction.
           ++ apply Z.eqb_eq in H2. auto.
        -- apply Z.eqb_eq in H2. auto.
      * apply andb_true_iff in H2 as [H2 H4]. apply Z.eqb_eq in H2.
        apply existsb_eqb_elem in H4. auto.
    + injection Heq as <- Heq. rewrite reaped_cons_waitpid.
      apply (G2 tr1 a r tr2 Heq Ha).
Qed.

Lemma freed_split p tr : p ∈ freed tr -> exists tr1 tr2, tr = tr1 ++ EFree p :: tr2.
Proof.
  induction tr as [| e tr IH]; intros H.
  - apply elem_of_nil in H. contradiction.
  - change (e :: tr) with ([e] ++ tr) in H. rewrite freed_app in H.
    apply elem_of_app in H as [H | H].
    + destruct e; try (apply elem_of_nil in H; contradiction).
      apply list_elem_of_singleton in H. subst p0. exists [], tr. reflexivity.
    + destruct (IH H) as (tr1 & tr2 & ->). exists (e :: tr1), tr2. reflexivity.
Qed.

Lemma reaped_by_contract tr p :
  disciplined tr -> waitpid_contract tr = true -> p ∈ freed tr -> 0 < p -> p ∈ reaped tr.
Proof.
  intros Hd Hc Hf Hp.
  destruct (waitpid_contract_from_spec tr [] Hc (NoDup_nil_2)) as [_ Hsplit].
  destruct (freed_split p tr Hf) as (tr1 & tr2 & Heq).
  pose proof (disciplined_split _ Hd _ _ _ Heq) as [_ [_ (tr0 & res & -> & Hres)]].
  rewrite <- app_assoc in Heq. cbn [app] in Heq.
  destruct (Hsplit tr0 p res (EFree p :: tr2) Heq) as [-> | [-> | [_ Hin]]]; [lia | | | ].
  - rewrite Heq, reaped_app. apply elem_of_app. right.
    change (reaped (EWaitpid p p :: EFree p :: tr2))
      with ((if 0 <? p then [p] else []) ++ reaped (EFree p :: tr2)).
    destruct (0 <? p) eqn:E; [| lia]. apply elem_of_cons. auto.
  - contradiction.
  - rewrite Heq, reaped_app. apply elem_of_app. left. exact Hin.
Qed.

(** *** Reaping and finalization *)

(** Against C7 as stated, on v4.  While 102 is the process resumed, a
    [waitpid] of the [SIGCHLD] handler returns the pid of 101 and so
    consumes the status of a process other than the one running; and when
    the [fork] of the second command fails, [main] returns with the first
    process launched and never reaped.  (In the first run each signal is
    handled before the condition of the monitoring loop is first
    evaluated, which is how a run of v4 gets past that loop.) *)
Lemma handler_reaps_unrelated_child :
  fst (run_v4 50 500 two_commands env_reaped_elsewhere zeros []) = Returned 0 /\
  steals (trace (v4_state (snd (run_v4 50 500 two_commands env_reaped_elsewhere zeros []))))
    = true /\
  (exists tr1 tr2,
     trace (v4_state (snd (run_v4 50 500 two_commands env_reaped_elsewhere zeros []))) =
       tr1 ++ EWaitpid (-1) 101 :: tr2 /\
     resumed tr1 = [102]) /\
  fst (run_v4 50 500 fork_fails_at_second [] zeros []) = Returned EXIT_FAILURE /\
  launched (trace (v4_state (snd (run_v4 50 500 fork_fails_at_second [] zeros [])))) = [101] /\
  reaped (trace (v4_state (snd (run_v4 50 500 fork_fails_at_second [] zeros [])))) = [] /\
  freed (trace (v4_state (snd (run_v4 50 500 fork_fails_at_second [] zeros [])))) = [].
Proof.
  split; [reflexivity |]. split; [reflexivity |]. split.
  - exists (take 14 (trace (v4_state
              (snd (run_v4 50 500 two_commands env_reaped_elsewhere zeros []))))),
           (drop 15 (trace (v4_state
              (snd (run_v4 50 500 two_commands env_reaped_elsewhere zeros []))))).
    vm_compute. auto.
  - vm_compute. auto.
Qed.

(** C7, amended.  In every run of v4 in which [fork] returns distinct
    pids, as far as the model follows it: a [waitpid] that names a process
    names the one the loop has resumed, so the exit check of the loop
    queries the handle it dispatched (the [SIGCHLD] handler reaps with
    [waitpid(-1)], which names none); no PCB is freed twice; a PCB is freed
    right after an exit check on its pid that did not return 0; no PCB is
    enqueued once it has been freed; and when [main] returns 0 every
    process launched has had its PCB freed, hence exactly once, and, if
    [waitpid] kept to its contract, its status was obtained exactly once, by
    the exit check of the loop or by the handler. *)
Theorem exit_checks_and_finalization d Q lines env pid_list0 :
  NoDup (fork_res <$> lines) ->
  let r := run_v4 d Q lines env pid_list0 [] in
  let tr := trace (v4_state (snd r)) in
  (forall tr1 a res tr2,
     tr = tr1 ++ EWaitpid a res :: tr2 -> a <> -1 -> resumed tr1 = [a]) /\
  NoDup (freed tr) /\
  (forall tr1 p tr2,
     tr = tr1 ++ EFree p :: tr2 ->
     exists tr0 res, tr1 = tr0 ++ [EWaitpid p res] /\ res <> 0) /\
  (forall tr1 c ok tr2,
     tr = tr1 ++ EEnqueue c ok :: tr2 -> pid c ∉ freed tr1) /\
  (fst r = Returned 0 ->
     (forall p, p ∈ launched tr -> p ∈ freed tr) /\
     (waitpid_contract tr = true ->
        NoDup (reaped tr) /\ forall p, p ∈ launched tr -> 0 < p -> p ∈ reaped tr)).
Proof.
  intros Hnd r tr.
  destruct (run_v4_inv d Q lines env pid_list0 Hnd) as (cs & Hinv & Hdone).
  fold r in Hinv, Hdone. fold tr in Hdone.
  pose proof (inv_trace _ _ Hinv) as Hd. fold tr in Hd.
  split; [| split; [| split; [| split]]].
  - intros tr1 a res tr2 Heq. apply (disciplined_split _ Hd _ _ _ Heq).
  - apply disciplined_freed. exact Hd.
  - intros tr1 p tr2 Heq. apply (disciplined_split _ Hd _ _ _ Heq).
  - intros tr1 c ok tr2 Heq. apply (disciplined_split _ Hd _ _ _ Heq).
  - intros Hs. destruct (Hdone Hs) as (-> & Hidle & Hlost).
    assert (Hall : forall p, p ∈ launched tr -> p ∈ freed tr).
    { intros p Hp. destruct (inv_cover _ _ Hinv p Hp) as [H | [H | [H | H]]].
      - apply elem_of_nil in H. contradiction.
      - fold tr in H. rewrite Hidle in H. apply elem_of_nil in H. contradiction.
      - exact H.
      - fold tr in H. rewrite Hlost in H. apply elem_of_nil in H. contradiction. }
    split; [exact Hall |]. intros Hc. split.
    + destruct (waitpid_contract_from_spec tr [] Hc (NoDup_nil_2)) as [H _]. exact H.
    + intros p Hp Hpos. apply reaped_by_contract; auto.
Qed.

Lemma exit_checks_and_finalization_witness :
  NoDup (freed (trace (v4_state
           (snd (run_v4 50 500 two_commands env_reaped_elsewhere zeros []))))) /\
  (forall p,
     p ∈ launched (trace (v4_state
            (snd (run_v4 50 500 two_commands env_reaped_elsewhere zeros [])))) ->
     0 < p ->
     p ∈ reaped (trace (v4_state
            (snd (run_v4 50 500 two_commands env_reaped_elsewhere zeros []))))).
Proof.
  destruct (exit_checks_and_finalization 50 500 two_commands env_reaped_elsewhere zeros)
    as (_ & H2 & _ & _ & H5).
  - apply (bool_decide_unpack _). vm_compute. exact I.
  - split; [exact H2 |].
    destruct (H5 eq_refl) as [_ H6]. destruct (H6 eq_refl) as [_ H7]. exact H7.
Defined.

End UspsV4Facts.
